(** * extractLocoQuery: a shallow embedding of chatbot-core/nlp/extractLocoQuery.ts

    The TypeScript module is a pipeline of regular-expression scans over one
    input string.  The embedding keeps that shape:

    - a JavaScript string is a [string]; its characters are the code units
      below 256 (the Latin-1 part of UTF-16), on which [toLowerCase], [\s],
      [\w] and [\d] are modelled exactly;
    - a regular expression literal is a term of [regex], read off the literal
      symbol by symbol, and is run by a backtracking matcher written after the
      pattern semantics of ECMAScript (continuation passing, greedy
      quantifiers, alternatives tried left to right);
    - [forEachMatch] is the [while] loop of the source with the number of
      iterations bounded by a fuel argument: it answers [None] when the fuel
      runs out, and the extractors run in the option monad.  *)

From Stdlib Require Import Bool Arith List Lia NArith Ascii String.
From Stdlib Require Import Sorting.Sorted Sorting.Permutation.
Import ListNotations.

Local Open Scope string_scope.
Local Open Scope list_scope.
Local Open Scope nat_scope.

Set Implicit Arguments.

(** ** Characters *)

Module Chars.

Definition code (c : ascii) : N := N_of_ascii c.

Definition between (lo hi c : ascii) : bool :=
  (code lo <=? code c)%N && (code c <=? code hi)%N.

Definition isDigit (c : ascii) : bool := between "0" "9" c.
Definition isUpperAZ (c : ascii) : bool := between "A" "Z" c.
Definition isLowerAZ (c : ascii) : bool := between "a" "z" c.

(** [\w]: the set [A-Za-z0-9_]. *)
Definition isWordChar (c : ascii) : bool :=
  isLowerAZ c || isUpperAZ c || isDigit c || Ascii.eqb c "_".

(** [\s]: WhiteSpace and LineTerminator code units below 256:
    TAB, LF, VT, FF, CR, SPACE and NBSP. *)
Definition isSpace (c : ascii) : bool :=
  between "009" "013" c || Ascii.eqb c " " || Ascii.eqb c "160".

(** [String.prototype.toLowerCase] on one code unit below 256: A-Z and the
    Latin-1 capitals U+00C0..U+00DE (without the sign U+00D7) move up by 32. *)
Definition toLower (c : ascii) : ascii :=
  if isUpperAZ c || (between "192" "222" c && negb (Ascii.eqb c "215"))
  then ascii_of_N (code c + 32) else c.

(** [String.prototype.toUpperCase] on a code unit of [a-z].  The source
    applies it only to tokens cut out by the classes [A-Za-z0-9\-\/], where
    it is this map. *)
Definition toUpper (c : ascii) : ascii :=
  if isLowerAZ c then ascii_of_N (code c - 32) else c.

(** The lower-case partner of a code unit of [A-Z]. *)
Definition toLowerAZ (c : ascii) : ascii :=
  if isUpperAZ c then ascii_of_N (code c + 32) else c.

End Chars.

(** ** Strings *)

Module Str.

Fixpoint map (f : ascii -> ascii) (s : string) : string :=
  match s with
  | EmptyString => EmptyString
  | String c s' => String (f c) (map f s')
  end.

Definition toLowerCase : string -> string := map Chars.toLower.
Definition toUpperCase : string -> string := map Chars.toUpper.

(** [s.slice(a, b)] for non-negative [a] and [b]: the characters from [a]
    up to [b], or up to the end. *)
Definition slice (s : string) (a b : nat) : string := substring a (b - a) s.

(** [s.slice(a)]. *)
Definition sliceFrom (s : string) (a : nat) : string :=
  substring a (String.length s - a) s.

Fixpoint forallb (p : ascii -> bool) (s : string) : bool :=
  match s with
  | EmptyString => true
  | String c s' => p c && forallb p s'
  end.

Fixpoint existsb (p : ascii -> bool) (s : string) : bool :=
  match s with
  | EmptyString => false
  | String c s' => p c || existsb p s'
  end.

(** [s.indexOf(t)], with [None] for -1. *)
Definition indexOf (s t : string) : option nat := index 0 t s.

(** [s.lastIndexOf(t)]: the largest position at which [t] occurs. *)
Fixpoint lastIndexOf_from (s t : string) (i : nat) : option nat :=
  if prefix t (sliceFrom s i) then Some i
  else match i with
       | 0 => None
       | S i' => lastIndexOf_from s t i'
       end.

Definition lastIndexOf (s t : string) : option nat :=
  lastIndexOf_from s t (String.length s).

Fixpoint dropWhile (p : ascii -> bool) (s : string) : string :=
  match s with
  | EmptyString => EmptyString
  | String c s' => if p c then dropWhile p s' else s
  end.

Fixpoint rev_onto (s acc : string) : string :=
  match s with
  | EmptyString => acc
  | String c s' => rev_onto s' (String c acc)
  end.

Definition rev (s : string) : string := rev_onto s EmptyString.

(** [s.trim()]. *)
Definition trim (s : string) : string :=
  rev (dropWhile Chars.isSpace (rev (dropWhile Chars.isSpace s))).

(** [Number(s)] for a string of decimal digits. *)
Fixpoint number_acc (s : string) (acc : nat) : nat :=
  match s with
  | EmptyString => acc
  | String c s' => number_acc s' (10 * acc + (N.to_nat (Chars.code c) - 48))
  end.

Definition toNumber (s : string) : nat := number_acc s 0.

End Str.

(** ** Regular expressions *)

Module RegExp.

(** One item of a character class, or an atom escape. *)
Inductive citem : Type :=
| One (c : ascii)              (* a single character *)
| Range (lo hi : ascii)        (* lo-hi *)
| Digit                        (* \d *)
| Space.                       (* \s *)

Inductive regex : Type :=
| Empty                                           (* the empty pattern *)
| Class (items : list citem)                      (* [...] or one atom *)
| Seq (r1 r2 : regex)                             (* r1 r2 *)
| Alt (r1 r2 : regex)                             (* r1 | r2 *)
| Rep (min : nat) (max : option nat) (r : regex)  (* r{min,max}, greedy *)
| Group (n : nat) (r : regex)                     (* the n-th ( ... ) *)
| WordBoundary                                    (* \b *)
| LineStart                                       (* ^ *)
| LineEnd.                                        (* $ *)

Definition Lit (c : ascii) : regex := Class [One c].
Definition Opt (r : regex) : regex := Rep 0 (Some 1) r.
Definition Star (r : regex) : regex := Rep 0 None r.
Definition Plus (r : regex) : regex := Rep 1 None r.

(** A run of literal characters. *)
Fixpoint Word (s : string) : regex :=
  match s with
  | EmptyString => Empty
  | String c EmptyString => Lit c
  | String c s' => Seq (Lit c) (Word s')
  end.

Fixpoint Seqs (rs : list regex) : regex :=
  match rs with
  | [] => Empty
  | [r] => r
  | r :: rs' => Seq r (Seqs rs')
  end.

Fixpoint Alts (rs : list regex) : regex :=
  match rs with
  | [] => Empty
  | [r] => r
  | r :: rs' => Alt r (Alts rs')
  end.

Definition item_has (it : citem) (c : ascii) : bool :=
  match it with
  | One a => Ascii.eqb a c
  | Range lo hi => Chars.between lo hi c
  | Digit => Chars.isDigit c
  | Space => Chars.isSpace c
  end.

Definition class_has (items : list citem) (c : ascii) : bool :=
  List.existsb (fun it => item_has it c) items.

(** CharacterSetMatcher: [c] is accepted when some member [a] of the set
    has Canonicalize(a) = Canonicalize(c).  Without the [i] flag that is
    membership.  With it, Canonicalize is the upper case of a code unit,
    except that a code unit from 128 on never becomes one below 128; every
    pattern character of this program is below 128 or is NBSP (which has no
    case), so the members with the canonical form of [c] are [c] itself and
    its partners in [A-Z] and [a-z]. *)
Definition class_accepts (ignoreCase : bool) (items : list citem) (c : ascii) : bool :=
  if ignoreCase
  then class_has items c || class_has items (Chars.toUpper c)
       || class_has items (Chars.toLowerAZ c)
  else class_has items c.

(** The state of a match: the end index reached and the captures made,
    most recent first, each as group number with start and end offset. *)
Record MatchState : Type := mkState {
  endIndex : nat;
  captures : list (nat * (nat * nat))
}.

Definition Continuation : Type := MatchState -> option MatchState.

Definition isWordCharAt (s : string) (e : nat) : bool :=
  match String.get e s with
  | Some c => Chars.isWordChar c
  | None => false
  end.

(** IsWordChar(e - 1) differs from IsWordChar(e). *)
Definition atWordBoundary (s : string) (e : nat) : bool :=
  let a := match e with 0 => false | S p => isWordCharAt s p end in
  let b := isWordCharAt s e in
  xorb a b.

Section Matcher.

Variable ignoreCase : bool.
Variable input : string.

(** RepeatMatcher, by recursion on the number of iterations still allowed.
    For [{min,max}] that number is [max].  For an open quantifier it is
    [min] plus the characters left: once [min] is used up, an iteration
    that does not move the end index is a failure, so a further iteration
    could only fail and the matcher would fall back to the continuation,
    which is what the base case does.  No pattern of this program has a
    group under a quantifier, so captures are not reset per iteration. *)
Fixpoint repeat (m : MatchState -> Continuation -> option MatchState)
         (left min : nat) (x : MatchState) (c : Continuation) {struct left}
  : option MatchState :=
  match left with
  | 0 => c x
  | S left' =>
      let d : Continuation := fun y =>
        if (min =? 0) && (endIndex y =? endIndex x) then None
        else repeat m left' (pred min) y c in
      if min =? 0 then
        match m x d with
        | Some z => Some z
        | None => c x
        end
      else m x d
  end.

Fixpoint matcher (r : regex) (x : MatchState) (c : Continuation) {struct r}
  : option MatchState :=
  match r with
  | Empty => c x
  | Class items =>
      match String.get (endIndex x) input with
      | Some ch =>
          if class_accepts ignoreCase items ch
          then c (mkState (S (endIndex x)) (captures x))
          else None
      | None => None
      end
  | Seq r1 r2 => matcher r1 x (fun y => matcher r2 y c)
  | Alt r1 r2 =>
      match matcher r1 x c with
      | Some z => Some z
      | None => matcher r2 x c
      end
  | Rep min max r' =>
      let left := match max with
                  | Some n => n
                  | None => min + (String.length input - endIndex x)
                  end in
      repeat (matcher r') left min x c
  | Group n r' =>
      matcher r' x (fun y =>
        c (mkState (endIndex y) ((n, (endIndex x, endIndex y)) :: captures y)))
  | WordBoundary => if atWordBoundary input (endIndex x) then c x else None
  | LineStart => if endIndex x =? 0 then c x else None
  | LineEnd => if endIndex x =? String.length input then c x else None
  end.

(** One attempt at index [i], with no captures yet. *)
Definition matchAt (r : regex) (i : nat) : option MatchState :=
  matcher r (mkState i []) Some.

(** RegExpBuiltinExec: the first index from [lastIndex] on at which the
    pattern matches; [span] counts the indices still to try. *)
Fixpoint scanFrom (r : regex) (span i : nat) : option (nat * MatchState) :=
  match matchAt r i with
  | Some y => Some (i, y)
  | None =>
      match span with
      | 0 => None
      | S span' => scanFrom r span' (S i)
      end
  end.

End Matcher.

(** A compiled pattern with its [i] flag. *)
Record RegExp : Type := mkRegExp {
  source : regex;
  flagI : bool
}.

(** The array returned by [exec]: [index], the whole match [m[0]], its end,
    and the captured groups. *)
Record ExecArray : Type := mkExec {
  index : nat;
  lastEnd : nat;
  whole : string;
  groups : list (nat * (nat * nat))
}.

Fixpoint lookup (n : nat) (caps : list (nat * (nat * nat))) : option (nat * nat) :=
  match caps with
  | [] => None
  | (k, se) :: caps' => if k =? n then Some se else lookup n caps'
  end.

(** [m[n]] for a group that took part in the match; the empty string
    stands for [undefined], which the callers never meet (their groups are
    not optional). *)
Definition group (input : string) (m : ExecArray) (n : nat) : string :=
  match lookup n (groups m) with
  | Some (s, e) => Str.slice input s e
  | None => EmptyString
  end.

(** [re.exec(input)] with [re.lastIndex = lastIndex]; [None] is [null]. *)
Definition exec (re : RegExp) (input : string) (lastIndex : nat) : option ExecArray :=
  if String.length input <? lastIndex then None
  else
    match scanFrom (flagI re) input (source re) (String.length input - lastIndex) lastIndex with
    | Some (i, y) =>
        Some (mkExec i (endIndex y) (Str.slice input i (endIndex y)) (captures y))
    | None => None
    end.

(** [re.test(input)] and [input.match(re)] for a pattern without [g]. *)
Definition test (re : RegExp) (input : string) : bool :=
  match exec re input 0 with
  | Some _ => true
  | None => false
  end.

(** *** What a pattern guarantees

    Three measures read off a pattern, used to state what every match of it
    looks like. *)

(** The least number of characters a match consumes. *)
Fixpoint minlen (r : regex) : nat :=
  match r with
  | Empty => 0
  | Class _ => 1
  | Seq r1 r2 => minlen r1 + minlen r2
  | Alt r1 r2 => Nat.min (minlen r1) (minlen r2)
  | Rep min max r' =>
      match max with
      | Some n => Nat.min n min
      | None => min
      end * minlen r'
  | Group _ r' => minlen r'
  | WordBoundary | LineStart | LineEnd => 0
  end.

(** Whether group [n] occurs in the pattern. *)
Fixpoint mentions (r : regex) (n : nat) : bool :=
  match r with
  | Seq r1 r2 | Alt r1 r2 => mentions r1 n || mentions r2 n
  | Rep _ _ r' => mentions r' n
  | Group k r' => (k =? n) || mentions r' n
  | _ => false
  end.

(** [sets r n = Some k]: every match of [r] captures group [n], with at
    least [k] characters. *)
Fixpoint sets (r : regex) (n : nat) : option nat :=
  match r with
  | Seq r1 r2 =>
      match sets r2 n with
      | Some k => Some k
      | None => if mentions r2 n then None else sets r1 n
      end
  | Alt r1 r2 =>
      match sets r1 n, sets r2 n with
      | Some k1, Some k2 => Some (Nat.min k1 k2)
      | _, _ => None
      end
  | Group k r' => if k =? n then Some (minlen r') else sets r' n
  | _ => None
  end.

(** A capture lying between two indices. *)
Definition within (lo hi : nat) (cap : nat * (nat * nat)) : Prop :=
  lo <= fst (snd cap) /\ fst (snd cap) <= snd (snd cap) /\ snd (snd cap) <= hi.

(** The captures [new] are what a match of [r] from [lo] to [hi] adds. *)
Record Captured (r : regex) (lo hi : nat) (new : list (nat * (nat * nat))) : Prop :=
  mkCaptured {
    cap_within : Forall (within lo hi) new;
    cap_absent : forall n, mentions r n = false -> lookup n new = None;
    cap_set : forall n k, sets r n = Some k ->
              exists s e, lookup n new = Some (s, e) /\ s + k <= e
  }.

(** State [y] is reached from [x] by a match of [r] on [input]. *)
Record Reaches (input : string) (r : regex) (x y : MatchState) : Prop := mkReaches {
  reach_len : endIndex x + minlen r <= endIndex y;
  reach_bound : endIndex x <= String.length input -> endIndex y <= String.length input;
  reach_caps : exists new, captures y = new ++ captures x
                           /\ Captured r (endIndex x) (endIndex y) new
}.

(** What is proved of every pattern: a successful match went through the
    continuation, at a state reached by the pattern. *)
Definition Sound (ignoreCase : bool) (input : string) (r : regex) : Prop :=
  forall x c z, matcher ignoreCase input r x c = Some z ->
                exists y, c y = Some z /\ Reaches input r x y.

(** What [exec] returns from [lastIndex] on. *)
Record ValidExec (re : RegExp) (input : string) (lastIndex : nat) (m : ExecArray) : Prop :=
  mkValidExec {
    ve_from : lastIndex <= index m;
    ve_len : index m + minlen (source re) <= lastEnd m;
    ve_bound : lastEnd m <= String.length input;
    ve_whole : whole m = Str.slice input (index m) (lastEnd m);
    ve_groups : Captured (source re) (index m) (lastEnd m) (groups m)
  }.

(** *** What the text of a match looks like

    Three more measures, for the characters a match is made of. *)

(** Whether some class of the pattern accepts the character. *)
Fixpoint alphabet (ignoreCase : bool) (r : regex) (c : ascii) : bool :=
  match r with
  | Class items => class_accepts ignoreCase items c
  | Seq r1 r2 | Alt r1 r2 => alphabet ignoreCase r1 c || alphabet ignoreCase r2 c
  | Rep _ _ r' | Group _ r' => alphabet ignoreCase r' c
  | _ => false
  end.

(** The most characters a match consumes, when the pattern bounds them. *)
Fixpoint maxlen (r : regex) : option nat :=
  match r with
  | Empty | WordBoundary | LineStart | LineEnd => Some 0
  | Class _ => Some 1
  | Seq r1 r2 =>
      match maxlen r1, maxlen r2 with
      | Some k1, Some k2 => Some (k1 + k2)
      | _, _ => None
      end
  | Alt r1 r2 =>
      match maxlen r1, maxlen r2 with
      | Some k1, Some k2 => Some (Nat.max k1 k2)
      | _, _ => None
      end
  | Rep _ (Some n) r' => option_map (Nat.mul n) (maxlen r')
  | Rep _ None _ => None
  | Group _ r' => maxlen r'
  end.

(** [body r n = Some b]: every match of [r] captures group [n], and [b] is
    what stands between its parentheses. *)
Fixpoint body (r : regex) (n : nat) : option regex :=
  match r with
  | Seq r1 r2 =>
      match body r2 n with
      | Some b => Some b
      | None => if mentions r2 n then None else body r1 n
      end
  | Group k r' => if k =? n then Some r' else body r' n
  | _ => None
  end.

(** The characters from [s] up to [e] were consumed by a match of [r]. *)
Record Span (ignoreCase : bool) (input : string) (r : regex) (s e : nat) : Prop :=
  mkSpan {
    span_le : s <= e;
    span_max : forall k, maxlen r = Some k -> e <= s + k;
    span_chars : forall i, s <= i < e ->
                 exists ch, String.get i input = Some ch /\ alphabet ignoreCase r ch = true
  }.

(** State [y] is reached from [x] by a match of [r]: the text consumed, and
    the text of the groups that [r] always captures. *)
Record Consumes (ignoreCase : bool) (input : string) (r : regex) (x y : MatchState)
  : Prop := mkConsumes {
    cons_span : Span ignoreCase input r (endIndex x) (endIndex y);
    cons_caps : exists new,
        captures y = new ++ captures x
        /\ (forall n, mentions r n = false -> lookup n new = None)
        /\ (forall n b, body r n = Some b ->
                        exists s e, lookup n new = Some (s, e)
                                    /\ Span ignoreCase input b s e)
  }.

(** The same statement as [Sound], for [Consumes]. *)
Definition SoundText (ignoreCase : bool) (input : string) (r : regex) : Prop :=
  forall x c z, matcher ignoreCase input r x c = Some z ->
                exists y, c y = Some z /\ Consumes ignoreCase input r x y.

(** The text of what [exec] returns. *)
Record ExecText (re : RegExp) (input : string) (m : ExecArray) : Prop := mkExecText {
  et_whole : Span (flagI re) input (source re) (index m) (lastEnd m);
  et_groups : forall n b, body (source re) n = Some b ->
              exists s e, lookup n (groups m) = Some (s, e)
                          /\ Span (flagI re) input b s e
}.

End RegExp.

(** ** The extractor *)

Module Loco.

Import RegExp.

Inductive Confidence : Type := low | medium | high.
Inductive RawMatchKind : Type := assetIdKind | locoNoKind | nameKind.

Record RawMatch : Type := mkRaw {
  kind : RawMatchKind;
  text : string;
  start : nat;
  stop : nat          (* the field [end]: end index, exclusive *)
}.

Record LocoQuery : Type := mkQuery {
  input : string;
  assetIds : list string;
  locoNos : list string;
  names : list string;
  assetId : option string;
  locoNo : option string;
  name : option string;
  rawMatches : list RawMatch;
  confidence : Confidence
}.

(** *** Patterns *)

Definition sp : regex := Class [Space].
Definition digit : regex := Class [Digit].
Definition modelTail : list citem :=
  [Range "A" "Z"; Range "a" "z"; Range "0" "9"; One "-"; One "/"].

(** [/\b[a-f0-9]{24}\b/gi] *)
Definition ASSET_ID_REGEX_GLOBAL : RegExp :=
  mkRegExp
    (Seqs [WordBoundary;
           Rep 24 (Some 24) (Class [Range "a" "f"; Range "0" "9"]);
           WordBoundary])
    true.

(** [/\b(loco|locomotive|unit|engine|locos|units|engines)\b(?:\s*(?:no\.?|number)?)\s*[:#\-]?\s*(\d{3,5})\b/gi] *)
Definition LOCO_KEYWORD_NUMBER_GLOBAL : RegExp :=
  mkRegExp
    (Seqs [WordBoundary;
           Group 1 (Alts [Word "loco"; Word "locomotive"; Word "unit"; Word "engine";
                          Word "locos"; Word "units"; Word "engines"]);
           WordBoundary;
           Seq (Star sp)
               (Opt (Alt (Seq (Word "no") (Opt (Lit "."))) (Word "number")));
           Star sp;
           Opt (Class [One ":"; One "#"; One "-"]);
           Star sp;
           Group 2 (Rep 3 (Some 5) digit);
           WordBoundary])
    true.

(** [/\b(loco|locomotive|unit|engine)(\d{3,5})\b/gi] *)
Definition LOCO_KEYWORD_NUMBER_CONCAT_GLOBAL : RegExp :=
  mkRegExp
    (Seqs [WordBoundary;
           Group 1 (Alts [Word "loco"; Word "locomotive"; Word "unit"; Word "engine"]);
           Group 2 (Rep 3 (Some 5) digit);
           WordBoundary])
    true.

(** [/\b\d{3,5}\b/g] *)
Definition LOCO_NUMBER_GLOBAL : RegExp :=
  mkRegExp (Seqs [WordBoundary; Rep 3 (Some 5) digit; WordBoundary]) false.

(** [/\b\d{3,5}\b/g] *)
Definition LOCO_NUMBER_START_GLOBAL : RegExp :=
  mkRegExp (Seqs [WordBoundary; Rep 3 (Some 5) digit; WordBoundary]) false.

(** [/\b(\d{3,5})([A-Za-z][A-Za-z0-9\-\/]{2,15})\b/g] *)
Definition LOCO_NAME_NOSPACE_GLOBAL : RegExp :=
  mkRegExp
    (Seqs [WordBoundary;
           Group 1 (Rep 3 (Some 5) digit);
           Group 2 (Seq (Class [Range "A" "Z"; Range "a" "z"])
                        (Rep 2 (Some 15) (Class modelTail)));
           WordBoundary])
    false.

(** [/\b[A-Z][A-Z0-9\-\/]{2,15}\b/g] *)
Definition MODEL_TOKEN_GLOBAL : RegExp :=
  mkRegExp
    (Seqs [WordBoundary;
           Class [Range "A" "Z"];
           Rep 2 (Some 15) (Class [Range "A" "Z"; Range "0" "9"; One "-"; One "/"]);
           WordBoundary])
    false.

(** [/\b(loco|locomotive|unit|engine)\b/] *)
Definition KEYWORD_REGEX : RegExp :=
  mkRegExp
    (Seqs [WordBoundary;
           Group 1 (Alts [Word "loco"; Word "locomotive"; Word "unit"; Word "engine"]);
           WordBoundary])
    false.

Definition days : regex := Seq (Word "day") (Opt (Lit "s")).

(** [/^(\s*-\s*days?\b|\s+days?\b|-\s*days?\b|d\b|d\s)/] *)
Definition DAYISH_REGEX : RegExp :=
  mkRegExp
    (Seq LineStart
         (Group 1 (Alts [Seqs [Star sp; Lit "-"; Star sp; days; WordBoundary];
                         Seqs [Plus sp; days; WordBoundary];
                         Seqs [Lit "-"; Star sp; days; WordBoundary];
                         Seq (Lit "d") WordBoundary;
                         Seq (Lit "d") sp])))
    false.

(** [/\b(top|first|last|limit)\s*$/] *)
Definition COUNT_LEFT_TOP : RegExp :=
  mkRegExp
    (Seqs [WordBoundary;
           Group 1 (Alts [Word "top"; Word "first"; Word "last"; Word "limit"]);
           Star sp; LineEnd])
    false.

(** [/\b(show|list|display|get|give|find)\s*$/] *)
Definition COUNT_LEFT_SHOW : RegExp :=
  mkRegExp
    (Seqs [WordBoundary;
           Group 1 (Alts [Word "show"; Word "list"; Word "display"; Word "get";
                          Word "give"; Word "find"]);
           Star sp; LineEnd])
    false.

Definition plural (w : string) : regex := Seq (Word w) (Opt (Lit "s")).

(** [/^\s*(inspections?|locos?|locomotives?|units?|engines?|records?|items?|results?)\b/] *)
Definition COUNT_RIGHT_ITEMS : RegExp :=
  mkRegExp
    (Seqs [LineStart; Star sp;
           Group 1 (Alts [plural "inspection"; plural "loco"; plural "locomotive";
                          plural "unit"; plural "engine"; plural "record";
                          plural "item"; plural "result"]);
           WordBoundary])
    false.

(** [/\b(number\s+of|count\s+of)\s*$/] *)
Definition COUNT_LEFT_NUMBER_OF : RegExp :=
  mkRegExp
    (Seqs [WordBoundary;
           Group 1 (Alt (Seqs [Word "number"; Plus sp; Word "of"])
                        (Seqs [Word "count"; Plus sp; Word "of"]));
           Star sp; LineEnd])
    false.

(** [/\b(due|overdue|inspection|inspections|expiry|expires|expiring|next|credit|out\s*of\s*use|status|upcoming|schedule|scheduled|pending|completed|history)\b/i] *)
Definition DOMAIN_REGEX : RegExp :=
  mkRegExp
    (Seqs [WordBoundary;
           Group 1 (Alts [Word "due"; Word "overdue"; Word "inspection";
                          Word "inspections"; Word "expiry"; Word "expires";
                          Word "expiring"; Word "next"; Word "credit";
                          Seqs [Word "out"; Star sp; Word "of"; Star sp; Word "use"];
                          Word "status"; Word "upcoming"; Word "schedule";
                          Word "scheduled"; Word "pending"; Word "completed";
                          Word "history"]);
           WordBoundary])
    true.

(** The pattern of [afterNum.match], printed here with a blank after each
    star: [/^(\s+[A-Za-z][A-Za-z0-9\-\/]* (?:\s+[A-Za-z0-9][A-Za-z0-9\-\/]* ){0,2})/] *)
Definition AFTER_NUMBER_REGEX : RegExp :=
  mkRegExp
    (Seq LineStart
         (Group 1 (Seqs [Plus sp;
                         Class [Range "A" "Z"; Range "a" "z"];
                         Star (Class modelTail);
                         Rep 0 (Some 2)
                             (Seqs [Plus sp;
                                    Class [Range "A" "Z"; Range "a" "z"; Range "0" "9"];
                                    Star (Class modelTail)])])))
    false.

(** [/[0-9\-\/]/] *)
Definition MODELISH_REGEX : RegExp :=
  mkRegExp (Class [Range "0" "9"; One "-"; One "/"]) false.

(** [/\s+/], the separator of [split]. *)
Definition SPACES_REGEX : RegExp := mkRegExp (Plus sp) false.

(** [/^\d{3,5}\b/] *)
Definition NUMBERED_NAME_REGEX : RegExp :=
  mkRegExp (Seqs [LineStart; Rep 3 (Some 5) digit; WordBoundary]) false.

(** *** Helpers *)

Definition NAME_STOPWORDS : list string :=
  [ (* time words *)
    "DAY"; "DAYS"; "TODAY"; "TOMORROW"; "YESTERDAY";
    "WEEK"; "WEEKS"; "MONTH"; "MONTHS"; "YEAR"; "YEARS";
    (* inspection related *)
    "INSPECTION"; "INSPECTIONS"; "DUE"; "NEXT"; "DONE";
    "COMPLETED"; "PENDING"; "OVERDUE"; "SCHEDULED";
    (* loco keywords *)
    "LOCO"; "LOCOMOTIVE"; "UNIT"; "ENGINE"; "UNITS"; "ENGINES";
    (* polite words *)
    "PLEASE"; "PLS"; "PLZ"; "THANKS"; "THANK"; "THANKYOU";
    (* conjunctions, separators *)
    "WITH"; "AND"; "VS"; "OR"; "COMPARED"; "TO";
    "FOR"; "FROM"; "BY"; "AT"; "ON"; "OF";
    (* common verbs and words *)
    "IN"; "IS"; "ARE"; "WAS"; "WERE"; "BE"; "BEEN";
    "THE"; "A"; "AN"; "THIS"; "THAT"; "THESE"; "THOSE";
    "HOW"; "WHAT"; "WHEN"; "WHERE"; "WHY"; "WHO"; "WHICH";
    "CAN"; "COULD"; "WILL"; "WOULD"; "SHOULD"; "MAY"; "MIGHT";
    "DO"; "DOES"; "DID"; "HAVE"; "HAS"; "HAD";
    "GET"; "FIND"; "SHOW"; "LIST"; "GIVE"; "TELL" ].

(** [arr.indexOf(v) >= 0] *)
Definition includes (arr : list string) (v : string) : bool :=
  List.existsb (String.eqb v) arr.

(** [uniq]: the object [seen], used as a set of strings, is the list of the
    keys set so far; [out] grows at its end.  (The keys met in this program
    are digit strings, 24-digit hexadecimal strings and names holding a
    digit, a hyphen, a slash or a blank: none is the name of a property that
    an object inherits.) *)
Fixpoint uniq_loop (arr out seen : list string) : list string :=
  match arr with
  | [] => out
  | v :: arr' =>
      if negb (includes seen v)
      then uniq_loop arr' (out ++ [v]) (v :: seen)
      else uniq_loop arr' out seen
  end.

Definition uniq (arr : list string) : list string := uniq_loop arr [] [].

Definition nearKeywords (input : string) (start stop window : nat) : bool :=
  let left := start - window in                        (* Math.max(0, start - window) *)
  let right := Nat.min (String.length input) (stop + window) in
  let ctx := Str.toLowerCase (Str.slice input left right) in
  test KEYWORD_REGEX ctx.

Definition isFollowedByDayish (input : string) (stop : nat) : bool :=
  let tail :=
    Str.toLowerCase (Str.slice input stop (Nat.min (String.length input) (stop + 10))) in
  test DAYISH_REGEX tail.

Definition looksLikeYear (n : nat) : bool := (1900 <=? n) && (n <=? 2099).

Definition looksLikeCountNumber (input : string) (start stop : nat) : bool :=
  let left := Str.toLowerCase (Str.slice input (start - 20) start) in
  let right :=
    Str.toLowerCase (Str.slice input stop (Nat.min (String.length input) (stop + 25))) in
  if test COUNT_LEFT_TOP left then true
  else if test COUNT_LEFT_SHOW left && test COUNT_RIGHT_ITEMS right then true
  else if test COUNT_LEFT_NUMBER_OF left then true
  else false.

Definition isStopword (word : string) : bool := includes NAME_STOPWORDS word.

Definition hasDomainContext (input : string) : bool := test DOMAIN_REGEX input.

(** [regex.lastIndex] after a match: [exec] leaves it at the end of the
    match, and [if (m[0] === "") regex.lastIndex++] adds one after an empty
    match. *)
Definition nextLastIndex (m : ExecArray) : nat :=
  if String.eqb (whole m) "" then S (lastEnd m) else lastEnd m.

(** The loop of [forEachMatch], from [regex.lastIndex = lastIndex].  The
    callback's effect on the arrays it closes over is the state [acc]. *)
Fixpoint forEachMatch_loop (A : Type) (fuel : nat) (input : string) (regex : RegExp)
         (cb : A -> ExecArray -> A) (lastIndex : nat) (acc : A) : option A :=
  match fuel with
  | 0 => None
  | S fuel' =>
      match exec regex input lastIndex with
      | None => Some acc
      | Some m => forEachMatch_loop fuel' input regex cb (nextLastIndex m) (cb acc m)
      end
  end.

(** [forEachMatch(input, regex, cb)], run for at most [length input + 2]
    calls of [exec]. *)
Definition forEachMatch (A : Type) (input : string) (regex : RegExp)
           (cb : A -> ExecArray -> A) (acc : A) : option A :=
  forEachMatch_loop (String.length input + 2) input regex cb 0 acc.

(** The matches a scan hands to its callback, in order. *)
Definition allMatches (input : string) (regex : RegExp) : option (list ExecArray) :=
  forEachMatch input regex (fun ms m => ms ++ [m]) [].

Definition bind (A B : Type) (x : option A) (f : A -> option B) : option B :=
  match x with
  | Some a => f a
  | None => None
  end.

(** *** extractAssetIds *)

Record AssetAcc : Type := mkAssetAcc {
  acc_assetIds : list string;
  acc_assetMatches : list RawMatch
}.

Definition assetId_cb (st : AssetAcc) (m : ExecArray) : AssetAcc :=
  let text := whole m in
  let start := index m in
  let stop := start + String.length text in
  mkAssetAcc (acc_assetIds st ++ [Str.toLowerCase text])
             (acc_assetMatches st ++ [mkRaw assetIdKind text start stop]).

(** The scan of [extractAssetIds], up to the two arrays it fills. *)
Definition assetScan (input : string) : option AssetAcc :=
  forEachMatch input ASSET_ID_REGEX_GLOBAL assetId_cb (mkAssetAcc [] []).

Definition extractAssetIds (input : string) : option (list string * list RawMatch) :=
  bind (assetScan input)
       (fun st => Some (uniq (acc_assetIds st), acc_assetMatches st)).

(** *** extractLocoNos *)

Record LocoAcc : Type := mkLocoAcc {
  acc_locoNos : list string;
  acc_locoMatches : list RawMatch;
  trustedFromKeyword : list string
}.

Record Candidate : Type := mkCandidate {
  numText : string;
  cand_start : nat;
  cand_stop : nat;
  score : nat
}.

(** The callback of Phase 1a and of Phase 1b. *)
Definition keyword_cb (input : string) (st : LocoAcc) (m : ExecArray) : LocoAcc :=
  let numText := group input m 2 in
  let full := whole m in
  let fullStart := index m in
  let numOffset := Str.lastIndexOf (Str.toLowerCase full) (Str.toLowerCase numText) in
  let start := fullStart + match numOffset with Some k => k | None => 0 end in
  let stop := start + String.length numText in
  if negb (includes (acc_locoNos st) numText)
  then mkLocoAcc (acc_locoNos st ++ [numText])
                 (acc_locoMatches st ++ [mkRaw locoNoKind numText start stop])
                 (numText :: trustedFromKeyword st)
  else st.

(** The score of a generic candidate. *)
Definition candidateScore (input : string) (hasDomain : bool) (start stop : nat) : nat :=
  let near := nearKeywords input start stop 20 in
  let before := Str.slice input (start - 2) start in
  (if near then 2 else 0)
  + (if Str.existsb (Ascii.eqb "#") before then 1 else 0)
  + (if hasDomain then 1 else 0).

(** The callback of Phase 2: [locoNos] is the array as Phase 1 left it. *)
Definition generic_cb (input : string) (hasDomain : bool) (locoNos : list string)
           (candidates : list Candidate) (m : ExecArray) : list Candidate :=
  let numText := whole m in
  let start := index m in
  let stop := start + String.length numText in
  if includes locoNos numText then candidates
  else if isFollowedByDayish input stop then candidates
  else if looksLikeCountNumber input start stop then candidates
  else
    let num := Str.toNumber numText in
    if looksLikeYear num then candidates
    else candidates ++ [mkCandidate numText start stop (candidateScore input hasDomain start stop)].

(** [{ kind: "locoNo", text: c.numText, start: c.start, end: c.end }] *)
Definition candidateMatch (c : Candidate) : RawMatch :=
  mkRaw locoNoKind (numText c) (cand_start c) (cand_stop c).

Definition pushCandidate (st : LocoAcc) (c : Candidate) : LocoAcc :=
  mkLocoAcc (acc_locoNos st ++ [numText c])
            (acc_locoMatches st ++ [candidateMatch c])
            (trustedFromKeyword st).

Definition scored (c : Candidate) : bool := 1 <=? score c.

Definition pushIfScored (st : LocoAcc) (c : Candidate) : LocoAcc :=
  if scored c then pushCandidate st c else st.

(** The [if (candidates.length === 1 && ...) ... else for ...] at the end of
    [extractLocoNos]. *)
Definition acceptCandidates (st : LocoAcc) (candidates : list Candidate) : LocoAcc :=
  match candidates with
  | c :: _ =>
      if (List.length candidates =? 1) && scored c
      then pushCandidate st c
      else fold_left pushIfScored candidates st
  | [] => fold_left pushIfScored candidates st
  end.

(** Phase 1a, then Phase 1b. *)
Definition keywordPhases (input : string) : option LocoAcc :=
  bind (forEachMatch input LOCO_KEYWORD_NUMBER_GLOBAL (keyword_cb input) (mkLocoAcc [] [] []))
       (fun st1a =>
          forEachMatch input LOCO_KEYWORD_NUMBER_CONCAT_GLOBAL (keyword_cb input) st1a).

(** Phase 2 up to the array [candidates]. *)
Definition genericCandidates (input : string) (locoNos : list string)
  : option (list Candidate) :=
  let hasDomain := hasDomainContext input in
  forEachMatch input LOCO_NUMBER_GLOBAL (generic_cb input hasDomain locoNos) [].

Definition extractLocoNos (input : string) : option (list string * list RawMatch) :=
  bind (keywordPhases input) (fun st1 =>
  bind (genericCandidates input (acc_locoNos st1)) (fun candidates =>
  let st := acceptCandidates st1 candidates in
  Some (uniq (acc_locoNos st), acc_locoMatches st))).

(** *** extractNames *)

Record NameAcc : Type := mkNameAcc {
  acc_names : list string;
  acc_nameMatches : list RawMatch
}.

Definition pushName (st : NameAcc) (nm : string) (raw : RawMatch) : NameAcc :=
  mkNameAcc (acc_names st ++ [nm]) (acc_nameMatches st ++ [raw]).

(** The test for a model-looking token:
    [/[0-9\-\/]/.test(t) || (t.length >= 2 && t === t.toUpperCase())]. *)
Definition modelish (t : string) : bool :=
  test MODELISH_REGEX t
  || ((2 <=? String.length t) && String.eqb t (Str.toUpperCase t)).

(** Phase 0: no-space names. *)
Definition nospace_cb (input : string) (st : NameAcc) (m : ExecArray) : NameAcc :=
  let numPart := group input m 1 in
  let modelPart := group input m 2 in
  let start := index m in
  let fullText := whole m in
  let stop := start + String.length fullText in
  if isStopword (Str.toUpperCase modelPart) then st
  else if negb (modelish modelPart) then st
  else
    let normalizedPhrase := (numPart ++ " " ++ modelPart)%string in
    if includes (acc_names st) normalizedPhrase then st
    else pushName st normalizedPhrase (mkRaw nameKind fullText start stop).

(** [s.split(re)] after RegExp.prototype[Symbol.split], without captures:
    [p] is the start of the piece being cut and [q] the index at which the
    separator is tried.  Every step moves [q] on or, after an empty
    separator found past [p], resets [p] to [q]; [2 * size + 2] steps
    reach the end. *)
Fixpoint split_loop (fuel : nat) (re : RegExp) (s : string) (p q : nat)
         (out : list string) : list string :=
  match fuel with
  | 0 => out ++ [Str.slice s p (String.length s)]
  | S fuel' =>
      if q <? String.length s then
        match matchAt (flagI re) s (source re) q with
        | None => split_loop fuel' re s p (S q) out
        | Some y =>
            let e := Nat.min (endIndex y) (String.length s) in
            if e =? p then split_loop fuel' re s p (S q) out
            else split_loop fuel' re s e e (out ++ [Str.slice s p q])
        end
      else out ++ [Str.slice s p (String.length s)]
  end.

Definition split (re : RegExp) (s : string) : list string :=
  match s with
  | EmptyString =>
      match matchAt (flagI re) s (source re) 0 with
      | Some _ => []
      | None => [s]
      end
  | _ => split_loop (2 * String.length s + 2) re s 0 0 []
  end.

(** [tokens.join(" ")] *)
Definition join (tokens : list string) : string := String.concat " " tokens.

(** The first index [i >= from] with [isStopword(tokens[i].toUpperCase())]. *)
Fixpoint findStopword (tokens : list string) (i : nat) : option nat :=
  match tokens with
  | [] => None
  | t :: tokens' =>
      if isStopword (Str.toUpperCase t) then Some i else findStopword tokens' (S i)
  end.

(** [while (tokens.length > 1 && isStopword(last.toUpperCase())) tokens.pop()],
    on the reversed array. *)
Fixpoint popStopwords_rev (rtokens : list string) : list string :=
  match rtokens with
  | t :: ((_ :: _) as rest) =>
      if isStopword (Str.toUpperCase t) then popStopwords_rev rest else rtokens
  | _ => rtokens
  end.

Definition popStopwords (tokens : list string) : list string :=
  List.rev (popStopwords_rev (List.rev tokens)).

(** Phase 1: a number and the words after it. *)
Definition phrase_cb (input : string) (st : NameAcc) (m : ExecArray) : NameAcc :=
  let numText := whole m in
  let start := index m in
  let afterNum := Str.sliceFrom input (start + String.length numText) in
  match exec AFTER_NUMBER_REGEX afterNum 0 with
  | None => st
  | Some afterMatch =>
      let afterText := group afterNum afterMatch 1 in
      let tokens := split SPACES_REGEX (Str.trim (numText ++ afterText)%string) in
      let second := Str.toUpperCase (nth 1 tokens "") in
      if isStopword second then st
      else
        let separatorIndex := findStopword (tl tokens) 1 in
        let tokens := match separatorIndex with
                      | Some i => firstn i tokens
                      | None => tokens
                      end in
        let hasModelish := List.existsb modelish (tl tokens) in
        if negb hasModelish then st
        else
          let tokens := popStopwords tokens in
          if List.length tokens <? 2 then st
          else
            let phrase := join tokens in
            let stop := start + String.length phrase in
            if includes (acc_names st) phrase then st
            else pushName st phrase (mkRaw nameKind phrase start stop)
  end.

(** [names[i].indexOf(token) >= 0] *)
Definition contains (s token : string) : bool :=
  match Str.indexOf s token with
  | Some _ => true
  | None => false
  end.

(** Phase 2: model tokens near a loco keyword. *)
Definition model_cb (input : string) (st : NameAcc) (m : ExecArray) : NameAcc :=
  let token := whole m in
  let start := index m in
  let stop := start + String.length token in
  let upper := Str.toUpperCase token in
  if isStopword upper then st
  else if negb (test MODELISH_REGEX token) then st
  else if negb (nearKeywords input start stop 25) then st
  else if List.existsb (fun nm => contains nm token) (acc_names st) then st
  else pushName st token (mkRaw nameKind token start stop).

(** Phases 0, 1 and 2 of [extractNames], up to the two arrays they fill. *)
Definition namePhases (input : string) : option NameAcc :=
  bind (forEachMatch input LOCO_NAME_NOSPACE_GLOBAL (nospace_cb input) (mkNameAcc [] []))
  (fun st0 =>
  bind (forEachMatch input LOCO_NUMBER_START_GLOBAL (phrase_cb input) st0)
  (fun st1 =>
  forEachMatch input MODEL_TOKEN_GLOBAL (model_cb input) st1)).

Definition extractNames (input : string) : option (list string * list RawMatch) :=
  bind (namePhases input)
       (fun st => Some (uniq (acc_names st), acc_nameMatches st)).

(** The length of the pieces of an array of tokens, each counted with one
    separator: one more than the length of [join] on a non-empty array. *)
Fixpoint spread (tokens : list string) : nat :=
  match tokens with
  | [] => 0
  | t :: tokens' => S (String.length t + spread tokens')
  end.

(** *** computeConfidence and extractLocoQuery *)

Definition computeConfidence (assetIds locoNos names : list string) : Confidence :=
  if 0 <? List.length assetIds then high
  else if 0 <? List.length locoNos then medium
  else if 0 <? List.length names then
    let hasNumberedName := List.existsb (test NUMBERED_NAME_REGEX) names in
    if hasNumberedName then medium else low
  else low.

(** [arr.sort((a, b) => a.start - b.start)]: the sort of an array is stable,
    so the result is the one of insertion from the right, each element put
    before the first one that does not start earlier. *)
Fixpoint insertByStart (x : RawMatch) (l : list RawMatch) : list RawMatch :=
  match l with
  | [] => [x]
  | y :: l' => if start x <=? start y then x :: l else y :: insertByStart x l'
  end.

Definition sortByStart (l : list RawMatch) : list RawMatch :=
  fold_right insertByStart [] l.

Definition extractLocoQuery (input : string) : option LocoQuery :=
  bind (extractAssetIds input) (fun '(assetIds, assetMatches) =>
  bind (extractLocoNos input) (fun '(locoNos, locoMatches) =>
  bind (extractNames input) (fun '(names, nameMatches) =>
  let rawMatches := sortByStart (assetMatches ++ locoMatches ++ nameMatches) in
  let confidence := computeConfidence assetIds locoNos names in
  Some (mkQuery input assetIds locoNos names
                (hd_error assetIds) (hd_error locoNos) (hd_error names)
                rawMatches confidence)))).

End Loco.


(** ** The statements of the specification, in its own words *)

Module Spec.

Import Loco.

(** "a name beginning with a 3-5 digit number": for some [k] from 3 to 5
    the first [k] characters are digits and no word character follows
    them (the word boundary after a digit). *)
Definition digitsThenBoundary (nm : string) (k : nat) : bool :=
  (k <=? String.length nm)
  && Str.forallb Chars.isDigit (substring 0 k nm)
  && negb (RegExp.isWordCharAt nm k).

Definition beginsWithNumber (nm : string) : bool :=
  List.existsb (digitsThenBoundary nm) [3; 4; 5].

(** "assetIds non-empty => high; else locoNos non-empty => medium; else a
    name beginning with a 3-5 digit number => medium, else low". *)
Definition confidenceOf (assetIds locoNos names : list string) : Confidence :=
  match assetIds, locoNos with
  | _ :: _, _ => high
  | [], _ :: _ => medium
  | [], [] => if List.existsb beginsWithNumber names then medium else low
  end.

(** "+1 if immediately preceded by #": the character just before the
    number is [#]. *)
Definition hashImmediatelyBefore (input : string) (start : nat) : bool :=
  match start with
  | 0 => false
  | S p => match String.get p input with
           | Some c => Ascii.eqb "#" c
           | None => false
           end
  end.

(** The score as the specification words it. *)
Definition claimedScore (input : string) (start stop : nat) : nat :=
  (if nearKeywords input start stop 20 then 2 else 0)
  + (if hashImmediatelyBefore input start then 1 else 0)
  + (if hasDomainContext input then 1 else 0).

(** The score with the [#] looked for in the two characters before the
    number. *)
Definition hashWithinTwoBefore (input : string) (start : nat) : bool :=
  hashImmediatelyBefore input start || hashImmediatelyBefore input (start - 1).

Definition amendedScore (input : string) (start stop : nat) : nat :=
  (if nearKeywords input start stop 20 then 2 else 0)
  + (if hashWithinTwoBefore input start then 1 else 0)
  + (if hasDomainContext input then 1 else 0).

(** The claim on the generic pass as the specification words it: the
    numbers it adds are those of the candidates whose claimed score is at
    least 1. *)
Definition genericPassAsStated (input : string) : Prop :=
  forall st1 cands,
    keywordPhases input = Some st1 ->
    genericCandidates input (acc_locoNos st1) = Some cands ->
    acc_locoNos (acceptCandidates st1 cands)
    = acc_locoNos st1
      ++ List.map numText
           (List.filter (fun c => 1 <=? claimedScore input (cand_start c) (cand_stop c))
                        cands).

(** What holds of a candidate that reached the array [candidates]: Phase 1
    had not taken its number, none of the three rejections applied, and its
    score is the one computed at its place. *)
Record Surviving (input : string) (locoNos : list string) (c : Candidate) : Prop :=
  mkSurviving {
    sv_new : includes locoNos (numText c) = false;
    sv_day : isFollowedByDayish input (cand_stop c) = false;
    sv_count : looksLikeCountNumber input (cand_start c) (cand_stop c) = false;
    sv_year : looksLikeYear (Str.toNumber (numText c)) = false;
    sv_score : score c
               = candidateScore input (hasDomainContext input) (cand_start c) (cand_stop c)
  }.

(** "immediately followed by a day-suffix pattern": what follows the number
    starts, in letters of either case, with one of these words, and the word
    ends there. *)
Definition daySuffixes : list string := ["-day"; "-days"; " day"; " days"; "d"].

Definition startsWithWord (tail w : string) : bool :=
  prefix w tail && negb (RegExp.isWordCharAt tail (String.length w)).

Definition followedByDaySuffix (input : string) (stop : nat) : bool :=
  List.existsb (startsWithWord (Str.toLowerCase (Str.sliceFrom input stop))) daySuffixes.

(** "start < end, indices are valid offsets into the original input". *)
Definition inBounds (input : string) (r : RawMatch) : Prop :=
  start r < stop r /\ stop r <= String.length input.

(** "unique, order = first-seen": each value stays where it first occurs
    and its later occurrences are dropped. *)
Fixpoint firstOccurrences (arr : list string) : list string :=
  match arr with
  | [] => []
  | v :: arr' => v :: List.filter (fun w => negb (String.eqb v w)) (firstOccurrences arr')
  end.

Definition candidateInBounds (input : string) (c : Candidate) : Prop :=
  inBounds input (candidateMatch c).

(** "sorted ascending by start offset". *)
Definition startsAscend (a b : RawMatch) : Prop := start a <= start b.

End Spec.

(** ** The resolver *)

Module Resolver.

Import Loco.

(** Modelled from the spec: the resolver has no implementation in the
    repository; resolverStrategy.md (section 4, rules A to D) and section
    4.2 of the specification describe it.  A snapshot record carries the
    two fields the rules match on. *)
Record LocoRecord : Type := mkRecord {
  rec_name : string;
  rec_locoNo : string
}.

(** Modelled from the spec: [assetData], the map from assetId to record,
    as the list of its entries. *)
Definition Snapshot : Type := list (string * LocoRecord).

(** Modelled from the spec: the resolver context flag. *)
Record ResolverContext : Type := mkContext {
  dashboardDataFresh : bool
}.

(** Modelled from the spec: the follow-up of a miss, by freshness. *)
Inductive Followup : Type :=
| RecommendRefresh      (* stale snapshot: recommend getDashBoardData() *)
| AskToRecheck.         (* fresh data: not in the database *)

(** Modelled from the spec: the outcome of a resolution. *)
Inductive ResolutionOutcome : Type :=
| Resolved (assetId : string) (rec : LocoRecord)
| Ambiguous (candidates : list (string * LocoRecord))
| NeedsFollowup (f : Followup).

(** Modelled from the spec: "check direct key membership in snapshot". *)
Fixpoint lookupAsset (snapshot : Snapshot) (assetId : string) : option LocoRecord :=
  match snapshot with
  | [] => None
  | (k, r) :: snapshot' =>
      if String.eqb k assetId then Some r else lookupAsset snapshot' assetId
  end.

(** Modelled from the spec: the entries hit by rule A, one per extracted
    assetId that is a key of the snapshot ([resolve] passes the distinct
    assetIds). *)
Fixpoint hitsByAssetId (snapshot : Snapshot) (assetIds : list string)
  : list (string * LocoRecord) :=
  match assetIds with
  | [] => []
  | a :: assetIds' =>
      match lookupAsset snapshot a with
      | Some r => (a, r) :: hitsByAssetId snapshot assetIds'
      | None => hitsByAssetId snapshot assetIds'
      end
  end.

(** Modelled from the spec: [normalizeLocoNo(x) = String(x).trim()] and
    [normalizeName(x) = String(x).trim().toLowerCase()]. *)
Definition normalizeLocoNo (x : string) : string := Str.trim x.
Definition normalizeName (x : string) : string := Str.toLowerCase (Str.trim x).

(** Modelled from the spec: the entries whose field, normalized, equals one
    of the normalized candidates (rules B and C). *)
Definition hitsByField (norm : string -> string) (field : LocoRecord -> string)
           (snapshot : Snapshot) (candidates : list string)
  : list (string * LocoRecord) :=
  List.filter
    (fun entry => List.existsb (fun c => String.eqb (norm (field (snd entry))) (norm c))
                               candidates)
    snapshot.

(** Modelled from the spec: exactly one hit resolves, several are surfaced
    as at most five candidates, none falls through to the next rule. *)
Definition decide (hits : list (string * LocoRecord)) (next : ResolutionOutcome)
  : ResolutionOutcome :=
  match hits with
  | [] => next
  | [(a, r)] => Resolved a r
  | _ => Ambiguous (firstn 5 hits)
  end.

(** Modelled from the spec: rules A, B and C in strict priority order; rule
    D (fuzzy names) is not implemented; a miss asks for a refresh on a stale
    snapshot and for a re-check on fresh data. *)
Definition resolve (extraction : LocoQuery) (snapshot : Snapshot)
           (context : ResolverContext) : ResolutionOutcome :=
  decide (hitsByAssetId snapshot (uniq (assetIds extraction)))
    (decide (hitsByField normalizeLocoNo rec_locoNo snapshot (locoNos extraction))
       (decide (hitsByField normalizeName rec_name snapshot (names extraction))
          (NeedsFollowup (if dashboardDataFresh context
                          then AskToRecheck else RecommendRefresh)))).

End Resolver.

(** ** The compiled module

    [extractLocoQuery.js] is the output of the TypeScript compiler for an
    earlier state of [extractLocoQuery.ts].  Two of its functions differ from
    those of the source in a way that can be stated for every input. *)

Module Legacy.

Import RegExp Loco.

(** [/^(\s*-\s*days?\b|\s+days?\b|-\s*days?\b)/] *)
Definition DAYISH_REGEX : RegExp :=
  mkRegExp
    (Seq LineStart
         (Group 1 (Alts [Seqs [Star sp; Lit "-"; Star sp; days; WordBoundary];
                         Seqs [Plus sp; days; WordBoundary];
                         Seqs [Lit "-"; Star sp; days; WordBoundary]])))
    false.

Definition isFollowedByDayish (input : string) (stop : nat) : bool :=
  let tail :=
    Str.toLowerCase (Str.slice input stop (Nat.min (String.length input) (stop + 10))) in
  test DAYISH_REGEX tail.

Definition computeConfidence (assetIds locoNos names : list string) : Confidence :=
  if 0 <? List.length assetIds then high
  else if (0 <? List.length locoNos) || (0 <? List.length names) then medium
  else low.

End Legacy.

(** ** What the results look like

    The predicates in which the properties of the results are stated. *)

Module Shape.

Import RegExp Loco.

(** A lower-case hexadecimal digit. *)
Definition isHexLower (c : ascii) : bool := Chars.between "a" "f" c || Chars.isDigit c.

(** A hexadecimal digit, in either case. *)
Definition isHex (c : ascii) : bool :=
  Chars.between "a" "f" c || Chars.between "A" "F" c || Chars.isDigit c.

(** An asset id as [assetIds] holds it: 24 lower-case hexadecimal digits. *)
Definition isAssetId (a : string) : bool :=
  (String.length a =? 24) && Str.forallb isHexLower a.

(** A loco number as [locoNos] holds it: 3 to 5 decimal digits. *)
Definition isLocoNo (n : string) : bool :=
  (3 <=? String.length n) && (String.length n <=? 5) && Str.forallb Chars.isDigit n.

(** The text of a raw match stands in the input at its offsets. *)
Definition sliceOfInput (input : string) (r : RawMatch) : Prop :=
  text r = Str.slice input (start r) (stop r).

(** A raw match as [extractAssetIds] pushes it. *)
Record AssetMatch (input : string) (r : RawMatch) : Prop := mkAssetMatch {
  am_kind : kind r = assetIdKind;
  am_stop : stop r = start r + 24;
  am_text : sliceOfInput input r;
  am_id : isAssetId (Str.toLowerCase (text r)) = true
}.

(** A raw match as [extractLocoNos] pushes it. *)
Record LocoMatch (input : string) (r : RawMatch) : Prop := mkLocoMatch {
  lm_kind : kind r = locoNoKind;
  lm_text : sliceOfInput input r;
  lm_no : isLocoNo (text r) = true
}.

(** The two arrays of [extractNames] grow together, and [names] without
    repetition. *)
Record NamesInv (st : NameAcc) : Prop := mkNamesInv {
  ni_kind : Forall (fun r => kind r = nameKind) (acc_nameMatches st);
  ni_length : List.length (acc_names st) = List.length (acc_nameMatches st);
  ni_nodup : NoDup (acc_names st)
}.

(** The number of raw matches of a kind. *)
Definition isKind (k : RawMatchKind) (r : RawMatch) : bool :=
  match k, kind r with
  | assetIdKind, assetIdKind | locoNoKind, locoNoKind | nameKind, nameKind => true
  | _, _ => false
  end.

Definition countKind (k : RawMatchKind) (l : list RawMatch) : nat :=
  List.length (List.filter (isKind k) l).

(** Whether a raw match starts at offset [s]. *)
Definition startsAt (s : nat) (r : RawMatch) : bool := start r =? s.

(** The second match of a scan comes after the first: it starts at or after
    the end of the first, and further right. *)
Definition follows (m1 m2 : ExecArray) : Prop :=
  lastEnd m1 <= index m2 /\ index m1 < index m2.

(** The [n] characters from [i] on exist and satisfy [p]. *)
Fixpoint allAt (p : ascii -> bool) (input : string) (i n : nat) : bool :=
  match n with
  | 0 => true
  | S n' =>
      match String.get i input with
      | Some ch => p ch && allAt p input (S i) n'
      | None => false
      end
  end.

(** A word character stands just before [i]. *)
Definition wordCharBefore (input : string) (i : nat) : bool :=
  match i with
  | 0 => false
  | S p => isWordCharAt input p
  end.

(** An asset id stands at [i]: 24 hexadecimal digits, with no word
    character just before them and none just after. *)
Definition assetTokenAt (input : string) (i : nat) : bool :=
  allAt isHex input i 24
  && negb (wordCharBefore input i)
  && negb (isWordCharAt input (i + 24)).

(** A standalone number stands at [i]: [k] decimal digits, 3 to 5 of them,
    with no word character just before them and none just after. *)
Definition digitTokenAt (input : string) (i k : nat) : bool :=
  (3 <=? k) && (k <=? 5)
  && allAt Chars.isDigit input i k
  && negb (wordCharBefore input i)
  && negb (isWordCharAt input (i + k)).

(** The pattern ends with [\b]. *)
Fixpoint endsWithBoundary (r : regex) : bool :=
  match r with
  | WordBoundary => true
  | Seq _ r2 => endsWithBoundary r2
  | _ => false
  end.

(** The pattern consumes no character. *)
Definition zeroWidth (r : regex) : bool :=
  match maxlen r with
  | Some 0 => true
  | _ => false
  end.

(** Group [n] is the last thing of the pattern that consumes characters:
    every match ends where its group [n] ends. *)
Fixpoint closes (r : regex) (n : nat) : bool :=
  match r with
  | Group k _ => k =? n
  | Seq r1 r2 => closes r2 n || (closes r1 n && zeroWidth r2 && negb (mentions r2 n))
  | _ => false
  end.

(** A character of a model token after its first: [A-Z0-9\-\/]. *)
Definition isModelChar (c : ascii) : bool :=
  Chars.isUpperAZ c || Chars.isDigit c || Ascii.eqb c "-" || Ascii.eqb c "/".

(** A digit, a hyphen or a slash: what makes a token look like a model. *)
Definition isModelMark (c : ascii) : bool :=
  Chars.isDigit c || Ascii.eqb c "-" || Ascii.eqb c "/".

(** A bare model token, as Phase 2 of [extractNames] keeps it: a capital
    letter, then 2 to 15 capitals, digits, hyphens or slashes, with a digit,
    a hyphen or a slash among them. *)
Definition isModelToken (nm : string) : bool :=
  match nm with
  | String c rest =>
      Chars.isUpperAZ c
      && (2 <=? String.length rest) && (String.length rest <=? 15)
      && Str.forallb isModelChar rest
      && Str.existsb isModelMark rest
  | EmptyString => false
  end.

(** The names of an input: each begins with a number, in the sense of
    [computeConfidence], or is a bare model token. *)
Definition NameShape (nm : string) : Prop :=
  Spec.beginsWithNumber nm = true \/ isModelToken nm = true.

(** The order of the three levels of confidence. *)
Definition rank (c : Confidence) : nat :=
  match c with
  | low => 0
  | medium => 1
  | high => 2
  end.

(** Whether a run of the matcher gave a match. *)
Definition succeeds (o : option MatchState) : bool :=
  match o with
  | Some _ => true
  | None => false
  end.

(** A number written as a year from 1900 to 2099: 19 or 20 and two more
    digits, after at most one zero (the numbers here have 3 to 5 digits). *)
Definition isYearText (t : string) : bool :=
  ((String.length t =? 4) && (prefix "19" t || prefix "20" t))
  || ((String.length t =? 5) && (prefix "019" t || prefix "020" t)).

(** The value of a digit. *)
Definition digitValue (c : ascii) : nat := N.to_nat (Chars.code c) - 48.

(** [w] stands in [s] at [p]. *)
Fixpoint occursAt (w s : string) (p : nat) : bool :=
  match w with
  | EmptyString => true
  | String a w' =>
      match String.get p s with
      | Some ch => Ascii.eqb a ch && occursAt w' s (S p)
      | None => false
      end
  end.

(** [w] stands in [s] at [p] as a word of its own: no word character just
    before it and none just after. *)
Definition wordAt (w s : string) (p : nat) : bool :=
  occursAt w s p
  && negb (wordCharBefore s p)
  && negb (isWordCharAt s (p + String.length w)).

(** The loco keywords of [nearKeywords]. *)
Definition KEYWORDS : list string := ["loco"; "locomotive"; "unit"; "engine"].

(** The single words of [hasDomainContext]. *)
Definition DOMAIN_WORDS : list string :=
  ["due"; "overdue"; "inspection"; "inspections"; "expiry"; "expires"; "expiring";
   "next"; "credit"; "status"; "upcoming"; "schedule"; "scheduled"; "pending";
   "completed"; "history"].

(** [out of use] stands in [s] at [p] as words of their own, with [a] and
    [b] white-space characters between them (none, one or more). *)
Definition outOfUseAt (s : string) (p a b : nat) : bool :=
  occursAt "out" s p
  && allAt Chars.isSpace s (p + 3) a
  && occursAt "of" s (p + 3 + a)
  && allAt Chars.isSpace s (p + 3 + a + 2) b
  && occursAt "use" s (p + 3 + a + 2 + b)
  && negb (wordCharBefore s p)
  && negb (isWordCharAt s (p + 3 + a + 2 + b + 3)).

(** The words of [looksLikeCountNumber]. *)
Definition COUNT_WORDS : list string := ["top"; "first"; "last"; "limit"].
Definition SHOW_WORDS : list string := ["show"; "list"; "display"; "get"; "give"; "find"].
Definition OF_WORDS : list string := ["number"; "count"].
Definition ITEM_WORDS : list string :=
  ["inspection"; "loco"; "locomotive"; "unit"; "engine"; "record"; "item"; "result"].

(** From [p] to the end, [s] holds white space only. *)
Definition spacesToEnd (s : string) (p : nat) : bool :=
  (p <=? String.length s) && allAt Chars.isSpace s p (String.length s - p).

(** [s] ends with the word [w], which starts at [p] with no word character
    before it, and with nothing but white space after it. *)
Definition endsWithWordAt (w s : string) (p : nat) : bool :=
  occursAt w s p && negb (wordCharBefore s p) && spacesToEnd s (p + String.length w).

(** [s] ends with [w], [a + 1] white-space characters and [of], then white
    space only. *)
Definition endsWithOfAt (w s : string) (p a : nat) : bool :=
  occursAt w s p
  && negb (wordCharBefore s p)
  && allAt Chars.isSpace s (p + String.length w) (S a)
  && occursAt "of" s (p + String.length w + S a)
  && spacesToEnd s (p + String.length w + S a + 2).

(** [s] starts with [a] white-space characters and the word [w], after
    which no word character stands. *)
Definition startsWithWordAt (w s : string) (a : nat) : bool :=
  allAt Chars.isSpace s 0 a
  && occursAt w s a
  && negb (isWordCharAt s (a + String.length w)).

(** The two spellings of the day suffix. *)
Definition DAY_WORDS : list string := ["day"; "days"].

(** [s] starts with [a] white-space characters, a hyphen, [b] white-space
    characters and the word [w], after which no word character stands. *)
Definition dashWordAt (w s : string) (a b : nat) : bool :=
  allAt Chars.isSpace s 0 a
  && occursAt "-" s a
  && allAt Chars.isSpace s (a + 1) b
  && occursAt w s (a + 1 + b)
  && negb (isWordCharAt s (a + 1 + b + String.length w)).

(** No white space. *)
Definition notSpace (c : ascii) : bool := negb (Chars.isSpace c).

(** A piece of text that is not empty and has no white space in it. *)
Definition isPlainWord (t : string) : bool :=
  negb (String.eqb t "") && Str.forallb notSpace t.

(** A word of a name: a plain word that is no stop word when put in upper
    case. *)
Definition isNameWord (t : string) : bool :=
  isPlainWord t && negb (isStopword (Str.toUpperCase t)).

(** A name made of such words, with one blank between two of them. *)
Definition NameWords (nm : string) : Prop :=
  exists tokens,
    tokens <> [] /\ nm = join tokens /\ Forall (fun t => isNameWord t = true) tokens.

(** The text with its capital letters A to Z made small and nothing else
    changed: the letters the [i] flag of a pattern sets equal. *)
Definition lowerAZ (s : string) : string := Str.map Chars.toLowerAZ s.

End Shape.

(** * Properties *)

(** ** Strings *)

Module StrFacts.

Lemma length_append (s t : string) :
  String.length (s ++ t) = String.length s + String.length t.
Proof. induction s as [|c s IH]; simpl; [reflexivity | now rewrite IH]. Qed.

Lemma length_map (f : ascii -> ascii) (s : string) :
  String.length (Str.map f s) = String.length s.
Proof. induction s as [|c s IH]; simpl; [reflexivity | now rewrite IH]. Qed.

Lemma get_lt (s : string) : forall i c, String.get i s = Some c -> i < String.length s.
Proof.
  induction s as [|a s IH]; intros i c H; simpl in *; [discriminate|].
  destruct i as [|i]; [lia|]. apply IH in H. lia.
Qed.


Lemma length_substring_le (s : string) : forall n m, String.length (substring n m s) <= m.
Proof.
  induction s as [|a s IH]; intros n m.
  - destruct n, m; simpl; lia.
  - destruct n as [|n]; simpl.
    + destruct m as [|m]; simpl; [lia|]. specialize (IH 0 m). lia.
    + apply IH.
Qed.

Lemma length_substring (s : string) :
  forall n m, n + m <= String.length s -> String.length (substring n m s) = m.
Proof.
  induction s as [|a s IH]; intros n m H; simpl in H.
  - assert (n = 0) by lia. assert (m = 0) by lia. subst. reflexivity.
  - destruct n as [|n]; simpl.
    + destruct m as [|m]; simpl; [reflexivity|]. rewrite IH; [reflexivity | lia].
    + apply IH. lia.
Qed.

Lemma length_slice (s : string) (a b : nat) :
  b <= String.length s -> String.length (Str.slice s a b) = b - a.
Proof.
  intros H. unfold Str.slice.
  destruct (Nat.le_gt_cases a b) as [Hab|Hab].
  - apply length_substring. lia.
  - replace (b - a) with 0 by lia.
    pose proof (length_substring_le s a 0). lia.
Qed.

Lemma length_slice_le (s : string) (a b : nat) :
  String.length (Str.slice s a b) <= b - a.
Proof. apply length_substring_le. Qed.

Lemma length_sliceFrom (s : string) (a : nat) :
  String.length (Str.sliceFrom s a) = String.length s - a.
Proof.
  unfold Str.sliceFrom.
  destruct (Nat.le_gt_cases a (String.length s)) as [H|H].
  - apply length_substring. lia.
  - replace (String.length s - a) with 0 by lia.
    pose proof (length_substring_le s a 0). lia.
Qed.

Lemma prefix_length (t s : string) :
  prefix t s = true -> String.length t <= String.length s.
Proof.
  revert s. induction t as [|a t IH]; intros s H; [simpl; lia|].
  destruct s as [|b s]; simpl in H; [discriminate H|].
  destruct (ascii_dec a b); [|discriminate H]. apply IH in H. simpl. lia.
Qed.

Lemma lastIndexOf_from_bound (s t : string) :
  forall i k, i <= String.length s ->
              Str.lastIndexOf_from s t i = Some k ->
              k + String.length t <= String.length s.
Proof.
  induction i as [|i IH]; intros k Hi H; simpl in H.
  - destruct (prefix t (Str.sliceFrom s 0)) eqn:E; [|discriminate].
    inversion H; subst. apply prefix_length in E.
    rewrite length_sliceFrom in E. lia.
  - destruct (prefix t (Str.sliceFrom s (S i))) eqn:E.
    + inversion H; subst. apply prefix_length in E.
      rewrite length_sliceFrom in E. lia.
    + apply IH; [lia | assumption].
Qed.

Lemma lastIndexOf_bound (s t : string) (k : nat) :
  Str.lastIndexOf s t = Some k -> k + String.length t <= String.length s.
Proof. apply lastIndexOf_from_bound. lia. Qed.

Lemma string_eqb_empty (s : string) :
  String.eqb s "" = true <-> String.length s = 0.
Proof.
  destruct s; simpl; split; intros H; try reflexivity; discriminate H.
Qed.

End StrFacts.

(** ** The matcher *)

Module RegExpFacts.

Import RegExp.

Lemma lookup_app (n : nat) (l1 l2 : list (nat * (nat * nat))) :
  lookup n (l1 ++ l2) = match lookup n l1 with
                        | Some se => Some se
                        | None => lookup n l2
                        end.
Proof.
  induction l1 as [|[k se] l1 IH]; simpl; [reflexivity|].
  destruct (k =? n); [reflexivity | exact IH].
Qed.

Lemma lookup_in (n : nat) (l : list (nat * (nat * nat))) (se : nat * nat) :
  lookup n l = Some se -> In (n, se) l.
Proof.
  induction l as [|[k se'] l IH]; simpl; [discriminate|].
  destruct (k =? n) eqn:E.
  - intros H. inversion H; subst. apply Nat.eqb_eq in E. subst. now left.
  - intros H. right. now apply IH.
Qed.

Lemma within_mono (lo hi lo' hi' : nat) (cap : nat * (nat * nat)) :
  lo' <= lo -> hi <= hi' -> within lo hi cap -> within lo' hi' cap.
Proof. unfold within. intros. lia. Qed.

Lemma Forall_within_mono (lo hi lo' hi' : nat) (l : list (nat * (nat * nat))) :
  lo' <= lo -> hi <= hi' -> Forall (within lo hi) l -> Forall (within lo' hi') l.
Proof.
  intros H1 H2 H. eapply Forall_impl; [|exact H].
  intros cap. now apply within_mono.
Qed.

Lemma Captured_nil (r : regex) (lo hi : nat) :
  (forall n, sets r n = None) -> Captured r lo hi [].
Proof.
  intros Hs. constructor.
  - constructor.
  - reflexivity.
  - intros n k H. rewrite Hs in H. discriminate.
Qed.

Lemma Reaches_refl (input : string) (r : regex) (x : MatchState) :
  minlen r = 0 -> (forall n, sets r n = None) -> Reaches input r x x.
Proof.
  intros Hm Hs. constructor.
  - lia.
  - trivial.
  - exists []. split; [reflexivity | now apply Captured_nil].
Qed.

Section Sound.

Variable ignoreCase : bool.
Variable input : string.

Local Abbreviation matcher := (RegExp.matcher ignoreCase input).

Local Abbreviation Sound := (RegExp.Sound ignoreCase input).

(** Iterations of a sound matcher. *)
Lemma repeat_sound (r : regex) (Hr : Sound r) :
  forall left min x c z,
    repeat (matcher r) left min x c = Some z ->
    exists y, c y = Some z
              /\ endIndex x + Nat.min left min * minlen r <= endIndex y
              /\ (endIndex x <= String.length input ->
                  endIndex y <= String.length input)
              /\ exists new, captures y = new ++ captures x
                             /\ Forall (within (endIndex x) (endIndex y)) new
                             /\ forall n, mentions r n = false -> lookup n new = None.
Proof.
  induction left as [|left IH]; intros min x c z H; simpl in H.
  - exists x. repeat split; [assumption | simpl; lia | trivial |].
    exists []. repeat split; constructor.
  - set (d := fun y : MatchState =>
                if (min =? 0) && (endIndex y =? endIndex x) then None
                else repeat (matcher r) left (pred min) y c) in H.
    assert (Hd : forall z', matcher r x d = Some z' ->
              exists y, c y = Some z'
              /\ endIndex x + Nat.min (S left) min * minlen r <= endIndex y
              /\ (endIndex x <= String.length input ->
                  endIndex y <= String.length input)
              /\ exists new, captures y = new ++ captures x
                             /\ Forall (within (endIndex x) (endIndex y)) new
                             /\ forall n, mentions r n = false -> lookup n new = None).
    { intros z' Hz. apply Hr in Hz. destruct Hz as (y1 & Hy1 & R1).
      unfold d in Hy1.
      destruct ((min =? 0) && (endIndex y1 =? endIndex x)); [discriminate|].
      apply IH in Hy1. destruct Hy1 as (y & Hc & Hlen & Hb & new2 & Hcap & Hw & Ha).
      destruct R1 as [L1 B1 (new1 & Hcap1 & [W1 A1 _])].
      exists y. split; [assumption|]. split.
      - destruct min as [|min]; simpl in *; [lia|].
        assert (Nat.min left min * minlen r + minlen r
                = minlen r + Nat.min left min * minlen r) by lia.
        lia.
      - split; [tauto|].
        exists (new2 ++ new1). split; [rewrite Hcap, Hcap1; now rewrite app_assoc|].
        split.
        + apply Forall_app. split.
          * eapply Forall_within_mono; [| |exact Hw]; lia.
          * eapply Forall_within_mono; [| |exact W1]; lia.
        + intros n Hn. rewrite lookup_app, (Ha n Hn). now apply A1. }
    destruct (min =? 0) eqn:Emin.
    + destruct (matcher r x d) as [z'|] eqn:Em.
      * inversion H; subst z'. now apply Hd.
      * apply Nat.eqb_eq in Emin. subst min.
        exists x. split; [assumption|]. split; [rewrite Nat.min_0_r; simpl; lia|].
        split; [trivial|]. exists []. repeat split; constructor.
    + now apply Hd.
Qed.

Theorem matcher_sound (r : regex) : Sound r.
Proof.
  induction r as [|items|r1 IH1 r2 IH2|r1 IH1 r2 IH2|min max r IH|k r IH| | |];
    intros x c z H; simpl in H.
  - (* Empty *)
    exists x. split; [assumption | now apply Reaches_refl].
  - (* Class *)
    destruct (String.get (endIndex x) input) as [ch|] eqn:G; [|discriminate].
    destruct (class_accepts ignoreCase items ch); [|discriminate].
    eexists. split; [exact H|]. constructor; simpl.
    + lia.
    + intros _. apply StrFacts.get_lt in G. lia.
    + exists []. split; [reflexivity | now apply Captured_nil].
  - (* Seq *)
    apply IH1 in H. destruct H as (y1 & H & [L1 B1 (new1 & C1 & [W1 A1 S1])]).
    apply IH2 in H. destruct H as (y2 & H & [L2 B2 (new2 & C2 & [W2 A2 S2])]).
    exists y2. split; [assumption|]. constructor; simpl.
    + lia.
    + tauto.
    + exists (new2 ++ new1). split; [rewrite C2, C1; now rewrite app_assoc|].
      constructor.
      * apply Forall_app. split.
        -- eapply Forall_within_mono; [| |exact W2]; lia.
        -- eapply Forall_within_mono; [| |exact W1]; lia.
      * intros n Hn. simpl in Hn. apply orb_false_iff in Hn. destruct Hn as [Hn1 Hn2].
        rewrite lookup_app, (A2 n Hn2). now apply A1.
      * intros n k Hs. simpl in Hs. rewrite lookup_app.
        destruct (sets r2 n) as [k2|] eqn:E2.
        -- inversion Hs; subst k2. destruct (S2 n k E2) as (s & e & Hl & Hk).
           rewrite Hl. now exists s, e.
        -- destruct (mentions r2 n) eqn:M2; [discriminate|].
           rewrite (A2 n M2). now apply S1.
  - (* Alt *)
    assert (Hw : forall r', Sound r' ->
              (forall n, mentions (Alt r1 r2) n = false -> mentions r' n = false) ->
              (forall n k, sets (Alt r1 r2) n = Some k ->
                           exists k', sets r' n = Some k' /\ k <= k') ->
              Nat.min (minlen r1) (minlen r2) <= minlen r' ->
              matcher r' x c = Some z ->
              exists y, c y = Some z /\ Reaches input (Alt r1 r2) x y).
    { intros r' Hs Hm Hk Hl Hz. apply Hs in Hz.
      destruct Hz as (y & Hy & [L B (new & C & [W A S])]).
      exists y. split; [assumption|]. constructor; simpl.
      - lia.
      - assumption.
      - exists new. split; [assumption|]. constructor.
        + assumption.
        + intros n Hn. apply A. now apply Hm.
        + intros n k Hn. destruct (Hk n k Hn) as (k' & Hk' & Hle).
          destruct (S n k' Hk') as (s & e & Hl' & He). exists s, e. split; [assumption | lia]. }
    destruct (matcher r1 x c) as [z1|] eqn:E1.
    + inversion H; subst z1. apply (Hw r1 IH1); try assumption.
      * intros n Hn. simpl in Hn. now apply orb_false_iff in Hn.
      * intros n k Hn. simpl in Hn.
        destruct (sets r1 n) as [k1|]; [|discriminate].
        destruct (sets r2 n) as [k2|]; [|discriminate].
        inversion Hn. exists k1. split; [reflexivity | lia].
      * lia.
    + apply (Hw r2 IH2); try assumption.
      * intros n Hn. simpl in Hn. now apply orb_false_iff in Hn.
      * intros n k Hn. simpl in Hn.
        destruct (sets r1 n) as [k1|]; [|discriminate].
        destruct (sets r2 n) as [k2|]; [|discriminate].
        inversion Hn. exists k2. split; [reflexivity | lia].
      * lia.
  - (* Rep *)
    apply (repeat_sound IH) in H.
    destruct H as (y & Hc & Hlen & Hb & new & Hcap & Hw & Ha).
    exists y. split; [assumption|]. constructor.
    + simpl. destruct max as [n|]; [exact Hlen|].
      rewrite Nat.min_r in Hlen by lia. exact Hlen.
    + assumption.
    + exists new. split; [assumption|]. constructor.
      * assumption.
      * intros n Hn. now apply Ha.
      * intros n k Hn. discriminate.
  - (* Group *)
    apply IH in H. destruct H as (y & H & [L B (new & C & [W A S])]).
    eexists. split; [exact H|]. constructor; simpl.
    + assumption.
    + assumption.
    + exists ((k, (endIndex x, endIndex y)) :: new). split; [now rewrite C|].
      constructor.
      * constructor; [unfold within; simpl; lia | assumption].
      * intros n Hn. simpl in Hn. apply orb_false_iff in Hn. destruct Hn as [Hk Hn].
        simpl. rewrite Hk. now apply A.
      * intros n k' Hn. simpl in Hn. simpl. destruct (k =? n).
        -- inversion Hn; subst k'. exists (endIndex x), (endIndex y).
           split; [reflexivity | lia].
        -- now apply S.
  - (* WordBoundary *)
    destruct (atWordBoundary input (endIndex x)); [|discriminate].
    exists x. split; [assumption | now apply Reaches_refl].
  - (* LineStart *)
    destruct (endIndex x =? 0); [|discriminate].
    exists x. split; [assumption | now apply Reaches_refl].
  - (* LineEnd *)
    destruct (endIndex x =? String.length input); [|discriminate].
    exists x. split; [assumption | now apply Reaches_refl].
Qed.

End Sound.

Lemma scanFrom_found (ic : bool) (input : string) (r : regex) :
  forall span i j y,
    scanFrom ic input r span i = Some (j, y) ->
    i <= j /\ j <= i + span /\ matchAt ic input r j = Some y.
Proof.
  induction span as [|span IH]; intros i j y H; simpl in H.
  - destruct (matchAt ic input r i) eqn:E; [|discriminate].
    inversion H; subst. repeat split; (lia || assumption).
  - destruct (matchAt ic input r i) eqn:E.
    + inversion H; subst. repeat split; (lia || assumption).
    + apply IH in H. destruct H as (H1 & H2 & H3). repeat split; (lia || assumption).
Qed.

Lemma matchAt_reaches (ic : bool) (input : string) (r : regex) (i : nat) (y : MatchState) :
  matchAt ic input r i = Some y -> Reaches input r (mkState i []) y.
Proof.
  unfold matchAt. intros H. apply matcher_sound in H.
  destruct H as (y' & Hy & R). inversion Hy; subst. exact R.
Qed.

(** Every array returned by [exec] is a valid one. *)
Theorem exec_valid (re : RegExp) (input : string) (lastIndex : nat) (m : ExecArray) :
  exec re input lastIndex = Some m -> ValidExec re input lastIndex m.
Proof.
  unfold exec. intros H.
  destruct (String.length input <? lastIndex) eqn:E; [discriminate|].
  apply Nat.ltb_ge in E.
  destruct (scanFrom (flagI re) input (source re) (String.length input - lastIndex) lastIndex)
    as [[i y]|] eqn:S; [|discriminate].
  inversion H; subst m; clear H.
  apply scanFrom_found in S. destruct S as (H1 & H2 & H3).
  apply matchAt_reaches in H3. destruct H3 as [L B (new & C & Cap)]. simpl in *.
  rewrite app_nil_r in C. subst new.
  constructor; simpl; try assumption; try reflexivity.
  apply B. lia.
Qed.


Lemma whole_length (re : RegExp) (input : string) (li : nat) (m : ExecArray) :
  ValidExec re input li m -> String.length (whole m) = lastEnd m - index m.
Proof.
  intros [_ _ B W _]. rewrite W. now apply StrFacts.length_slice.
Qed.

(** A group the pattern always sets is a piece of the match. *)
Lemma group_valid (re : RegExp) (input : string) (li : nat) (m : ExecArray) (n k : nat) :
  ValidExec re input li m ->
  sets (source re) n = Some k ->
  exists s e, group input m n = Str.slice input s e
              /\ index m <= s /\ s + k <= e /\ e <= lastEnd m.
Proof.
  intros [_ _ B _ [W _ S]] Hs.
  destruct (S n k Hs) as (s & e & Hl & Hk).
  exists s, e. unfold group. rewrite Hl. split; [reflexivity|].
  apply lookup_in in Hl. rewrite Forall_forall in W. apply W in Hl.
  unfold within in Hl. simpl in Hl. lia.
Qed.

End RegExpFacts.

(** ** The scanning loop *)

Module LoopFacts.

Import RegExp Loco RegExpFacts.

(** Forward progress: after a match the loop resumes strictly later. *)
Lemma nextLastIndex_progress (re : RegExp) (input : string) (li : nat) (m : ExecArray) :
  ValidExec re input li m ->
  li < nextLastIndex m /\ nextLastIndex m <= String.length input + 1.
Proof.
  intros V. pose proof (whole_length V) as W.
  destruct V as [F L B _ _]. unfold nextLastIndex.
  destruct (String.eqb (whole m) "") eqn:E.
  - lia.
  - assert (String.length (whole m) <> 0).
    { intros H. apply StrFacts.string_eqb_empty in H. congruence. }
    lia.
Qed.

Section Loop.

Variable A : Type.
Variable input : string.
Variable re : RegExp.
Variable cb : A -> ExecArray -> A.

(** Enough fuel: the loop ends when the fuel covers the indices left. *)
Lemma forEachMatch_loop_total :
  forall fuel li acc,
    li <= String.length input + 1 ->
    String.length input + 2 <= fuel + li ->
    exists r, forEachMatch_loop fuel input re cb li acc = Some r.
Proof.
  induction fuel as [|fuel IH]; intros li acc H1 H2; [lia|].
  simpl. destruct (exec re input li) as [m|] eqn:E.
  - apply exec_valid in E. apply nextLastIndex_progress in E.
    apply IH; lia.
  - now exists acc.
Qed.

Lemma forEachMatch_total (acc : A) :
  exists r, forEachMatch input re cb acc = Some r.
Proof. apply forEachMatch_loop_total; lia. Qed.

(** More fuel does not change a result. *)
Lemma forEachMatch_loop_more :
  forall fuel fuel' li acc r,
    fuel <= fuel' ->
    forEachMatch_loop fuel input re cb li acc = Some r ->
    forEachMatch_loop fuel' input re cb li acc = Some r.
Proof.
  induction fuel as [|fuel IH]; intros fuel' li acc r Hle H; [discriminate|].
  destruct fuel' as [|fuel']; [lia|]. simpl in *.
  destruct (exec re input li); [|assumption].
  apply IH; [lia | assumption].
Qed.

(** An invariant of the accumulator kept by the callback on valid
    matches holds of the result. *)
Lemma forEachMatch_loop_inv (P : A -> Prop) :
  (forall acc li m, P acc -> ValidExec re input li m -> P (cb acc m)) ->
  forall fuel li acc r,
    P acc -> forEachMatch_loop fuel input re cb li acc = Some r -> P r.
Proof.
  intros Hcb. induction fuel as [|fuel IH]; intros li acc r HP H; [discriminate|].
  simpl in H. destruct (exec re input li) as [m|] eqn:E.
  - apply IH in H; [assumption|]. eapply Hcb; [exact HP|]. apply exec_valid. exact E.
  - inversion H; subst. exact HP.
Qed.

Lemma forEachMatch_inv (P : A -> Prop) (acc r : A) :
  (forall acc li m, P acc -> ValidExec re input li m -> P (cb acc m)) ->
  P acc -> forEachMatch input re cb acc = Some r -> P r.
Proof. intros Hcb HP H. eapply forEachMatch_loop_inv; eassumption. Qed.

End Loop.

(** The matches collected from a start array are those collected from the
    empty array, put after it. *)
Lemma collect_prefix (input : string) (re : RegExp) :
  forall fuel li ms0,
    forEachMatch_loop fuel input re (fun ms m => ms ++ [m]) li ms0
    = option_map (app ms0)
                 (forEachMatch_loop fuel input re (fun ms m => ms ++ [m]) li []).
Proof.
  induction fuel as [|fuel IH]; intros li ms0; simpl; [reflexivity|].
  destruct (exec re input li) as [m|]; [|simpl; now rewrite app_nil_r].
  rewrite (IH _ (ms0 ++ [m])), (IH _ ([] ++ [m])).
  destruct (forEachMatch_loop fuel input re _ (nextLastIndex m) []); simpl; [|reflexivity].
  now rewrite <- app_assoc.
Qed.

(** The loop folds its callback over the matches of the scan. *)
Lemma forEachMatch_loop_fold (A : Type) (input : string) (re : RegExp)
      (cb : A -> ExecArray -> A) :
  forall fuel li acc,
    forEachMatch_loop fuel input re cb li acc
    = option_map (fun ms => fold_left cb ms acc)
                 (forEachMatch_loop fuel input re (fun ms m => ms ++ [m]) li []).
Proof.
  induction fuel as [|fuel IH]; intros li acc; simpl; [reflexivity|].
  destruct (exec re input li) as [m|]; [|reflexivity].
  rewrite IH, (collect_prefix _ _ _ _ ([] ++ [m])).
  now destruct (forEachMatch_loop fuel input re _ (nextLastIndex m) []).
Qed.

Lemma forEachMatch_fold (A : Type) (input : string) (re : RegExp)
      (cb : A -> ExecArray -> A) (acc : A) :
  forEachMatch input re cb acc
  = option_map (fun ms => fold_left cb ms acc) (allMatches input re).
Proof. apply forEachMatch_loop_fold. Qed.

End LoopFacts.

(** ** Arrays: [uniq], [sort], [join] *)

Module ArrayFacts.

Import Loco Spec.

Lemma includes_In (arr : list string) (v : string) :
  includes arr v = true <-> In v arr.
Proof.
  unfold includes. rewrite existsb_exists. split.
  - intros (x & Hx & E). apply String.eqb_eq in E. now subst.
  - intros H. exists v. split; [assumption | apply String.eqb_refl].
Qed.

Lemma uniq_loop_spec :
  forall arr out seen,
    NoDup out -> (forall v, In v out <-> In v seen) ->
    NoDup (uniq_loop arr out seen)
    /\ (forall v, In v (uniq_loop arr out seen) <-> In v out \/ In v arr).
Proof.
  induction arr as [|a arr IH]; intros out seen Hnd Hseen; simpl.
  - split; [assumption | intros v; tauto].
  - destruct (includes seen a) eqn:E; simpl.
    + apply includes_In in E. destruct (IH out seen Hnd Hseen) as [N I].
      split; [assumption|]. intros v. rewrite I. split; [tauto|].
      intros [H|[H|H]]; auto. subst. left. now apply Hseen.
    + assert (Ha : ~ In a out).
      { intros H. apply Hseen in H. apply includes_In in H. congruence. }
      destruct (IH (out ++ [a]) (a :: seen)) as [N I].
      * apply NoDup_app; [assumption | repeat constructor; intros [] | ].
        intros x Hx [Hx'|[]]. subst. contradiction.
      * intros v. rewrite in_app_iff. simpl. rewrite Hseen. tauto.
      * split; [assumption|]. intros v. rewrite I, in_app_iff. simpl. tauto.
Qed.

Lemma uniq_NoDup (arr : list string) : NoDup (uniq arr).
Proof. apply uniq_loop_spec; [constructor | intros v; tauto]. Qed.

Lemma uniq_In (arr : list string) (v : string) : In v (uniq arr) <-> In v arr.
Proof.
  unfold uniq. destruct (@uniq_loop_spec arr [] []) as [_ I];
    [constructor | intros x; tauto |].
  rewrite I. simpl. tauto.
Qed.

Lemma filter_filter (A : Type) (f g : A -> bool) (l : list A) :
  List.filter f (List.filter g l) = List.filter (fun x => g x && f x) l.
Proof.
  induction l as [|x l IH]; simpl; [reflexivity|].
  destruct (g x); simpl; [|exact IH].
  destruct (f x); now rewrite IH.
Qed.

Lemma uniq_loop_firstOccurrences :
  forall arr out seen,
    uniq_loop arr out seen
    = out ++ List.filter (fun v => negb (includes seen v)) (firstOccurrences arr).
Proof.
  induction arr as [|a arr IH]; intros out seen; simpl.
  - now rewrite app_nil_r.
  - destruct (includes seen a) eqn:E; simpl.
    + rewrite IH, filter_filter. f_equal. apply filter_ext_in. intros v _.
      destruct (String.eqb a v) eqn:Eav; simpl; [|reflexivity].
      apply String.eqb_eq in Eav. subst v. now rewrite E.
    + rewrite IH, filter_filter, <- app_assoc. simpl. do 2 f_equal.
      apply filter_ext. intros v. unfold includes. simpl.
      rewrite String.eqb_sym. now rewrite negb_orb.
Qed.

(** [uniq] keeps the first occurrence of each value, in order. *)
Lemma uniq_firstOccurrences (arr : list string) : uniq arr = firstOccurrences arr.
Proof.
  unfold uniq. rewrite uniq_loop_firstOccurrences. simpl.
  induction (firstOccurrences arr) as [|v l IH]; simpl; [reflexivity | now rewrite IH].
Qed.


(** Sorting keeps the elements and orders them by [start]. *)

Lemma insertByStart_In (x : RawMatch) (l : list RawMatch) (y : RawMatch) :
  In y (insertByStart x l) <-> y = x \/ In y l.
Proof.
  induction l as [|a l IH]; simpl; [intuition congruence|].
  destruct (start x <=? start a); simpl; [intuition congruence|].
  rewrite IH. intuition congruence.
Qed.

Lemma sortByStart_In (l : list RawMatch) (y : RawMatch) :
  In y (sortByStart l) <-> In y l.
Proof.
  induction l as [|a l IH]; simpl; [tauto|].
  rewrite insertByStart_In, IH. intuition congruence.
Qed.

Lemma insertByStart_sorted (x : RawMatch) (l : list RawMatch) :
  Sorted startsAscend l -> Sorted startsAscend (insertByStart x l).
Proof.
  induction 1 as [|a l Hs IH Hd]; simpl; [repeat constructor|].
  destruct (start x <=? start a) eqn:E.
  - apply Nat.leb_le in E. repeat constructor; assumption.
  - apply Nat.leb_gt in E. constructor; [assumption|].
    destruct l as [|b l]; simpl.
    + constructor. unfold startsAscend. lia.
    + destruct (start x <=? start b); constructor.
      * unfold startsAscend. lia.
      * now inversion Hd.
Qed.

Lemma sortByStart_sorted (l : list RawMatch) : Sorted startsAscend (sortByStart l).
Proof.
  induction l as [|a l IH]; simpl; [constructor | now apply insertByStart_sorted].
Qed.

Lemma sortByStart_Forall (P : RawMatch -> Prop) (l : list RawMatch) :
  Forall P l -> Forall P (sortByStart l).
Proof.
  rewrite !Forall_forall. intros H y Hy. apply H. now apply sortByStart_In.
Qed.

End ArrayFacts.

(** ** Tokens: [trim], [split], [join] *)

Module TokenFacts.

Import RegExp Loco RegExpFacts.

Lemma length_dropWhile (p : ascii -> bool) (s : string) :
  String.length (Str.dropWhile p s) <= String.length s.
Proof.
  induction s as [|c s IH]; simpl; [lia|].
  destruct (p c); simpl; lia.
Qed.

Lemma length_rev_onto (s : string) :
  forall acc, String.length (Str.rev_onto s acc) = String.length s + String.length acc.
Proof.
  induction s as [|c s IH]; intros acc; simpl; [reflexivity|].
  rewrite IH. simpl. lia.
Qed.

Lemma length_rev (s : string) : String.length (Str.rev s) = String.length s.
Proof. unfold Str.rev. rewrite length_rev_onto. simpl. lia. Qed.

Lemma length_trim (s : string) : String.length (Str.trim s) <= String.length s.
Proof.
  unfold Str.trim. rewrite length_rev.
  etransitivity; [apply length_dropWhile|]. rewrite length_rev.
  apply length_dropWhile.
Qed.

Lemma spread_app (l1 l2 : list string) : spread (l1 ++ l2) = spread l1 + spread l2.
Proof. induction l1 as [|t l1 IH]; simpl; [reflexivity | lia]. Qed.

Lemma spread_rev (l : list string) : spread (List.rev l) = spread l.
Proof.
  induction l as [|t l IH]; simpl; [reflexivity|].
  rewrite spread_app, IH. simpl. lia.
Qed.

Lemma spread_firstn (l : list string) : forall k, spread (firstn k l) <= spread l.
Proof.
  induction l as [|t l IH]; intros [|k]; simpl; try lia.
  specialize (IH k). lia.
Qed.

Lemma join_length (l : list string) :
  l <> [] -> String.length (join l) + 1 = spread l.
Proof.
  induction l as [|t l IH]; intros H; [congruence|].
  destruct l as [|u l].
  - unfold join. simpl. lia.
  - unfold join in *.
    change (String.concat " " (t :: u :: l))
      with (t ++ " " ++ String.concat " " (u :: l))%string.
    rewrite !StrFacts.length_append. change (String.length " ") with 1.
    assert (H0 : u :: l <> []) by discriminate. specialize (IH H0).
    change (spread (t :: u :: l)) with (S (String.length t + spread (u :: l))).
    lia.
Qed.

Lemma join_length_two (l : list string) :
  2 <= List.length l -> 1 <= String.length (join l).
Proof.
  destruct l as [|t [|u l]]; simpl; try lia. intros _.
  unfold join.
  change (String.concat " " (t :: u :: l))
    with (t ++ " " ++ String.concat " " (u :: l))%string.
  rewrite !StrFacts.length_append. change (String.length " ") with 1. lia.
Qed.

Lemma popStopwords_rev_spread (l : list string) :
  spread (popStopwords_rev l) <= spread l.
Proof.
  induction l as [|t l IH]; [simpl; lia|].
  destruct l as [|u l]; [simpl; lia|].
  change (popStopwords_rev (t :: u :: l))
    with (if isStopword (Str.toUpperCase t) then popStopwords_rev (u :: l) else t :: u :: l).
  destruct (isStopword (Str.toUpperCase t)); [|lia].
  etransitivity; [exact IH|]. simpl. lia.
Qed.

Lemma popStopwords_spread (l : list string) : spread (popStopwords l) <= spread l.
Proof.
  unfold popStopwords. rewrite spread_rev.
  etransitivity; [apply popStopwords_rev_spread|]. now rewrite spread_rev.
Qed.

(** With a separator that cannot be empty, the pieces of [split] and one
    separator each fit in the string. *)
Lemma split_loop_spread (re : RegExp) (s : string) :
  1 <= minlen (source re) ->
  forall fuel p q out,
    spread out <= p -> p <= q -> p <= String.length s ->
    spread (split_loop fuel re s p q out) <= String.length s + 1.
Proof.
  intros Hmin.
  assert (Hend : forall p out, spread out <= p -> p <= String.length s ->
            spread (out ++ [Str.slice s p (String.length s)]) <= String.length s + 1).
  { intros p out H1 H2. rewrite spread_app. simpl.
    pose proof (StrFacts.length_slice_le s p (String.length s)). lia. }
  induction fuel as [|fuel IH]; intros p q out H1 H2 H3; simpl; [now apply Hend|].
  destruct (q <? String.length s) eqn:Eq; [|now apply Hend].
  apply Nat.ltb_lt in Eq.
  destruct (matchAt (flagI re) s (source re) q) as [y|] eqn:Em.
  - apply matchAt_reaches in Em. destruct Em as [L B _]. simpl in L, B.
    assert (endIndex y <= String.length s) by (apply B; lia).
    rewrite Nat.min_l by assumption.
    destruct (endIndex y =? p) eqn:Ep.
    + apply IH; lia.
    + apply IH; try lia. rewrite spread_app. simpl.
      pose proof (StrFacts.length_slice_le s p q). lia.
  - apply IH; lia.
Qed.

Lemma split_spread (re : RegExp) (s : string) :
  1 <= minlen (source re) -> spread (split re s) <= String.length s + 1.
Proof.
  intros Hmin. unfold split. destruct s as [|c s].
  - destruct (matchAt (flagI re) "" (source re) 0); simpl; lia.
  - apply split_loop_spread; simpl; (assumption || lia).
Qed.

End TokenFacts.

(** ** The callbacks keep the raw matches inside the input *)

Module BoundFacts.

Import RegExp Loco Spec RegExpFacts TokenFacts.

Lemma group_length_le (re : RegExp) (input : string) (li : nat) (m : ExecArray) (n : nat) :
  ValidExec re input li m ->
  String.length (group input m n) <= lastEnd m - index m.
Proof.
  intros [_ _ _ _ [W _ _]]. unfold group.
  destruct (lookup n (groups m)) as [[s e]|] eqn:E; [|simpl; lia].
  apply lookup_in in E. rewrite Forall_forall in W. apply W in E.
  unfold within in E. simpl in E.
  pose proof (StrFacts.length_slice_le input s e). lia.
Qed.

(** The span of a whole match of a pattern that cannot match the empty
    string. *)
Lemma whole_inBounds (re : RegExp) (input : string) (li : nat) (m : ExecArray)
      (k : RawMatchKind) (t : string) :
  ValidExec re input li m ->
  1 <= minlen (source re) ->
  inBounds input (mkRaw k t (index m) (index m + String.length (whole m))).
Proof.
  intros V Hmin. rewrite (whole_length V). destruct V as [_ L B _ _].
  unfold inBounds. simpl. lia.
Qed.

Lemma Forall_snoc (A : Type) (P : A -> Prop) (l : list A) (x : A) :
  Forall P l -> P x -> Forall P (l ++ [x]).
Proof. intros Hl Hx. apply Forall_app. split; [assumption | now constructor]. Qed.

Lemma assetId_cb_bounds (input : string) (st : AssetAcc) (li : nat) (m : ExecArray) :
  Forall (inBounds input) (acc_assetMatches st) ->
  ValidExec ASSET_ID_REGEX_GLOBAL input li m ->
  Forall (inBounds input) (acc_assetMatches (assetId_cb st m)).
Proof.
  intros H V. unfold assetId_cb. simpl. apply Forall_snoc; [assumption|].
  eapply whole_inBounds; [exact V|]. simpl. lia.
Qed.

(** Phases 1a and 1b: the number is group 2, of three digits at least. *)
Lemma keyword_cb_bounds (re : RegExp) (input : string) (st : LocoAcc)
      (li : nat) (m : ExecArray) :
  sets (source re) 2 = Some 3 ->
  Forall (inBounds input) (acc_locoMatches st) ->
  ValidExec re input li m ->
  Forall (inBounds input) (acc_locoMatches (keyword_cb input st m)).
Proof.
  intros Hs H V. unfold keyword_cb.
  destruct (negb (includes (acc_locoNos st) (group input m 2))); [|assumption].
  simpl. apply Forall_snoc; [assumption|].
  destruct (@group_valid _ _ _ _ 2 3 V Hs) as (s & e & Hg & H1 & H2 & H3).
  pose proof (whole_length V) as W. pose proof (ve_bound V) as B.
  assert (Hn : String.length (group input m 2) = e - s).
  { rewrite Hg. apply StrFacts.length_slice. lia. }
  unfold inBounds. simpl. rewrite Hn. split; [lia|].
  destruct (Str.lastIndexOf (Str.toLowerCase (whole m))
                            (Str.toLowerCase (group input m 2))) as [k|] eqn:E.
  - apply StrFacts.lastIndexOf_bound in E.
    unfold Str.toLowerCase in E. rewrite !StrFacts.length_map in E. lia.
  - lia.
Qed.

Lemma generic_cb_bounds (input : string) (hasDomain : bool) (locoNos : list string)
      (cands : list Candidate) (li : nat) (m : ExecArray) :
  Forall (candidateInBounds input) cands ->
  ValidExec LOCO_NUMBER_GLOBAL input li m ->
  Forall (candidateInBounds input) (generic_cb input hasDomain locoNos cands m).
Proof.
  intros H V. unfold generic_cb.
  destruct (includes locoNos (whole m)); [assumption|].
  destruct (isFollowedByDayish input _); [assumption|].
  destruct (looksLikeCountNumber input _ _); [assumption|].
  destruct (looksLikeYear _); [assumption|].
  apply Forall_snoc; [assumption|].
  assert (B : inBounds input
                (mkRaw locoNoKind "" (index m) (index m + String.length (whole m)))).
  { eapply whole_inBounds; [exact V|]. simpl. lia. }
  exact B.
Qed.

Lemma acceptCandidates_fold (st : LocoAcc) (cands : list Candidate) :
  acceptCandidates st cands = fold_left pushIfScored cands st.
Proof.
  destruct cands as [|c [|c' cands]]; try reflexivity.
  unfold acceptCandidates. simpl. unfold pushIfScored.
  now destruct (scored c).
Qed.

Lemma fold_pushIfScored (cands : list Candidate) :
  forall st,
    acc_locoNos (fold_left pushIfScored cands st)
    = acc_locoNos st ++ List.map numText (List.filter scored cands)
    /\ acc_locoMatches (fold_left pushIfScored cands st)
       = acc_locoMatches st ++ List.map candidateMatch (List.filter scored cands).
Proof.
  induction cands as [|c cands IH]; intros st; simpl.
  - now rewrite !app_nil_r.
  - destruct (IH (pushIfScored st c)) as [H1 H2]. rewrite H1, H2.
    unfold pushIfScored. destruct (scored c); simpl; [|tauto].
    now rewrite <- !app_assoc.
Qed.

Lemma acceptCandidates_locoNos (st : LocoAcc) (cands : list Candidate) :
  acc_locoNos (acceptCandidates st cands)
  = acc_locoNos st ++ List.map numText (List.filter scored cands).
Proof. rewrite acceptCandidates_fold. apply fold_pushIfScored. Qed.

Lemma acceptCandidates_matches (st : LocoAcc) (cands : list Candidate) :
  acc_locoMatches (acceptCandidates st cands)
  = acc_locoMatches st ++ List.map candidateMatch (List.filter scored cands).
Proof. rewrite acceptCandidates_fold. apply fold_pushIfScored. Qed.

Lemma acceptCandidates_bounds (input : string) (st : LocoAcc) (cands : list Candidate) :
  Forall (inBounds input) (acc_locoMatches st) ->
  Forall (candidateInBounds input) cands ->
  Forall (inBounds input) (acc_locoMatches (acceptCandidates st cands)).
Proof.
  intros H1 H2. rewrite acceptCandidates_matches. apply Forall_app. split; [assumption|].
  rewrite Forall_forall in *. intros r Hr. apply in_map_iff in Hr.
  destruct Hr as (c & <- & Hc). apply filter_In in Hc. exact (H2 c (proj1 Hc)).
Qed.

Lemma nospace_cb_bounds (input : string) (st : NameAcc) (li : nat) (m : ExecArray) :
  Forall (inBounds input) (acc_nameMatches st) ->
  ValidExec LOCO_NAME_NOSPACE_GLOBAL input li m ->
  Forall (inBounds input) (acc_nameMatches (nospace_cb input st m)).
Proof.
  intros H V. unfold nospace_cb.
  destruct (isStopword _); [assumption|].
  destruct (negb (modelish _)); [assumption|].
  destruct (includes _ _); [assumption|].
  simpl. apply Forall_snoc; [assumption|].
  eapply whole_inBounds; [exact V|]. simpl. lia.
Qed.

Lemma model_cb_bounds (input : string) (st : NameAcc) (li : nat) (m : ExecArray) :
  Forall (inBounds input) (acc_nameMatches st) ->
  ValidExec MODEL_TOKEN_GLOBAL input li m ->
  Forall (inBounds input) (acc_nameMatches (model_cb input st m)).
Proof.
  intros H V. unfold model_cb.
  destruct (isStopword _); [assumption|].
  destruct (negb (test _ _)); [assumption|].
  destruct (negb (nearKeywords _ _ _ _)); [assumption|].
  destruct (existsb _ _); [assumption|].
  simpl. apply Forall_snoc; [assumption|].
  eapply whole_inBounds; [exact V|]. simpl. lia.
Qed.

(** Phase 1 of the names: the phrase is no longer than the number and the
    words cut after it, since [join] puts one blank where [split] removed a
    run of at least one. *)
Lemma phrase_cb_bounds (input : string) (st : NameAcc) (li : nat) (m : ExecArray) :
  Forall (inBounds input) (acc_nameMatches st) ->
  ValidExec LOCO_NUMBER_START_GLOBAL input li m ->
  Forall (inBounds input) (acc_nameMatches (phrase_cb input st m)).
Proof.
  intros H V. unfold phrase_cb.
  set (afterNum := Str.sliceFrom input (index m + String.length (whole m))).
  destruct (exec AFTER_NUMBER_REGEX afterNum 0) as [am|] eqn:E; [|assumption].
  apply exec_valid in E.
  set (afterText := group afterNum am 1).
  set (tokens0 := split SPACES_REGEX (Str.trim (whole m ++ afterText)%string)).
  destruct (isStopword _); [assumption|].
  set (tokens1 := match findStopword (tl tokens0) 1 with
                  | Some i => firstn i tokens0
                  | None => tokens0
                  end).
  destruct (negb (List.existsb modelish (tl tokens1))); [assumption|].
  destruct (List.length (popStopwords tokens1) <? 2) eqn:E2; [assumption|].
  apply Nat.ltb_ge in E2.
  destruct (includes _ _); [assumption|].
  simpl. apply Forall_snoc; [assumption|].
  (* the lengths *)
  pose proof (whole_length V) as W. pose proof (ve_bound V) as B.
  pose proof (ve_len V) as L. simpl in L.
  assert (Hafter : String.length afterText <= String.length input - lastEnd m).
  { pose proof (@group_length_le _ _ _ _ 1 E) as G. pose proof (ve_bound E) as B2.
    unfold afterNum in B2. rewrite StrFacts.length_sliceFrom in B2.
    fold afterText in G. lia. }
  assert (H0 : spread tokens0 <= String.length (whole m) + String.length afterText + 1).
  { unfold tokens0.
    etransitivity; [apply split_spread; simpl; lia|].
    pose proof (length_trim (whole m ++ afterText)%string) as T.
    rewrite StrFacts.length_append in T. lia. }
  assert (H1 : spread tokens1 <= spread tokens0).
  { unfold tokens1. destruct (findStopword (tl tokens0) 1); [apply spread_firstn | lia]. }
  pose proof (popStopwords_spread tokens1) as H2.
  assert (Hne : popStopwords tokens1 <> []).
  { intros Hnil. rewrite Hnil in E2. simpl in E2. lia. }
  pose proof (join_length Hne) as J. pose proof (join_length_two _ E2) as J2.
  unfold inBounds. simpl. lia.
Qed.

End BoundFacts.

(** ** The extractors return, and what they return *)

Module ExtractFacts.

Import RegExp Loco Spec RegExpFacts LoopFacts ArrayFacts BoundFacts.

(** [loop_inv P E]: prove [P r] from the run [E] of a scanning loop that
    returned [r], by the invariant [P]. *)
Ltac loop_inv P E :=
  refine (@forEachMatch_inv _ _ _ _ P _ _ _ _ E);
  [ let acc := fresh "acc" in
    let li := fresh "li" in
    let m := fresh "m" in
    let HP := fresh "HP" in
    let V := fresh "V" in
    intros acc li m HP V
  | ].

Lemma extractAssetIds_run (input : string) :
  exists st,
    assetScan input = Some st
    /\ extractAssetIds input = Some (uniq (acc_assetIds st), acc_assetMatches st)
    /\ Forall (inBounds input) (acc_assetMatches st).
Proof.
  unfold extractAssetIds, assetScan.
  destruct (forEachMatch_total input ASSET_ID_REGEX_GLOBAL assetId_cb (mkAssetAcc [] []))
    as [st E].
  exists st. split; [assumption|]. split.
  - now rewrite E.
  - loop_inv (fun st => Forall (inBounds input) (acc_assetMatches st)) E.
    + now apply assetId_cb_bounds with (li := li).
    + constructor.
Qed.

Lemma keywordPhases_run (input : string) :
  exists st1,
    keywordPhases input = Some st1
    /\ Forall (inBounds input) (acc_locoMatches st1).
Proof.
  unfold keywordPhases.
  destruct (forEachMatch_total input LOCO_KEYWORD_NUMBER_GLOBAL (keyword_cb input)
                               (mkLocoAcc [] [] [])) as [st1a Ea].
  destruct (forEachMatch_total input LOCO_KEYWORD_NUMBER_CONCAT_GLOBAL (keyword_cb input)
                               st1a) as [st1b Eb].
  exists st1b. rewrite Ea. simpl. split; [assumption|].
  loop_inv (fun st => Forall (inBounds input) (acc_locoMatches st)) Eb.
  - now apply keyword_cb_bounds
      with (re := LOCO_KEYWORD_NUMBER_CONCAT_GLOBAL) (li := li).
  - loop_inv (fun st => Forall (inBounds input) (acc_locoMatches st)) Ea.
    + now apply keyword_cb_bounds with (re := LOCO_KEYWORD_NUMBER_GLOBAL) (li := li).
    + constructor.
Qed.

Lemma genericCandidates_run (input : string) (locoNos : list string) :
  exists cands,
    genericCandidates input locoNos = Some cands
    /\ Forall (candidateInBounds input) cands.
Proof.
  unfold genericCandidates.
  destruct (forEachMatch_total input LOCO_NUMBER_GLOBAL
              (generic_cb input (hasDomainContext input) locoNos) []) as [cands E].
  exists cands. split; [assumption|].
  loop_inv (Forall (candidateInBounds input)) E.
  - now apply generic_cb_bounds with (li := li).
  - constructor.
Qed.

Lemma extractLocoNos_run (input : string) :
  exists st1 cands,
    keywordPhases input = Some st1
    /\ genericCandidates input (acc_locoNos st1) = Some cands
    /\ extractLocoNos input
       = Some (uniq (acc_locoNos (acceptCandidates st1 cands)),
               acc_locoMatches (acceptCandidates st1 cands))
    /\ Forall (inBounds input) (acc_locoMatches (acceptCandidates st1 cands)).
Proof.
  destruct (keywordPhases_run input) as (st1 & E1 & B1).
  destruct (genericCandidates_run input (acc_locoNos st1)) as (cands & E2 & B2).
  exists st1, cands. repeat split; try assumption.
  - unfold extractLocoNos. rewrite E1. simpl. now rewrite E2.
  - now apply acceptCandidates_bounds.
Qed.

Lemma extractNames_run (input : string) :
  exists st,
    namePhases input = Some st
    /\ extractNames input = Some (uniq (acc_names st), acc_nameMatches st)
    /\ Forall (inBounds input) (acc_nameMatches st).
Proof.
  unfold extractNames, namePhases.
  destruct (forEachMatch_total input LOCO_NAME_NOSPACE_GLOBAL (nospace_cb input)
                               (mkNameAcc [] [])) as [st0 E0].
  destruct (forEachMatch_total input LOCO_NUMBER_START_GLOBAL (phrase_cb input) st0)
    as [st1 E1].
  destruct (forEachMatch_total input MODEL_TOKEN_GLOBAL (model_cb input) st1)
    as [st2 E2].
  exists st2. rewrite E0. simpl. rewrite E1. simpl. rewrite E2. simpl.
  split; [reflexivity|]. split; [reflexivity|].
  loop_inv (fun st => Forall (inBounds input) (acc_nameMatches st)) E2.
  - now apply model_cb_bounds with (li := li).
  - loop_inv (fun st => Forall (inBounds input) (acc_nameMatches st)) E1.
    + now apply phrase_cb_bounds with (li := li).
    + loop_inv (fun st => Forall (inBounds input) (acc_nameMatches st)) E0.
      * now apply nospace_cb_bounds with (li := li).
      * constructor.
Qed.

(** The record returned for an input, in terms of the three extractions. *)
Lemma extractLocoQuery_run (input : string) :
  exists a am l lm n nm,
    extractAssetIds input = Some (a, am)
    /\ extractLocoNos input = Some (l, lm)
    /\ extractNames input = Some (n, nm)
    /\ extractLocoQuery input
       = Some (mkQuery input a l n (hd_error a) (hd_error l) (hd_error n)
                       (sortByStart (am ++ lm ++ nm)) (computeConfidence a l n)).
Proof.
  destruct (extractAssetIds_run input) as (sa & _ & Ea & _).
  destruct (extractLocoNos_run input) as (st1 & cands & _ & _ & El & _).
  destruct (extractNames_run input) as (sn & _ & En & _).
  do 6 eexists. split; [exact Ea|]. split; [exact El|]. split; [exact En|].
  unfold extractLocoQuery. rewrite Ea. simpl. rewrite El. simpl. rewrite En. reflexivity.
Qed.

End ExtractFacts.

(** ** The generic pass *)

Module GenericFacts.

Import RegExp Loco Spec RegExpFacts LoopFacts ArrayFacts BoundFacts ExtractFacts.

Lemma generic_cb_surviving (input : string) (locoNos : list string)
      (cands : list Candidate) (m : ExecArray) :
  Forall (Surviving input locoNos) cands ->
  Forall (Surviving input locoNos)
         (generic_cb input (hasDomainContext input) locoNos cands m).
Proof.
  intros H. unfold generic_cb.
  destruct (includes locoNos (whole m)) eqn:E1; [assumption|].
  destruct (isFollowedByDayish input _) eqn:E2; [assumption|].
  destruct (looksLikeCountNumber input _ _) eqn:E3; [assumption|].
  destruct (looksLikeYear _) eqn:E4; [assumption|].
  apply Forall_snoc; [assumption|].
  constructor; simpl; (assumption || reflexivity).
Qed.

Lemma genericCandidates_surviving (input : string) (locoNos : list string)
      (cands : list Candidate) :
  genericCandidates input locoNos = Some cands ->
  Forall (Surviving input locoNos) cands.
Proof.
  unfold genericCandidates. intros E.
  loop_inv (Forall (Surviving input locoNos)) E.
  - now apply generic_cb_surviving.
  - constructor.
Qed.

(** The two characters before an index. *)
Lemma existsb_substring_two (f : ascii -> bool) (s : string) :
  forall p,
    Str.existsb f (substring p 2 s)
    = match String.get p s with Some c => f c | None => false end
      || match String.get (S p) s with Some c => f c | None => false end.
Proof.
  induction s as [|a s IH]; intros p.
  - destruct p; reflexivity.
  - destruct p as [|p].
    + simpl. destruct s as [|b s]; simpl; [reflexivity|].
      assert (E : substring 0 0 s = "") by now destruct s.
      rewrite E. simpl. now rewrite orb_false_r.
    + simpl substring. rewrite IH. reflexivity.
Qed.

Lemma hash_before (input : string) (start : nat) :
  Str.existsb (Ascii.eqb "#") (Str.slice input (start - 2) start)
  = hashWithinTwoBefore input start.
Proof.
  unfold Str.slice, hashWithinTwoBefore, hashImmediatelyBefore.
  generalize (Ascii.eqb "#"). intros f.
  assert (E : forall s, substring 0 0 s = "") by now intros [|c s].
  destruct start as [|[|p]].
  - simpl. now rewrite E.
  - simpl. destruct input as [|a s]; simpl; [reflexivity|]. now rewrite E.
  - replace (S (S p) - 2) with p by lia.
    replace (S (S p) - p) with 2 by lia.
    rewrite existsb_substring_two. simpl. apply orb_comm.
Qed.

(** The score of the source is the amended score. *)
Lemma candidateScore_amended (input : string) (start stop : nat) :
  candidateScore input (hasDomainContext input) start stop
  = amendedScore input start stop.
Proof. unfold candidateScore, amendedScore. now rewrite hash_before. Qed.

Lemma filter_scored (input : string) (locoNos : list string) (cands : list Candidate) :
  Forall (Surviving input locoNos) cands ->
  List.filter scored cands
  = List.filter (fun c => 1 <=? amendedScore input (cand_start c) (cand_stop c)) cands.
Proof.
  intros H. apply filter_ext_in. intros c Hc.
  rewrite Forall_forall in H. destruct (H c Hc) as [_ _ _ _ Hs].
  unfold scored. now rewrite Hs, candidateScore_amended.
Qed.

(** The shape of what [extractLocoQuery] returns as [locoNos]. *)
Lemma locoNos_shape (input : string) :
  exists st1 cands q,
    keywordPhases input = Some st1
    /\ genericCandidates input (acc_locoNos st1) = Some cands
    /\ extractLocoQuery input = Some q
    /\ Forall (Surviving input (acc_locoNos st1)) cands
    /\ locoNos q = uniq (acc_locoNos st1 ++ List.map numText (List.filter scored cands)).
Proof.
  destruct (extractLocoNos_run input) as (st1 & cands & E1 & E2 & El & _).
  destruct (extractLocoQuery_run input) as (a & am & l & lm & n & nm & _ & El' & _ & Eq).
  exists st1, cands. eexists. split; [exact E1|]. split; [exact E2|]. split; [exact Eq|].
  split; [now apply genericCandidates_surviving|].
  simpl. rewrite El in El'. inversion El'; subst.
  now rewrite acceptCandidates_locoNos.
Qed.

End GenericFacts.

(** ** The keyword phases *)

Module KeywordFacts.

Import RegExp Loco Spec RegExpFacts LoopFacts ArrayFacts BoundFacts ExtractFacts GenericFacts.

Lemma keyword_cb_keeps (input : string) (st : LocoAcc) (m : ExecArray) (n : string) :
  In n (acc_locoNos st) -> In n (acc_locoNos (keyword_cb input st m)).
Proof.
  intros H. unfold keyword_cb.
  destruct (negb (includes (acc_locoNos st) (group input m 2))); [|assumption].
  simpl. apply in_or_app. now left.
Qed.

Lemma keyword_cb_accepts (input : string) (st : LocoAcc) (m : ExecArray) :
  In (group input m 2) (acc_locoNos (keyword_cb input st m)).
Proof.
  unfold keyword_cb.
  destruct (includes (acc_locoNos st) (group input m 2)) eqn:E; simpl.
  - now apply includes_In.
  - apply in_or_app. right. now left.
Qed.

Lemma keyword_fold_keeps (input : string) (ms : list ExecArray) :
  forall st n,
    In n (acc_locoNos st) -> In n (acc_locoNos (fold_left (keyword_cb input) ms st)).
Proof.
  induction ms as [|m ms IH]; intros st n H; simpl; [assumption|].
  apply IH. now apply keyword_cb_keeps.
Qed.

Lemma keyword_fold_accepts (input : string) (ms : list ExecArray) :
  forall st,
    Forall (fun m => In (group input m 2)
                        (acc_locoNos (fold_left (keyword_cb input) ms st))) ms.
Proof.
  induction ms as [|m ms IH]; intros st; simpl; constructor.
  - apply keyword_fold_keeps. apply keyword_cb_accepts.
  - apply IH.
Qed.

(** Every number a keyword pattern captures is in [locoNos] at the end. *)
Lemma keyword_numbers_accepted (input : string) :
  exists ms ms' q,
    allMatches input LOCO_KEYWORD_NUMBER_GLOBAL = Some ms
    /\ allMatches input LOCO_KEYWORD_NUMBER_CONCAT_GLOBAL = Some ms'
    /\ extractLocoQuery input = Some q
    /\ Forall (fun m => In (group input m 2) (locoNos q)) (ms ++ ms').
Proof.
  destruct (locoNos_shape input) as (st1 & cands & q & E1 & _ & Eq & _ & Hl).
  unfold keywordPhases in E1. rewrite forEachMatch_fold in E1.
  destruct (allMatches input LOCO_KEYWORD_NUMBER_GLOBAL) as [ms|]; [|discriminate].
  simpl in E1. rewrite forEachMatch_fold in E1.
  destruct (allMatches input LOCO_KEYWORD_NUMBER_CONCAT_GLOBAL) as [ms'|]; [|discriminate].
  simpl in E1. inversion E1 as [E]. clear E1.
  exists ms, ms', q. repeat (split; [reflexivity || assumption|]).
  assert (Hin : forall n, In n (acc_locoNos st1) -> In n (locoNos q)).
  { intros n H. rewrite Hl. apply uniq_In. apply in_or_app. now left. }
  apply Forall_app. split.
  - eapply Forall_impl; [|apply (keyword_fold_accepts input ms (mkLocoAcc [] [] []))].
    intros m H. apply Hin. rewrite <- E. now apply keyword_fold_keeps.
  - eapply Forall_impl; [|apply (keyword_fold_accepts input ms')].
    intros m H. apply Hin. rewrite <- E. exact H.
Qed.

End KeywordFacts.

(** ** Anchored patterns: the numbered name and the day suffix *)

Module AnchorFacts.

Import RegExp Loco Spec.

(** A pattern that starts with [^] matches at index 0 or nowhere. *)
Lemma scan_anchored (ic : bool) (s : string) (r : regex) :
  forall span i, 1 <= i -> scanFrom ic s (Seq LineStart r) span i = None.
Proof.
  induction span as [|span IH]; intros i Hi; simpl; unfold matchAt; simpl;
    destruct i as [|i]; try lia; simpl; [reflexivity|].
  apply IH. lia.
Qed.

Lemma test_anchored (re : RegExp) (r : regex) (s : string) :
  source re = Seq LineStart r ->
  test re s = match matchAt (flagI re) s (source re) 0 with
              | Some _ => true
              | None => false
              end.
Proof.
  intros E. unfold test, exec. simpl (String.length s <? 0). rewrite Nat.sub_0_r.
  destruct (String.length s) as [|n]; simpl.
  - now destruct (matchAt (flagI re) s (source re) 0).
  - destruct (matchAt (flagI re) s (source re) 0); [reflexivity|].
    rewrite E. now rewrite scan_anchored.
Qed.

Lemma isDigit_isWordChar (c : ascii) :
  Chars.isDigit c = true -> Chars.isWordChar c = true.
Proof. intros H. unfold Chars.isWordChar. rewrite H. now rewrite !orb_true_r. Qed.

Local Arguments Chars.isWordChar : simpl never.
Local Arguments Chars.isDigit : simpl never.

(** Run a pattern of digits and word boundaries on a string of unknown
    characters, by cases on what each character met is. *)
Ltac by_character_cases :=
  repeat (cbn; unfold atWordBoundary, isWordCharAt; cbn;
          match goal with
          | D : Chars.isDigit ?c = true |- context [Chars.isWordChar ?c] =>
              rewrite (isDigit_isWordChar c D)
          | |- context [Chars.isDigit ?c] =>
              let D := fresh "D" in destruct (Chars.isDigit c) eqn:D
          | |- context [Chars.isWordChar ?c] =>
              let W := fresh "W" in destruct (Chars.isWordChar c) eqn:W
          end);
  cbn; try reflexivity.

(** The test of [computeConfidence] on a name is the one the specification
    words. *)
Lemma numbered_name (nm : string) : test NUMBERED_NAME_REGEX nm = beginsWithNumber nm.
Proof.
  rewrite (@test_anchored NUMBERED_NAME_REGEX _ nm eq_refl).
  unfold beginsWithNumber, digitsThenBoundary, isWordCharAt, matchAt.
  destruct nm as [|c1 [|c2 [|c3 [|c4 [|c5 [|c6 rest]]]]]]; by_character_cases.
Qed.

Lemma existsb_pointwise (A : Type) (f g : A -> bool) (l : list A) :
  (forall x, f x = g x) -> List.existsb f l = List.existsb g l.
Proof.
  intros H. induction l as [|x l IH]; simpl; [reflexivity | now rewrite H, IH].
Qed.

Lemma computeConfidence_confidenceOf (a l n : list string) :
  computeConfidence a l n = confidenceOf a l n.
Proof.
  unfold computeConfidence, confidenceOf.
  destruct a as [|x a]; [|reflexivity].
  destruct l as [|y l]; [|reflexivity].
  simpl. rewrite (existsb_pointwise _ _ n numbered_name).
  destruct n as [|z n]; reflexivity.
Qed.

(** The ten characters after an index are the start of what follows it. *)

Lemma substring_all (s : string) : substring 0 (String.length s) s = s.
Proof. induction s as [|c s IH]; simpl; [reflexivity | now rewrite IH]. Qed.

Lemma substring_min (s : string) :
  forall k, substring 0 (Nat.min (String.length s) k) s = substring 0 k s.
Proof.
  induction s as [|c s IH]; intros k.
  - simpl. now destruct k.
  - destruct k as [|k]; simpl; [reflexivity|]. now rewrite IH.
Qed.

Lemma slice_tail (s : string) :
  forall a k,
    Str.slice s a (Nat.min (String.length s) (a + k)) = substring 0 k (Str.sliceFrom s a).
Proof.
  unfold Str.slice, Str.sliceFrom.
  induction s as [|c s IH]; intros a k.
  - simpl. destruct a, k; reflexivity.
  - destruct a as [|a].
    + simpl Nat.add. rewrite Nat.sub_0_r, Nat.sub_0_r, substring_all, substring_min.
      reflexivity.
    + change (String.length (String c s)) with (S (String.length s)).
      change (S a + k) with (S (a + k)).
      rewrite <- Nat.succ_min_distr.
      change (substring (S a) (S (Nat.min (String.length s) (a + k)) - S a) (String c s))
        with (substring a (Nat.min (String.length s) (a + k) - a) s).
      change (substring (S a) (S (String.length s) - S a) (String c s))
        with (substring a (String.length s - a) s).
      apply IH.
Qed.

Lemma prefix_split (w : string) :
  forall s, prefix w s = true -> exists rest, s = (w ++ rest)%string.
Proof.
  induction w as [|a w IH]; intros s H.
  - now exists s.
  - destruct s as [|b s]; simpl in H; [discriminate|].
    destruct (ascii_dec a b) as [->|]; [|discriminate].
    destruct (IH s H) as [rest ->]. now exists rest.
Qed.

Lemma get_append_length (w rest : string) :
  String.get (String.length w) (w ++ rest) = String.get 0 rest.
Proof. induction w as [|a w IH]; simpl; [reflexivity | exact IH]. Qed.

(** Each day suffix of the specification, closed by the end of the input or
    by a character that is not a word character, is matched by the pattern
    of [isFollowedByDayish]: by running the pattern, for each of the
    characters that can follow. *)
Lemma dayish_suffix (w rest : string) :
  In w daySuffixes ->
  isWordCharAt rest 0 = false ->
  test DAYISH_REGEX (substring 0 10 (w ++ rest)) = true.
Proof.
  intros Hw Hr. unfold daySuffixes in Hw. simpl in Hw.
  destruct rest as [|c rest].
  - decompose [or] Hw; subst; try contradiction; vm_compute; reflexivity.
  - unfold isWordCharAt in Hr. simpl in Hr.
    decompose [or] Hw; subst; try contradiction; clear Hw;
      destruct c as [[] [] [] [] [] [] [] []]; try discriminate Hr;
      vm_compute; reflexivity.
Qed.

Lemma map_substring (f : ascii -> ascii) (s : string) :
  forall n m, Str.map f (substring n m s) = substring n m (Str.map f s).
Proof.
  induction s as [|c s IH]; intros n m.
  - destruct n, m; reflexivity.
  - destruct n as [|n]; simpl.
    + destruct m as [|m]; simpl; [reflexivity | now rewrite IH].
    + apply IH.
Qed.

Lemma dayish_of_suffix (input : string) (stop : nat) :
  followedByDaySuffix input stop = true -> isFollowedByDayish input stop = true.
Proof.
  unfold followedByDaySuffix. intros H. apply existsb_exists in H.
  destruct H as (w & Hw & Hs). unfold startsWithWord in Hs.
  apply andb_true_iff in Hs. destruct Hs as [Hp Hb].
  apply prefix_split in Hp. destruct Hp as [rest Hrest].
  unfold isFollowedByDayish. rewrite slice_tail.
  unfold Str.toLowerCase in *. rewrite map_substring, Hrest.
  apply dayish_suffix; [assumption|].
  rewrite Hrest in Hb. unfold isWordCharAt in *.
  rewrite get_append_length in Hb. now apply negb_true_iff in Hb.
Qed.

End AnchorFacts.

(** ** The resolver: rule A comes first *)

Module ResolverFacts.

Import Loco Resolver.

(** One extracted assetId that is a key of the snapshot resolves to its
    entry, whatever the loco numbers and the names are. *)
Lemma assetId_hit_resolves (q : LocoQuery) (a : string) (r : LocoRecord)
      (snapshot : Snapshot) (context : ResolverContext) :
  assetIds q = [a] ->
  lookupAsset snapshot a = Some r ->
  resolve q snapshot context = Resolved a r.
Proof.
  intros Ha Hl. unfold resolve. rewrite Ha.
  change (uniq [a]) with [a]. simpl. now rewrite Hl.
Qed.

End ResolverFacts.

(** ** The text of a match *)

Module TextFacts.

Import RegExp RegExpFacts.

Lemma Span_refl (ic : bool) (input : string) (r : regex) (s : nat) :
  Span ic input r s s.
Proof. constructor; intros; lia. Qed.

Lemma Span_seq (ic : bool) (input : string) (r1 r2 : regex) (s m e : nat) :
  Span ic input r1 s m -> Span ic input r2 m e -> Span ic input (Seq r1 r2) s e.
Proof.
  intros [L1 M1 C1] [L2 M2 C2]. constructor.
  - lia.
  - intros k Hk. simpl in Hk.
    destruct (maxlen r1) as [k1|]; [|discriminate].
    destruct (maxlen r2) as [k2|]; [|discriminate].
    inversion Hk; subst. specialize (M1 k1 eq_refl). specialize (M2 k2 eq_refl). lia.
  - intros i Hi. simpl. destruct (Nat.lt_ge_cases i m) as [H|H].
    + destruct (C1 i) as (ch & G & A); [lia|]. exists ch. now rewrite A.
    + destruct (C2 i) as (ch & G & A); [lia|]. exists ch. rewrite A.
      now rewrite orb_true_r.
Qed.

Lemma Span_alt (ic : bool) (input : string) (r1 r2 : regex) (s e : nat) :
  Span ic input r1 s e \/ Span ic input r2 s e -> Span ic input (Alt r1 r2) s e.
Proof.
  intros [[L M C]|[L M C]]; constructor; try assumption.
  - intros k Hk. simpl in Hk.
    destruct (maxlen r1) as [k1|]; [|discriminate].
    destruct (maxlen r2) as [k2|]; [|discriminate].
    inversion Hk; subst. specialize (M k1 eq_refl). lia.
  - intros i Hi. destruct (C i Hi) as (ch & G & A). exists ch. simpl. now rewrite A.
  - intros k Hk. simpl in Hk.
    destruct (maxlen r1) as [k1|]; [|discriminate].
    destruct (maxlen r2) as [k2|]; [|discriminate].
    inversion Hk; subst. specialize (M k2 eq_refl). lia.
  - intros i Hi. destruct (C i Hi) as (ch & G & A). exists ch. simpl. rewrite A.
    now rewrite orb_true_r.
Qed.

Lemma Consumes_refl (ic : bool) (input : string) (r : regex) (x : MatchState) :
  (forall n, body r n = None) -> Consumes ic input r x x.
Proof.
  intros Hb. constructor; [apply Span_refl|].
  exists []. repeat split.
  intros n b H. rewrite Hb in H. discriminate.
Qed.

Section SoundText.

Variable ignoreCase : bool.
Variable input : string.

Local Abbreviation matcher := (RegExp.matcher ignoreCase input).
Local Abbreviation SoundText := (RegExp.SoundText ignoreCase input).

(** Iterations of a matcher whose matches are made of its characters. *)
Lemma repeat_text (r : regex) (Hr : SoundText r) :
  forall left min x c z,
    repeat (matcher r) left min x c = Some z ->
    exists y, c y = Some z
              /\ endIndex x <= endIndex y
              /\ (forall k, maxlen r = Some k -> endIndex y <= endIndex x + left * k)
              /\ (forall i, endIndex x <= i < endIndex y ->
                            exists ch, String.get i input = Some ch
                                       /\ alphabet ignoreCase r ch = true)
              /\ exists new, captures y = new ++ captures x
                             /\ forall n, mentions r n = false -> lookup n new = None.
Proof.
  induction left as [|left IH]; intros min x c z H; simpl in H.
  - exists x. split; [assumption|]. split; [lia|]. split; [intros; lia|].
    split; [intros i Hi; lia|]. exists []. split; reflexivity.
  - set (d := fun y : MatchState =>
                if (min =? 0) && (endIndex y =? endIndex x) then None
                else repeat (matcher r) left (pred min) y c) in H.
    assert (Hd : forall z', matcher r x d = Some z' ->
      exists y, c y = Some z'
              /\ endIndex x <= endIndex y
              /\ (forall k, maxlen r = Some k -> endIndex y <= endIndex x + S left * k)
              /\ (forall i, endIndex x <= i < endIndex y ->
                            exists ch, String.get i input = Some ch
                                       /\ alphabet ignoreCase r ch = true)
              /\ exists new, captures y = new ++ captures x
                             /\ forall n, mentions r n = false -> lookup n new = None).
    { intros z' Hz. apply Hr in Hz. destruct Hz as (y1 & Hy1 & [[L1 M1 C1] (new1 & E1 & A1 & _)]).
      unfold d in Hy1.
      destruct ((min =? 0) && (endIndex y1 =? endIndex x)); [discriminate|].
      apply IH in Hy1. destruct Hy1 as (y & Hc & L & M & C & new2 & E2 & A2).
      exists y. split; [assumption|]. split; [lia|]. split; [|split].
      - intros k Hk. specialize (M1 k Hk). specialize (M k Hk). simpl. lia.
      - intros i Hi. destruct (Nat.lt_ge_cases i (endIndex y1)) as [H1|H1].
        + apply C1. lia.
        + apply C. lia.
      - exists (new2 ++ new1). split; [rewrite E2, E1; now rewrite app_assoc|].
        intros n Hn. rewrite lookup_app, (A2 n Hn). now apply A1. }
    destruct (min =? 0).
    + destruct (matcher r x d) as [z'|] eqn:Em.
      * inversion H; subst z'. now apply Hd.
      * exists x. split; [assumption|]. split; [lia|]. split; [intros; lia|].
        split; [intros i Hi; lia|]. exists []. split; reflexivity.
    + now apply Hd.
Qed.

Theorem matcher_text (r : regex) : SoundText r.
Proof.
  induction r as [|items|r1 IH1 r2 IH2|r1 IH1 r2 IH2|min max r IH|k r IH| | |];
    intros x c z H; simpl in H.
  - exists x. split; [assumption | now apply Consumes_refl].
  - destruct (String.get (endIndex x) input) as [ch|] eqn:G; [|discriminate].
    destruct (class_accepts ignoreCase items ch) eqn:A; [|discriminate].
    eexists. split; [exact H|]. constructor; simpl.
    + constructor.
      * lia.
      * intros k' Hk. simpl in Hk. inversion Hk. lia.
      * intros i Hi. assert (i = endIndex x) by lia. subst i. exists ch. now split.
    + exists []. repeat split. intros n b Hb. discriminate.
  - apply IH1 in H. destruct H as (y1 & H & [S1 (new1 & E1 & A1 & B1)]).
    apply IH2 in H. destruct H as (y2 & H & [S2 (new2 & E2 & A2 & B2)]).
    exists y2. split; [assumption|]. constructor.
    + now apply Span_seq with (m := endIndex y1).
    + exists (new2 ++ new1). split; [rewrite E2, E1; now rewrite app_assoc|]. split.
      * intros n Hn. simpl in Hn. apply orb_false_iff in Hn. destruct Hn as [Hn1 Hn2].
        rewrite lookup_app, (A2 n Hn2). now apply A1.
      * intros n b Hb. simpl in Hb. rewrite lookup_app.
        destruct (body r2 n) as [b2|] eqn:Eb.
        -- inversion Hb; subst b2. destruct (B2 n b Eb) as (s & e & Hl & Hs).
           rewrite Hl. now exists s, e.
        -- destruct (mentions r2 n) eqn:M2; [discriminate|].
           rewrite (A2 n M2). now apply B1.
  - assert (Hw : forall r', RegExp.SoundText ignoreCase input r' ->
              (forall s e, Span ignoreCase input r' s e ->
                           Span ignoreCase input (Alt r1 r2) s e) ->
              (forall n, mentions (Alt r1 r2) n = false -> mentions r' n = false) ->
              matcher r' x c = Some z ->
              exists y, c y = Some z /\ Consumes ignoreCase input (Alt r1 r2) x y).
    { intros r' Hs Hsp Hm Hz. apply Hs in Hz.
      destruct Hz as (y & Hy & [S (new & E & A & _)]).
      exists y. split; [assumption|]. constructor; [now apply Hsp|].
      exists new. split; [assumption|]. split.
      - intros n Hn. apply A. now apply Hm.
      - intros n b Hb. discriminate. }
    destruct (matcher r1 x c) as [z1|] eqn:E1.
    + inversion H; subst z1. apply (Hw r1 IH1); try assumption.
      * intros s e Hs. apply Span_alt. now left.
      * intros n Hn. simpl in Hn. now apply orb_false_iff in Hn.
    + apply (Hw r2 IH2); try assumption.
      * intros s e Hs. apply Span_alt. now right.
      * intros n Hn. simpl in Hn. now apply orb_false_iff in Hn.
  - apply (repeat_text IH) in H.
    destruct H as (y & Hc & L & M & C & new & E & A).
    exists y. split; [assumption|]. constructor.
    + constructor; [assumption | | exact C].
      intros k' Hk. simpl in Hk. destruct max as [n|]; [|discriminate].
      destruct (maxlen r) as [k0|] eqn:Ek; [|discriminate].
      simpl in Hk. inversion Hk; subst. exact (M k0 eq_refl).
    + exists new. split; [assumption|]. split; [exact A|].
      intros n b Hb. discriminate.
  - apply IH in H. destruct H as (y & H & [S (new & E & A & B)]).
    eexists. split; [exact H|]. constructor; simpl.
    + destruct S as [L M C]. constructor; assumption.
    + exists ((k, (endIndex x, endIndex y)) :: new). split; [now rewrite E|]. split.
      * intros n Hn. simpl in Hn. apply orb_false_iff in Hn. destruct Hn as [Hk Hn].
        simpl. rewrite Hk. now apply A.
      * intros n b Hb. simpl in Hb. simpl. destruct (k =? n).
        -- inversion Hb; subst b. exists (endIndex x), (endIndex y). now split.
        -- now apply B.
  - destruct (atWordBoundary input (endIndex x)); [|discriminate].
    exists x. split; [assumption | now apply Consumes_refl].
  - destruct (endIndex x =? 0); [|discriminate].
    exists x. split; [assumption | now apply Consumes_refl].
  - destruct (endIndex x =? String.length input); [|discriminate].
    exists x. split; [assumption | now apply Consumes_refl].
Qed.

End SoundText.

(** The text of every array returned by [exec]. *)
Theorem exec_text (re : RegExp) (input : string) (lastIndex : nat) (m : ExecArray) :
  exec re input lastIndex = Some m -> ExecText re input m.
Proof.
  unfold exec. intros H.
  destruct (String.length input <? lastIndex); [discriminate|].
  destruct (scanFrom (flagI re) input (source re) (String.length input - lastIndex) lastIndex)
    as [[i y]|] eqn:S; [|discriminate].
  inversion H; subst m; clear H.
  apply scanFrom_found in S. destruct S as (_ & _ & H3).
  unfold matchAt in H3. apply matcher_text in H3.
  destruct H3 as (y' & Hy & [Sp (new & E & _ & B)]). inversion Hy; subst y'.
  simpl in *. rewrite app_nil_r in E. subst new.
  constructor; simpl; assumption.
Qed.

(** A span of the input, as a string. *)
Lemma slice_span (ic : bool) (input : string) (r : regex) (s e : nat) :
  Span ic input r s e ->
  String.length (Str.slice input s e) = e - s
  /\ Str.forallb (alphabet ic r) (Str.slice input s e) = true.
Proof.
  intros [L _ C]. unfold Str.slice.
  assert (C' : forall i, i < e - s ->
                 exists ch, String.get (s + i) input = Some ch
                            /\ alphabet ic r ch = true).
  { intros i Hi. apply C. lia. }
  clear C L. generalize dependent s. generalize (alphabet ic r). intros p.
  intros s. generalize (e - s). intros n. revert s n.
  induction input as [|a input IH]; intros s n C.
  - destruct n as [|n].
    + destruct s; simpl; split; reflexivity.
    + destruct (C 0) as (ch & G & _); [lia|]. destruct (s + 0); discriminate.
  - destruct s as [|s].
    + destruct n as [|n]; simpl; [split; reflexivity|].
      destruct (IH 0 n) as [Hl Hf].
      { intros i Hi. destruct (C (S i)) as (ch & G & A); [lia|]. exists ch. now split. }
      destruct (C 0) as (ch & G & A); [lia|]. simpl in G. inversion G; subst ch.
      rewrite Hl, Hf, A. split; reflexivity.
    + simpl. apply IH. intros i Hi. destruct (C i Hi) as (ch & G & A).
      exists ch. now split.
Qed.

Lemma forallb_impl (p q : ascii -> bool) (s : string) :
  (forall c, p c = true -> q c = true) ->
  Str.forallb p s = true -> Str.forallb q s = true.
Proof.
  intros H. induction s as [|c s IH]; simpl; [reflexivity|].
  intros Hp. apply andb_true_iff in Hp. destruct Hp as [Hc Hs].
  now rewrite (H c Hc), IH.
Qed.

Lemma forallb_map (p : ascii -> bool) (f : ascii -> ascii) (s : string) :
  Str.forallb p (Str.map f s) = Str.forallb (fun c => p (f c)) s.
Proof. induction s as [|c s IH]; simpl; [reflexivity | now rewrite IH]. Qed.

End TextFacts.

(** ** The shape of ids and numbers *)

Module ShapeFacts.
Import RegExp Loco Spec Shape RegExpFacts LoopFacts ArrayFacts BoundFacts ExtractFacts.
Import AnchorFacts TextFacts.

Lemma forEachMatch_loop_inv_exec (A : Type) (input : string) (re : RegExp)
      (cb : A -> ExecArray -> A) (P : A -> Prop) :
  (forall acc li m, P acc -> exec re input li = Some m -> P (cb acc m)) ->
  forall fuel li acc r,
    P acc -> forEachMatch_loop fuel input re cb li acc = Some r -> P r.
Proof.
  intros Hcb. induction fuel as [|fuel IH]; intros li acc r HP H; [discriminate|].
  simpl in H. destruct (exec re input li) as [m|] eqn:E.
  - apply IH in H; [assumption|]. eapply Hcb; eassumption.
  - inversion H; subst. exact HP.
Qed.

Lemma forEachMatch_inv_exec (A : Type) (input : string) (re : RegExp)
      (cb : A -> ExecArray -> A) (P : A -> Prop) (acc r : A) :
  (forall acc li m, P acc -> exec re input li = Some m -> P (cb acc m)) ->
  P acc -> forEachMatch input re cb acc = Some r -> P r.
Proof. intros Hcb HP H. eapply forEachMatch_loop_inv_exec; eassumption. Qed.

Ltac scan_inv P E :=
  refine (@forEachMatch_inv_exec _ _ _ _ P _ _ _ _ E);
  [ let acc := fresh "acc" in
    let li := fresh "li" in
    let m := fresh "m" in
    let HP := fresh "HP" in
    let X := fresh "X" in
    intros acc li m HP X
  | ].

Lemma hex_lower (c : ascii) :
  alphabet true (source ASSET_ID_REGEX_GLOBAL) c = true -> isHexLower (Chars.toLower c) = true.
Proof.
  destruct c as [[] [] [] [] [] [] [] []]; vm_compute; intros H; congruence.
Qed.

Lemma digit_char (ic : bool) (c : ascii) :
  alphabet ic (Rep 3 (Some 5) digit) c = true -> Chars.isDigit c = true.
Proof.
  destruct ic; destruct c as [[] [] [] [] [] [] [] []]; vm_compute; intros H; congruence.
Qed.

Lemma digit_lower (c : ascii) : Chars.isDigit (Chars.toLower c) = true -> Chars.toLower c = c.
Proof.
  destruct c as [[] [] [] [] [] [] [] []]; vm_compute; intros H; congruence.
Qed.

Lemma lower_digit (c : ascii) : Chars.isDigit c = true -> Chars.toLower c = c.
Proof.
  destruct c as [[] [] [] [] [] [] [] []]; vm_compute; intros H; congruence.
Qed.

Lemma lower_digits (t : string) :
  Str.forallb Chars.isDigit t = true -> Str.toLowerCase t = t.
Proof.
  induction t as [|c t IH]; simpl; [reflexivity|]. intros H.
  apply andb_true_iff in H. destruct H as [Hc Ht].
  unfold Str.toLowerCase in *. simpl. now rewrite (lower_digit _ Hc), IH.
Qed.

Lemma lower_digits_inv (t : string) :
  forall u, Str.forallb Chars.isDigit u = true -> Str.toLowerCase t = u -> t = u.
Proof.
  unfold Str.toLowerCase.
  induction t as [|c t IH]; intros u Hu E; simpl in E; [assumption|].
  destruct u as [|d u]; [discriminate|]. injection E as Ec Et. subst d. simpl in Hu.
  apply andb_true_iff in Hu. destruct Hu as [Hd Hu].
  rewrite (digit_lower _ Hd). f_equal. now apply IH.
Qed.

Lemma substring_substring (s : string) :
  forall a n b m, a + n <= m -> substring a n (substring b m s) = substring (a + b) n s.
Proof.
  induction s as [|c s IH]; intros a n b m H.
  - destruct b, m, a, n; reflexivity.
  - destruct b as [|b].
    + rewrite Nat.add_0_r. destruct m as [|m].
      * assert (a = 0) by lia. assert (n = 0) by lia. subst. reflexivity.
      * simpl. destruct a as [|a].
        -- destruct n as [|n]; simpl; [reflexivity|]. f_equal.
           specialize (IH 0 n 0 m). simpl in IH. apply IH. lia.
        -- specialize (IH a n 0 m). rewrite Nat.add_0_r in IH. apply IH. lia.
    + replace (a + S b) with (S (a + b)) by lia. simpl. apply IH. exact H.
Qed.

Lemma lastIndexOf_from_prefix (s t : string) :
  forall i k, Str.lastIndexOf_from s t i = Some k -> prefix t (Str.sliceFrom s k) = true.
Proof.
  induction i as [|i IH]; intros k H; simpl in H.
  - destruct (prefix t (Str.sliceFrom s 0)) eqn:E; [|discriminate]. now inversion H; subst.
  - destruct (prefix t (Str.sliceFrom s (S i))) eqn:E; [now inversion H; subst|].
    now apply IH.
Qed.

Lemma lastIndexOf_from_found (s t : string) (j : nat) :
  prefix t (Str.sliceFrom s j) = true ->
  forall i, j <= i -> exists k, Str.lastIndexOf_from s t i = Some k /\ j <= k.
Proof.
  intros P. induction i as [|i IH]; intros H; simpl.
  - assert (j = 0) by lia. subst. rewrite P. now exists 0.
  - destruct (prefix t (Str.sliceFrom s (S i))) eqn:E; [now exists (S i)|].
    apply IH. destruct (Nat.eq_dec j (S i)) as [->|]; [congruence | lia].
Qed.

(** An occurrence of [t] in [s] at [k], as [prefix] sees it. *)
Lemma prefix_sliceFrom (s t : string) (k : nat) :
  k + String.length t <= String.length s ->
  (prefix t (Str.sliceFrom s k) = true <-> substring k (String.length t) s = t).
Proof.
  intros H. rewrite prefix_correct. unfold Str.sliceFrom.
  rewrite substring_substring by lia. now rewrite Nat.add_0_l.
Qed.

(** Where Phase 1 puts a number: [numText], a digit string that stands in
    the input inside the match, is found by [lastIndexOf] at a place where
    the input has it, not before the place of the group. *)
Lemma keyword_offset (input : string) (i e' s e : nat) :
  i <= s -> e <= e' -> e' <= String.length input -> s <= e ->
  Str.forallb Chars.isDigit (Str.slice input s e) = true ->
  exists k,
    Str.lastIndexOf (Str.toLowerCase (Str.slice input i e'))
                    (Str.toLowerCase (Str.slice input s e)) = Some k
    /\ Str.slice input s e
       = Str.slice input (i + k) (i + k + String.length (Str.slice input s e))
    /\ s - i <= k
    /\ k + (e - s) <= e' - i.
Proof.
  intros H1 H2 H3 H4 D. rewrite (lower_digits _ D).
  set (nt := Str.slice input s e) in *.
  set (full := Str.slice input i e').
  assert (Ln : String.length nt = e - s) by (apply StrFacts.length_slice; lia).
  assert (Lf : String.length full = e' - i) by (apply StrFacts.length_slice; lia).
  assert (Ll : String.length (Str.toLowerCase full) = e' - i).
  { unfold Str.toLowerCase. now rewrite StrFacts.length_map. }
  assert (Occ : forall k, k + String.length nt <= e' - i ->
                 substring k (String.length nt) (Str.toLowerCase full)
                 = Str.toLowerCase (Str.slice input (i + k) (i + k + String.length nt))).
  { intros k Hk. unfold Str.toLowerCase. rewrite <- map_substring. f_equal.
    unfold full, Str.slice. rewrite substring_substring by lia.
    f_equal; lia. }
  destruct (@lastIndexOf_from_found (Str.toLowerCase full) nt (s - i)) with
    (i := String.length (Str.toLowerCase full)) as (k & Hk & Hjk).
  { apply prefix_sliceFrom; [lia|]. rewrite Occ by lia.
    replace (i + (s - i)) with s by lia. rewrite Ln.
    replace (s + (e - s)) with e by lia. now apply lower_digits. }
  { lia. }
  exists k. split; [exact Hk|].
  pose proof (StrFacts.lastIndexOf_bound _ _ Hk) as B.
  split; [|lia].
  apply lastIndexOf_from_prefix in Hk. apply prefix_sliceFrom in Hk; [|exact B].
  rewrite Occ in Hk by lia. symmetry. now apply lower_digits_inv.
Qed.


Lemma asset_whole (input : string) (li : nat) (m : ExecArray) :
  exec ASSET_ID_REGEX_GLOBAL input li = Some m ->
  lastEnd m = index m + 24
  /\ String.length (whole m) = 24
  /\ isAssetId (Str.toLowerCase (whole m)) = true.
Proof.
  intros E. pose proof (exec_valid _ _ _ E) as V. pose proof (exec_text _ _ _ E) as [T _].
  pose proof (whole_length V) as W.
  destruct V as [_ L B Wh _].
  pose proof (span_max T (k := 24) eq_refl) as M.
  change (minlen (source ASSET_ID_REGEX_GLOBAL)) with 24 in L.
  assert (Hend : lastEnd m = index m + 24) by lia.
  apply slice_span in T. destruct T as [_ F]. rewrite <- Wh in F.
  split; [assumption|]. split; [lia|].
  unfold isAssetId. unfold Str.toLowerCase. rewrite StrFacts.length_map.
  replace (String.length (whole m)) with 24 by lia. simpl.
  rewrite forallb_map. revert F. apply forallb_impl. apply hex_lower.
Qed.

Lemma assetId_cb_shape (input : string) (st : AssetAcc) (li : nat) (m : ExecArray) :
  exec ASSET_ID_REGEX_GLOBAL input li = Some m ->
  acc_assetIds st = List.map (fun r => Str.toLowerCase (text r)) (acc_assetMatches st)
  /\ Forall (AssetMatch input) (acc_assetMatches st) ->
  acc_assetIds (assetId_cb st m)
  = List.map (fun r => Str.toLowerCase (text r)) (acc_assetMatches (assetId_cb st m))
  /\ Forall (AssetMatch input) (acc_assetMatches (assetId_cb st m)).
Proof.
  intros E [H1 H2]. destruct (asset_whole _ _ E) as (He & Hl & Hid).
  pose proof (ve_whole (exec_valid _ _ _ E)) as W.
  unfold assetId_cb. simpl. split.
  - rewrite map_app, H1. reflexivity.
  - apply Forall_snoc; [assumption|]. constructor; simpl; try assumption.
    + reflexivity.
    + lia.
    + unfold sliceOfInput. simpl. rewrite Hl, <- He. exact W.
Qed.

Lemma assetScan_shape (input : string) (st : AssetAcc) :
  assetScan input = Some st ->
  acc_assetIds st = List.map (fun r => Str.toLowerCase (text r)) (acc_assetMatches st)
  /\ Forall (AssetMatch input) (acc_assetMatches st).
Proof.
  unfold assetScan. intros E.
  scan_inv (fun st => acc_assetIds st
                      = List.map (fun r => Str.toLowerCase (text r)) (acc_assetMatches st)
                      /\ Forall (AssetMatch input) (acc_assetMatches st)) E.
  - now apply assetId_cb_shape with (li := li).
  - split; [reflexivity | constructor].
Qed.

(** A run of 3 to 5 digits, as a string. *)
Lemma digits_span (ic : bool) (input : string) (s e : nat) :
  Span ic input (Rep 3 (Some 5) digit) s e ->
  s + 3 <= e -> e <= String.length input ->
  isLocoNo (Str.slice input s e) = true.
Proof.
  intros T L B. pose proof (span_max T (k := 5) eq_refl) as M.
  apply slice_span in T. destruct T as [Hl F].
  unfold isLocoNo. rewrite Hl.
  replace (3 <=? e - s) with true by (symmetry; apply Nat.leb_le; lia).
  replace (e - s <=? 5) with true by (symmetry; apply Nat.leb_le; lia).
  simpl. revert F. apply forallb_impl. apply digit_char.
Qed.

Lemma isLocoNo_digits (n : string) :
  isLocoNo n = true -> Str.forallb Chars.isDigit n = true.
Proof. unfold isLocoNo. intros H. apply andb_true_iff in H. tauto. Qed.

Lemma keyword_cb_shape (re : RegExp) (input : string) (st : LocoAcc)
      (li : nat) (m : ExecArray) :
  sets (source re) 2 = Some 3 ->
  body (source re) 2 = Some (Rep 3 (Some 5) digit) ->
  exec re input li = Some m ->
  acc_locoNos st = List.map text (acc_locoMatches st)
  /\ Forall (LocoMatch input) (acc_locoMatches st) ->
  acc_locoNos (keyword_cb input st m) = List.map text (acc_locoMatches (keyword_cb input st m))
  /\ Forall (LocoMatch input) (acc_locoMatches (keyword_cb input st m)).
Proof.
  intros Hs Hb E [H1 H2]. unfold keyword_cb.
  destruct (negb (includes (acc_locoNos st) (group input m 2))); [|now split].
  simpl. split; [now rewrite map_app, H1|].
  apply Forall_snoc; [assumption|].
  pose proof (exec_valid _ _ _ E) as V. pose proof (exec_text _ _ _ E) as [_ G].
  destruct (G 2 _ Hb) as (s & e & Hl & Sp).
  destruct V as [_ _ B W [Wi _ S]].
  destruct (S 2 3 Hs) as (s' & e' & Hl' & Hk). rewrite Hl in Hl'.
  inversion Hl'; subst s' e'; clear Hl'.
  apply lookup_in in Hl as Hin. rewrite Forall_forall in Wi. apply Wi in Hin.
  unfold within in Hin. simpl in Hin.
  assert (Hg : group input m 2 = Str.slice input s e) by (unfold group; now rewrite Hl).
  rewrite Hg, W.
  assert (No : isLocoNo (Str.slice input s e) = true) by (apply (digits_span Sp); lia).
  destruct (@keyword_offset input (index m) (lastEnd m) s e) as (k & Hk1 & Hk2 & _);
    try lia.
  { now apply isLocoNo_digits. }
  rewrite Hk1. constructor; simpl; [reflexivity | exact Hk2 | exact No].
Qed.

Lemma keywordPhases_shape (input : string) (st1 : LocoAcc) :
  keywordPhases input = Some st1 ->
  acc_locoNos st1 = List.map text (acc_locoMatches st1)
  /\ Forall (LocoMatch input) (acc_locoMatches st1).
Proof.
  unfold keywordPhases. intros E.
  destruct (forEachMatch input LOCO_KEYWORD_NUMBER_GLOBAL (keyword_cb input)
                         (mkLocoAcc [] [] [])) as [st1a|] eqn:Ea; [|discriminate].
  simpl in E.
  scan_inv (fun st => acc_locoNos st = List.map text (acc_locoMatches st)
                      /\ Forall (LocoMatch input) (acc_locoMatches st)) E.
  - now apply keyword_cb_shape with (re := LOCO_KEYWORD_NUMBER_CONCAT_GLOBAL) (li := li).
  - scan_inv (fun st => acc_locoNos st = List.map text (acc_locoMatches st)
                        /\ Forall (LocoMatch input) (acc_locoMatches st)) Ea.
    + now apply keyword_cb_shape with (re := LOCO_KEYWORD_NUMBER_GLOBAL) (li := li).
    + split; [reflexivity | constructor].
Qed.

Lemma generic_cb_shape (input : string) (hasDomain : bool) (locoNos : list string)
      (cands : list Candidate) (li : nat) (m : ExecArray) :
  exec LOCO_NUMBER_GLOBAL input li = Some m ->
  Forall (fun c => LocoMatch input (candidateMatch c)) cands ->
  Forall (fun c => LocoMatch input (candidateMatch c))
         (generic_cb input hasDomain locoNos cands m).
Proof.
  intros E H. unfold generic_cb.
  destruct (includes locoNos (whole m)); [assumption|].
  destruct (isFollowedByDayish input _); [assumption|].
  destruct (looksLikeCountNumber input _ _); [assumption|].
  destruct (looksLikeYear _); [assumption|].
  apply Forall_snoc; [assumption|].
  pose proof (exec_valid _ _ _ E) as V. pose proof (exec_text _ _ _ E) as [T _].
  pose proof (whole_length V) as Wl. destruct V as [_ L B W _].
  change (minlen (source LOCO_NUMBER_GLOBAL)) with 3 in L.
  assert (Sp : Span false input (Rep 3 (Some 5) digit) (index m) (lastEnd m)).
  { destruct T as [T1 T2 T3]. constructor; [assumption | |].
    - intros k Hk. apply T2. inversion Hk; subst. reflexivity.
    - intros i Hi. destruct (T3 i Hi) as (ch & G & A). exists ch. split; [assumption|].
      cbn in A |- *. rewrite ?orb_false_r in *. exact A. }
  constructor; simpl.
  - reflexivity.
  - unfold sliceOfInput. simpl. rewrite Wl.
    replace (index m + (lastEnd m - index m)) with (lastEnd m) by lia. exact W.
  - rewrite W. apply (digits_span Sp); lia.
Qed.

Lemma genericCandidates_shape (input : string) (locoNos : list string)
      (cands : list Candidate) :
  genericCandidates input locoNos = Some cands ->
  Forall (fun c => LocoMatch input (candidateMatch c)) cands.
Proof.
  unfold genericCandidates. intros E.
  scan_inv (Forall (fun c => LocoMatch input (candidateMatch c))) E.
  - now apply generic_cb_shape with (li := li).
  - constructor.
Qed.

Lemma extractLocoNos_shape (input : string) (st1 : LocoAcc) (cands : list Candidate) :
  keywordPhases input = Some st1 ->
  genericCandidates input (acc_locoNos st1) = Some cands ->
  acc_locoNos (acceptCandidates st1 cands)
  = List.map text (acc_locoMatches (acceptCandidates st1 cands))
  /\ Forall (LocoMatch input) (acc_locoMatches (acceptCandidates st1 cands)).
Proof.
  intros E1 E2. apply keywordPhases_shape in E1. apply genericCandidates_shape in E2.
  destruct E1 as [H1 H2].
  rewrite acceptCandidates_locoNos, acceptCandidates_matches. split.
  - rewrite map_app, H1, map_map. reflexivity.
  - apply Forall_app. split; [assumption|].
    rewrite Forall_forall in *. intros r Hr. apply in_map_iff in Hr.
    destruct Hr as (c & <- & Hc). apply filter_In in Hc. exact (E2 c (proj1 Hc)).
Qed.


(** *** Names *)



Lemma NoDup_snoc (A : Type) (l : list A) (x : A) :
  NoDup l -> ~ In x l -> NoDup (l ++ [x]).
Proof.
  intros H N. apply NoDup_app; [assumption | repeat constructor; intros [] | ].
  intros y Hy [<-|[]]. contradiction.
Qed.

Lemma pushName_inv (st : NameAcc) (nm t : string) (s e : nat) :
  NamesInv st -> ~ In nm (acc_names st) ->
  NamesInv (pushName st nm (mkRaw nameKind t s e)).
Proof.
  intros [K L N] H. constructor; simpl.
  - now apply Forall_snoc.
  - rewrite !length_app. simpl. lia.
  - now apply NoDup_snoc.
Qed.

Lemma not_includes (arr : list string) (v : string) :
  includes arr v = false -> ~ In v arr.
Proof. intros E H. apply includes_In in H. congruence. Qed.

Lemma nospace_cb_inv (input : string) (st : NameAcc) (m : ExecArray) :
  NamesInv st -> NamesInv (nospace_cb input st m).
Proof.
  intros H. unfold nospace_cb.
  destruct (isStopword _); [assumption|].
  destruct (negb (modelish _)); [assumption|].
  destruct (includes (acc_names st) _) eqn:E; [assumption|].
  apply pushName_inv; [assumption | now apply not_includes].
Qed.

Lemma phrase_cb_inv (input : string) (st : NameAcc) (m : ExecArray) :
  NamesInv st -> NamesInv (phrase_cb input st m).
Proof.
  intros H. unfold phrase_cb.
  destruct (exec AFTER_NUMBER_REGEX _ 0); [|assumption].
  destruct (isStopword _); [assumption|].
  destruct (negb (List.existsb modelish _)); [assumption|].
  destruct (List.length _ <? 2); [assumption|].
  destruct (includes (acc_names st) _) eqn:E; [assumption|].
  apply pushName_inv; [assumption | now apply not_includes].
Qed.

Lemma prefix_refl (s : string) : prefix s s = true.
Proof.
  induction s as [|c s IH]; simpl; [reflexivity|].
  destruct (ascii_dec c c); [assumption | congruence].
Qed.

Lemma contains_refl (s : string) : contains s s = true.
Proof.
  unfold contains, Str.indexOf. destruct s as [|c s]; [reflexivity|].
  pose proof (prefix_refl (String c s)) as P.
  change (String.index 0 (String c s) (String c s))
    with (if prefix (String c s) (String c s) then Some 0
          else match String.index 0 (String c s) s with
               | Some n => Some (S n)
               | None => None
               end).
  now rewrite P.
Qed.

Lemma model_cb_inv (input : string) (st : NameAcc) (m : ExecArray) :
  NamesInv st -> NamesInv (model_cb input st m).
Proof.
  intros H. unfold model_cb.
  destruct (isStopword _); [assumption|].
  destruct (negb (test MODELISH_REGEX _)); [assumption|].
  destruct (negb (nearKeywords _ _ _ _)); [assumption|].
  destruct (List.existsb _ (acc_names st)) eqn:E; [assumption|].
  apply pushName_inv; [assumption|].
  intros Hin. assert (List.existsb (fun nm => contains nm (whole m)) (acc_names st) = true).
  { apply existsb_exists. exists (whole m). split; [assumption | apply contains_refl]. }
  congruence.
Qed.

Lemma namePhases_inv (input : string) (st : NameAcc) :
  namePhases input = Some st -> NamesInv st.
Proof.
  unfold namePhases. intros E.
  destruct (forEachMatch input LOCO_NAME_NOSPACE_GLOBAL (nospace_cb input)
                         (mkNameAcc [] [])) as [st0|] eqn:E0; [|discriminate].
  simpl in E.
  destruct (forEachMatch input LOCO_NUMBER_START_GLOBAL (phrase_cb input) st0)
    as [st1|] eqn:E1; [|discriminate].
  simpl in E.
  scan_inv NamesInv E; [now apply model_cb_inv|].
  scan_inv NamesInv E1; [now apply phrase_cb_inv|].
  scan_inv NamesInv E0; [now apply nospace_cb_inv|].
  constructor; simpl; [constructor | reflexivity | constructor].
Qed.

(** [uniq] leaves an array without repetitions as it is. *)
Lemma uniq_NoDup_id (arr : list string) : NoDup arr -> uniq arr = arr.
Proof.
  rewrite uniq_firstOccurrences.
  induction 1 as [|v l Hv Hl IH]; simpl; [reflexivity|]. rewrite IH. f_equal.
  clear - Hv. induction l as [|w l IH]; simpl; [reflexivity|].
  destruct (String.eqb v w) eqn:E.
  - apply String.eqb_eq in E. subst. exfalso. apply Hv. now left.
  - simpl. f_equal. apply IH. intros H. apply Hv. now right.
Qed.

Lemma uniq_length (arr : list string) : List.length (uniq arr) <= List.length arr.
Proof.
  apply NoDup_incl_length; [apply uniq_NoDup|]. intros v. apply uniq_In.
Qed.

Lemma uniq_nil_iff (arr : list string) : uniq arr = [] <-> arr = [].
Proof.
  split; [|now intros ->]. destruct arr as [|v arr]; [reflexivity|]. intros H.
  assert (In v (uniq (v :: arr))) by (apply uniq_In; now left).
  rewrite H in *. contradiction.
Qed.

(** The parts of the record returned for an input. *)
Lemma query_parts (input : string) :
  exists sa st1 cands sn q,
    assetScan input = Some sa
    /\ keywordPhases input = Some st1
    /\ genericCandidates input (acc_locoNos st1) = Some cands
    /\ namePhases input = Some sn
    /\ extractLocoQuery input = Some q
    /\ assetIds q = uniq (acc_assetIds sa)
    /\ locoNos q = uniq (acc_locoNos (acceptCandidates st1 cands))
    /\ names q = uniq (acc_names sn)
    /\ rawMatches q
       = sortByStart (acc_assetMatches sa
                      ++ acc_locoMatches (acceptCandidates st1 cands)
                      ++ acc_nameMatches sn)
    /\ confidence q = computeConfidence (assetIds q) (locoNos q) (names q)
    /\ assetId q = hd_error (assetIds q)
    /\ locoNo q = hd_error (locoNos q)
    /\ name q = hd_error (names q).
Proof.
  destruct (extractAssetIds_run input) as (sa & Es & Ea & _).
  destruct (extractLocoNos_run input) as (st1 & cands & E1 & E2 & El & _).
  destruct (extractNames_run input) as (sn & Ep & En & _).
  exists sa, st1, cands, sn. eexists.
  split; [exact Es|]. split; [exact E1|]. split; [exact E2|]. split; [exact Ep|].
  split.
  - unfold extractLocoQuery. rewrite Ea. simpl. rewrite El. simpl. rewrite En. reflexivity.
  - simpl. repeat split; reflexivity.
Qed.

Lemma kinds_of_parts (input : string) (sa : AssetAcc) (st1 : LocoAcc)
      (cands : list Candidate) (sn : NameAcc) :
  assetScan input = Some sa ->
  keywordPhases input = Some st1 ->
  genericCandidates input (acc_locoNos st1) = Some cands ->
  namePhases input = Some sn ->
  Forall (fun r => kind r = assetIdKind) (acc_assetMatches sa)
  /\ Forall (fun r => kind r = locoNoKind) (acc_locoMatches (acceptCandidates st1 cands))
  /\ Forall (fun r => kind r = nameKind) (acc_nameMatches sn).
Proof.
  intros Es E1 E2 En.
  apply assetScan_shape in Es. destruct (extractLocoNos_shape _ E1 E2) as [_ Hl].
  apply namePhases_inv in En. destruct Es as [_ Ha]. destruct En as [Hn _ _].
  split; [|split]; [| |assumption].
  - eapply Forall_impl; [|exact Ha]. now intros r [].
  - eapply Forall_impl; [|exact Hl]. now intros r [].
Qed.

End ShapeFacts.

(** ** The raw matches, kind by kind *)

Module PartsFacts.
Import RegExp Loco Spec Shape ArrayFacts.

(** The raw matches of one kind are those of the extractor of that kind. *)
Lemma raw_by_kind (am lm nm : list RawMatch) (r : RawMatch) :
  Forall (fun r => kind r = assetIdKind) am ->
  Forall (fun r => kind r = locoNoKind) lm ->
  Forall (fun r => kind r = nameKind) nm ->
  (In r (sortByStart (am ++ lm ++ nm)) /\ kind r = assetIdKind <-> In r am)
  /\ (In r (sortByStart (am ++ lm ++ nm)) /\ kind r = locoNoKind <-> In r lm)
  /\ (In r (sortByStart (am ++ lm ++ nm)) /\ kind r = nameKind <-> In r nm).
Proof.
  rewrite !Forall_forall. intros Ha Hl Hn. rewrite sortByStart_In, !in_app_iff.
  repeat split; try tauto.
  - intros [[H|[H|H]] K]; [assumption | apply Hl in H | apply Hn in H]; congruence.
  - now apply Ha.
  - intros [[H|[H|H]] K]; [apply Ha in H | assumption | apply Hn in H]; congruence.
  - now apply Hl.
  - intros [[H|[H|H]] K]; [apply Ha in H | apply Hl in H | assumption]; congruence.
  - now apply Hn.
Qed.

End PartsFacts.

(** ** The sort of the raw matches *)

Module SortFacts.
Import RegExp Loco Spec Shape ArrayFacts.

Lemma insertByStart_perm (x : RawMatch) (l : list RawMatch) :
  Permutation (x :: l) (insertByStart x l).
Proof.
  induction l as [|y l IH]; simpl; [apply Permutation_refl|].
  destruct (start x <=? start y); [apply Permutation_refl|].
  eapply perm_trans; [apply perm_swap|]. now apply perm_skip.
Qed.

Lemma sortByStart_perm (l : list RawMatch) : Permutation l (sortByStart l).
Proof.
  induction l as [|x l IH]; simpl; [constructor|].
  eapply perm_trans; [|apply insertByStart_perm]. now apply perm_skip.
Qed.

(** The matches that start at one offset keep their order. *)
Lemma insertByStart_stable (s : nat) (x : RawMatch) (l : list RawMatch) :
  List.filter (startsAt s) (insertByStart x l) = List.filter (startsAt s) (x :: l).
Proof.
  induction l as [|y l IH]; [reflexivity|].
  cbn [insertByStart]. destruct (start x <=? start y) eqn:E; [reflexivity|].
  apply Nat.leb_gt in E.
  cbn [List.filter] in *. rewrite IH. unfold startsAt.
  destruct (start x =? s) eqn:Ex; destruct (start y =? s) eqn:Ey; try reflexivity.
  apply Nat.eqb_eq in Ex, Ey. lia.
Qed.

Lemma sortByStart_stable (s : nat) (l : list RawMatch) :
  List.filter (startsAt s) (sortByStart l) = List.filter (startsAt s) l.
Proof.
  induction l as [|x l IH]; [reflexivity|].
  cbn [sortByStart fold_right]. fold (sortByStart l).
  rewrite insertByStart_stable. cbn [List.filter]. now rewrite IH.
Qed.

Lemma sortByStart_length (l : list RawMatch) :
  List.length (sortByStart l) = List.length l.
Proof. symmetry. apply Permutation_length, sortByStart_perm. Qed.

Lemma filter_perm (A : Type) (f : A -> bool) (l l' : list A) :
  Permutation l l' -> Permutation (List.filter f l) (List.filter f l').
Proof.
  induction 1 as [|x l l' H IH|x y l|l l' l'' H1 IH1 H2 IH2]; simpl.
  - constructor.
  - destruct (f x); [now constructor | assumption].
  - destruct (f x), (f y); try apply Permutation_refl. apply perm_swap.
  - eapply perm_trans; eassumption.
Qed.

Lemma countKind_sort (k : RawMatchKind) (l : list RawMatch) :
  countKind k (sortByStart l) = countKind k l.
Proof.
  unfold countKind. symmetry. apply Permutation_length, filter_perm, sortByStart_perm.
Qed.

Lemma countKind_app (k : RawMatchKind) (l l' : list RawMatch) :
  countKind k (l ++ l') = countKind k l + countKind k l'.
Proof. unfold countKind. now rewrite filter_app, length_app. Qed.

Lemma countKind_all (k k' : RawMatchKind) (l : list RawMatch) :
  Forall (fun r => kind r = k') l ->
  countKind k l = if isKind k (mkRaw k' "" 0 0) then List.length l else 0.
Proof.
  unfold countKind. induction 1 as [|r l Hr Hl IH]; simpl.
  - now destruct (isKind k _).
  - unfold isKind at 1. rewrite Hr. unfold isKind in IH. simpl in IH.
    unfold isKind. simpl.
    destruct k, k'; simpl in *; rewrite IH; reflexivity.
Qed.

End SortFacts.

(** ** The order and the reach of a scan *)

Module ScanFacts.
Import RegExp Loco Spec Shape RegExpFacts LoopFacts.

Local Abbreviation collect := (fun (ms : list ExecArray) (m : ExecArray) => ms ++ [m]).

(** [exec] finds the leftmost index at which the pattern matches. *)
Lemma scanFrom_complete (ic : bool) (input : string) (r : regex) (p : nat) :
  matchAt ic input r p <> None ->
  forall span i, i <= p -> p <= i + span ->
    exists j y, scanFrom ic input r span i = Some (j, y) /\ j <= p.
Proof.
  intros M. induction span as [|span IH]; intros i H1 H2; simpl.
  - assert (i = p) by lia. subst.
    destruct (matchAt ic input r p) as [y|]; [|congruence]. exists p, y. split; [reflexivity | lia].
  - destruct (matchAt ic input r i) as [y|] eqn:E.
    + exists i, y. split; [reflexivity | lia].
    + destruct (Nat.eq_dec i p) as [->|N]; [congruence|].
      apply IH; lia.
Qed.

Lemma exec_complete (re : RegExp) (input : string) (li p : nat) :
  li <= p -> p <= String.length input ->
  matchAt (flagI re) input (source re) p <> None ->
  exists m, exec re input li = Some m /\ index m <= p.
Proof.
  intros H1 H2 M. unfold exec.
  replace (String.length input <? li) with false by (symmetry; apply Nat.ltb_ge; lia).
  destruct (@scanFrom_complete (flagI re) input (source re) p M
              (String.length input - li) li) as (j & y & E & Hj); [lia | lia |].
  rewrite E. eexists. split; [reflexivity | exact Hj].
Qed.

Lemma exec_matchAt (re : RegExp) (input : string) (li : nat) (m : ExecArray) :
  exec re input li = Some m ->
  matchAt (flagI re) input (source re) (index m)
  = Some (mkState (lastEnd m) (groups m)).
Proof.
  unfold exec. destruct (String.length input <? li); [discriminate|].
  destruct (scanFrom _ _ _ _ _) as [[i y]|] eqn:S; [|discriminate].
  intros H. inversion H; subst; clear H. simpl.
  apply scanFrom_found in S. destruct S as (_ & _ & S). rewrite S. now destruct y.
Qed.

Lemma index_lt_next (re : RegExp) (input : string) (li : nat) (m : ExecArray) :
  ValidExec re input li m -> index m < nextLastIndex m /\ lastEnd m <= nextLastIndex m.
Proof.
  intros V. pose proof (whole_length V) as W. destruct V as [_ L _ _ _].
  unfold nextLastIndex. destruct (String.eqb (whole m) "") eqn:E; [lia|].
  assert (String.length (whole m) <> 0).
  { intros H. apply StrFacts.string_eqb_empty in H. congruence. }
  lia.
Qed.

(** One turn of the loop that collects the matches. *)
Lemma collect_step (input : string) (re : RegExp) (fuel li : nat) :
  forEachMatch_loop (S fuel) input re collect li []
  = match exec re input li with
    | None => Some []
    | Some m => option_map (cons m)
                           (forEachMatch_loop fuel input re collect (nextLastIndex m) [])
    end.
Proof.
  simpl. destruct (exec re input li) as [m|]; [|reflexivity].
  now rewrite collect_prefix.
Qed.

Lemma collect_ordered (input : string) (re : RegExp) :
  forall fuel li ms,
    forEachMatch_loop fuel input re collect li [] = Some ms ->
    StronglySorted follows ms
    /\ Forall (fun m => exists li', li <= li' /\ exec re input li' = Some m) ms.
Proof.
  induction fuel as [|fuel IH]; intros li ms H; [discriminate|].
  rewrite collect_step in H. destruct (exec re input li) as [m|] eqn:E.
  - destruct (forEachMatch_loop fuel input re _ (nextLastIndex m) []) as [ms'|] eqn:E';
      [|discriminate].
    inversion H; subst ms; clear H. apply IH in E'. destruct E' as [S F].
    pose proof (exec_valid _ _ _ E) as V.
    destruct (index_lt_next V) as [N1 N2]. destruct (nextLastIndex_progress V) as [N3 _].
    split.
    + constructor; [assumption|]. eapply Forall_impl; [|exact F].
      intros m' (li' & Hli & Em'). apply exec_valid in Em'. destruct Em' as [Fm _ _ _ _].
      unfold follows. lia.
    + constructor; [now exists li|]. eapply Forall_impl; [|exact F].
      intros m' (li' & Hli & Em'). exists li'. split; [lia | assumption].
  - inversion H; subst. split; constructor.
Qed.

Lemma collect_complete (input : string) (re : RegExp) (p : nat) :
  p <= String.length input ->
  matchAt (flagI re) input (source re) p <> None ->
  forall fuel li ms,
    li <= p ->
    forEachMatch_loop fuel input re collect li [] = Some ms ->
    exists m, In m ms /\ index m <= p < nextLastIndex m.
Proof.
  intros Hp M. induction fuel as [|fuel IH]; intros li ms Hli H; [discriminate|].
  rewrite collect_step in H.
  destruct (exec_complete re input Hli Hp M) as (m & E & Hm). rewrite E in H.
  destruct (forEachMatch_loop fuel input re _ (nextLastIndex m) []) as [ms'|] eqn:E';
    [|discriminate].
  inversion H; subst ms; clear H.
  destruct (Nat.lt_ge_cases p (nextLastIndex m)) as [C|C].
  - exists m. split; [now left | lia].
  - destruct (IH _ _ C E') as (m' & Hin & Hm'). exists m'. split; [now right | assumption].
Qed.

Lemma allMatches_total (input : string) (re : RegExp) :
  exists ms, allMatches input re = Some ms.
Proof. apply forEachMatch_total. Qed.

(** The first match of a scan, when the pattern matches somewhere. *)
Lemma allMatches_test (input : string) (re : RegExp) (ms : list ExecArray) :
  allMatches input re = Some ms -> test re input = true -> ms <> [].
Proof.
  unfold allMatches, forEachMatch, test.
  replace (String.length input + 2) with (S (String.length input + 1)) by lia.
  rewrite collect_step. destruct (exec re input 0) as [m|]; [|discriminate].
  destruct (forEachMatch_loop _ _ _ _ _ _); simpl; [|discriminate].
  intros H _. inversion H. discriminate.
Qed.

End ScanFacts.

(** ** Where asset ids stand *)

Module AssetFacts.
Import RegExp Loco Spec Shape RegExpFacts LoopFacts ArrayFacts ShapeFacts ScanFacts.

(** A pattern [\b C{n} \b], for a class [C]. *)
Lemma bounded_run (ic : bool) (input : string) (items : list citem) (n : nat)
      (x : MatchState) (c : Continuation) :
  matcher ic input (Seqs [WordBoundary; Rep n (Some n) (Class items); WordBoundary]) x c
  = if atWordBoundary input (endIndex x)
    then repeat (matcher ic input (Class items)) n n x
                (fun y => if atWordBoundary input (endIndex y) then c y else None)
    else None.
Proof. reflexivity. Qed.

(** [C{n}] takes exactly [n] characters of the class. *)
Lemma repeat_exact (ic : bool) (input : string) (items : list citem) (c : Continuation) :
  forall n x,
    repeat (matcher ic input (Class items)) n n x c
    = if allAt (class_accepts ic items) input (endIndex x) n
      then c (mkState (endIndex x + n) (captures x))
      else None.
Proof.
  induction n as [|n IH]; intros x.
  - simpl. rewrite Nat.add_0_r. now destruct x.
  - cbn [repeat allAt Nat.eqb pred andb matcher].
    destruct (String.get (endIndex x) input) as [ch|]; [|reflexivity].
    destruct (class_accepts ic items ch); [|reflexivity].
    rewrite IH. simpl. now replace (endIndex x + S n) with (S (endIndex x + n)) by lia.
Qed.

Lemma allAt_ext (p q : ascii -> bool) (input : string) :
  (forall c, p c = q c) -> forall n i, allAt p input i n = allAt q input i n.
Proof.
  intros H. induction n as [|n IH]; intros i; simpl; [reflexivity|].
  destruct (String.get i input); [|reflexivity]. now rewrite H, IH.
Qed.

Lemma allAt_get (p : ascii -> bool) (input : string) :
  forall n i, allAt p input i n = true ->
              forall k, k < n -> exists ch, String.get (i + k) input = Some ch /\ p ch = true.
Proof.
  induction n as [|n IH]; intros i H k Hk; [lia|]. simpl in H.
  destruct (String.get i input) as [ch|] eqn:G; [|discriminate].
  apply andb_true_iff in H. destruct H as [Hc Hn].
  destruct k as [|k].
  - exists ch. rewrite Nat.add_0_r. now split.
  - replace (i + S k) with (S i + k) by lia. apply IH; [assumption | lia].
Qed.

Lemma hex_class (c : ascii) :
  class_accepts true [Range "a" "f"; Range "0" "9"] c = isHex c.
Proof. destruct c as [[] [] [] [] [] [] [] []]; reflexivity. Qed.

Lemma hex_wordChar (c : ascii) : isHex c = true -> Chars.isWordChar c = true.
Proof. destruct c as [[] [] [] [] [] [] [] []]; vm_compute; congruence. Qed.

Lemma allAt_wordChar (input : string) (i n k : nat) :
  allAt isHex input i n = true -> k < n -> isWordCharAt input (i + k) = true.
Proof.
  intros H Hk. destruct (@allAt_get isHex input n i H k Hk) as (ch & G & Hc).
  unfold isWordCharAt. rewrite G. now apply hex_wordChar.
Qed.

(** The pattern of asset ids matches at [i] exactly when an asset id
    stands there. *)
Lemma asset_matchAt (input : string) (i : nat) :
  matchAt true input (source ASSET_ID_REGEX_GLOBAL) i
  = if assetTokenAt input i then Some (mkState (i + 24) []) else None.
Proof.
  unfold matchAt. change (source ASSET_ID_REGEX_GLOBAL)
    with (Seqs [WordBoundary; Rep 24 (Some 24) (Class [Range "a" "f"; Range "0" "9"]);
                WordBoundary]).
  rewrite bounded_run, repeat_exact. cbn [endIndex captures].
  rewrite (allAt_ext _ _ input hex_class). unfold assetTokenAt.
  destruct (allAt isHex input i 24) eqn:A.
  - pose proof (@allAt_wordChar input i 24 0 A) as W0.
    pose proof (@allAt_wordChar input i 24 23 A) as W1.
    rewrite Nat.add_0_r in W0. specialize (W0 ltac:(lia)). specialize (W1 ltac:(lia)).
    unfold atWordBoundary. replace (i + 24) with (S (i + 23)) by lia.
    rewrite W0, W1. unfold wordCharBefore.
    destruct i as [|i].
    + simpl. now destruct (isWordCharAt input 24).
    + destruct (isWordCharAt input i); simpl; [reflexivity|].
      now destruct (isWordCharAt input (S (S i + 23))).
  - simpl. now destruct (atWordBoundary input i).
Qed.

Lemma assetTokenAt_bound (input : string) (i : nat) :
  assetTokenAt input i = true -> i + 24 <= String.length input.
Proof.
  unfold assetTokenAt. intros H. apply andb_true_iff in H. destruct H as [H _].
  apply andb_true_iff in H. destruct H as [H _].
  destruct (@allAt_get isHex input 24 i H 23) as (ch & G & _); [lia|].
  apply StrFacts.get_lt in G. lia.
Qed.

(** Two asset ids of an input do not overlap. *)
Lemma asset_tokens_apart (input : string) (i j : nat) :
  assetTokenAt input i = true -> assetTokenAt input j = true ->
  i <= j -> j < i + 24 -> i = j.
Proof.
  unfold assetTokenAt. intros Hi Hj H1 H2.
  destruct (Nat.eq_dec i j) as [|N]; [assumption|]. exfalso.
  apply andb_true_iff in Hi. destruct Hi as [Hi _].
  apply andb_true_iff in Hi. destruct Hi as [Hi _].
  apply andb_true_iff in Hj. destruct Hj as [Hj _].
  apply andb_true_iff in Hj. destruct Hj as [_ Hj].
  destruct j as [|j]; [lia|]. simpl in Hj.
  pose proof (@allAt_wordChar input i 24 (j - i) Hi) as W.
  replace (i + (j - i)) with j in W by lia. rewrite W in Hj by lia. discriminate.
Qed.

(** The ids pushed are the lower-cased texts of the matches of the scan. *)
Lemma assetScan_fold (ms : list ExecArray) :
  forall st,
    acc_assetIds (fold_left assetId_cb ms st)
    = acc_assetIds st ++ List.map (fun m => Str.toLowerCase (whole m)) ms.
Proof.
  induction ms as [|m ms IH]; intros st; simpl; [now rewrite app_nil_r|].
  rewrite IH. simpl. now rewrite <- app_assoc.
Qed.

(** The ids that the scan pushes are the asset ids of the input, in lower
    case. *)
Lemma assetScan_tokens (input : string) (sa : AssetAcc) (a : string) :
  assetScan input = Some sa ->
  (In a (acc_assetIds sa)
   <-> exists i, assetTokenAt input i = true
                 /\ a = Str.toLowerCase (Str.slice input i (i + 24))).
Proof.
  intros Es.
  destruct (allMatches_total input ASSET_ID_REGEX_GLOBAL) as [ms E].
  unfold assetScan in Es. rewrite forEachMatch_fold, E in Es. simpl in Es.
  inversion Es as [Esa]; clear Es.
  rewrite assetScan_fold. cbn [acc_assetIds app].
  unfold allMatches, forEachMatch in E.
  destruct (collect_ordered _ _ _ _ E) as [_ F]. rewrite Forall_forall in F.
  assert (T : forall m, In m ms ->
                assetTokenAt input (index m) = true
                /\ whole m = Str.slice input (index m) (index m + 24)
                /\ nextLastIndex m = index m + 24).
  { intros m Hin. destruct (F m Hin) as (li & _ & Em).
    pose proof (exec_matchAt _ _ _ Em) as M. cbn [flagI ASSET_ID_REGEX_GLOBAL] in M.
    rewrite asset_matchAt in M.
    destruct (assetTokenAt input (index m)); [|discriminate].
    inversion M as [[Hend Hg]]. pose proof (exec_valid _ _ _ Em) as V.
    pose proof (whole_length V) as Wl. pose proof (ve_whole V) as W.
    rewrite <- Hend in *. split; [reflexivity|].
    split; [exact W|]. unfold nextLastIndex.
    destruct (String.eqb (whole m) "") eqn:Ee; [|now rewrite <- Hend].
    apply StrFacts.string_eqb_empty in Ee. lia. }
  rewrite in_map_iff. split.
  - intros (m & <- & Hin). destruct (T m Hin) as (T1 & T3 & _).
    exists (index m). split; [exact T1 | now rewrite T3].
  - intros (i & Hi & ->).
    destruct (@collect_complete input ASSET_ID_REGEX_GLOBAL i) with
      (fuel := String.length input + 2) (li := 0) (ms := ms) as (m & Hin & Hm).
    + apply assetTokenAt_bound in Hi. lia.
    + cbn [flagI ASSET_ID_REGEX_GLOBAL]. rewrite asset_matchAt, Hi. discriminate.
    + lia.
    + exact E.
    + destruct (T m Hin) as (T1 & T3 & T4). rewrite T4 in Hm.
      assert (index m = i) by (apply (asset_tokens_apart input T1 Hi); lia).
      subst i. exists m. split; [now rewrite T3 | assumption].
Qed.

End AssetFacts.

(** ** How a match begins and ends *)

Module TailFacts.

Import RegExp Loco Spec Shape RegExpFacts LoopFacts TextFacts ScanFacts.

Lemma tail_boundary (ic : bool) (input : string) (r : regex) :
  endsWithBoundary r = true ->
  forall x c z, matcher ic input r x c = Some z ->
                exists y, c y = Some z /\ atWordBoundary input (endIndex y) = true.
Proof.
  induction r as [|items|r1 IH1 r2 IH2|r1 IH1 r2 IH2|min max r IH|k r IH| | |];
    intros E x c z H; simpl in E; try discriminate.
  - simpl in H. apply matcher_sound in H. destruct H as (y1 & H & _).
    now apply IH2 in H.
  - simpl in H. destruct (atWordBoundary input (endIndex x)) eqn:B; [|discriminate].
    now exists x.
Qed.

Lemma closes_sound (ic : bool) (input : string) (n : nat) (r : regex) :
  closes r n = true ->
  forall x c z, matcher ic input r x c = Some z ->
                exists y new s, c y = Some z
                                /\ captures y = new ++ captures x
                                /\ lookup n new = Some (s, endIndex y).
Proof.
  induction r as [|items|r1 IH1 r2 IH2|r1 IH1 r2 IH2|min max r IH|k r IH| | |];
    intros E x c z H; simpl in E; try discriminate.
  - simpl in H. apply orb_true_iff in E. destruct E as [E|E].
    + apply matcher_sound in H. destruct H as (y1 & H & [_ _ (new1 & C1 & _)]).
      destruct (IH2 E _ _ _ H) as (y & new & s & Hc & C & L).
      exists y, (new ++ new1), s. split; [assumption|]. split.
      * now rewrite C, C1, app_assoc.
      * now rewrite lookup_app, L.
    + apply andb_true_iff in E. destruct E as [E M].
      apply andb_true_iff in E. destruct E as [E Z].
      destruct (IH1 E _ _ _ H) as (y1 & new1 & s & H1 & C1 & L1).
      apply matcher_text in H1. destruct H1 as (y & Hc & [[Sl Sm _] (new2 & C2 & A & _)]).
      unfold zeroWidth in Z. destruct (maxlen r2) as [[|?]|] eqn:Mx; try discriminate.
      specialize (Sm 0 eq_refl).
      assert (Ey : endIndex y = endIndex y1) by lia.
      exists y, (new2 ++ new1), s. split; [assumption|]. split.
      * now rewrite C2, C1, app_assoc.
      * rewrite lookup_app, A, L1, Ey; [reflexivity|]. now apply negb_true_iff.
  - simpl in H. apply Nat.eqb_eq in E. subst k.
    apply matcher_sound in H. destruct H as (y & H & [_ _ (new & C & _)]).
    eexists. exists ((n, (endIndex x, endIndex y)) :: new), (endIndex x).
    split; [exact H|]. simpl. rewrite C, Nat.eqb_refl. split; reflexivity.
Qed.

Lemma exec_state (re : RegExp) (input : string) (li : nat) (m : ExecArray) :
  exec re input li = Some m ->
  matcher (flagI re) input (source re) (mkState (index m) []) Some
  = Some (mkState (lastEnd m) (groups m)).
Proof. apply exec_matchAt. Qed.

Lemma exec_tail_boundary (re : RegExp) (input : string) (li : nat) (m : ExecArray) :
  endsWithBoundary (source re) = true ->
  exec re input li = Some m -> atWordBoundary input (lastEnd m) = true.
Proof.
  intros E H. apply exec_state in H. eapply tail_boundary in H; [|exact E].
  destruct H as (y & Hy & B). now inversion Hy; subst.
Qed.

Lemma exec_closes (re : RegExp) (input : string) (li : nat) (m : ExecArray) (n : nat) :
  closes (source re) n = true ->
  exec re input li = Some m -> exists s, lookup n (groups m) = Some (s, lastEnd m).
Proof.
  intros E H. apply exec_state in H. eapply closes_sound in H; [|exact E].
  destruct H as (y & new & s & Hy & C & L). inversion Hy; subst y; clear Hy.
  simpl in *. rewrite app_nil_r in C. subst new. now exists s.
Qed.

Lemma exec_head_boundary (re : RegExp) (input : string) (li : nat) (m : ExecArray)
      (r : regex) :
  source re = Seq WordBoundary r ->
  exec re input li = Some m -> atWordBoundary input (index m) = true.
Proof.
  intros E H. apply exec_state in H. rewrite E in H. simpl in H.
  now destruct (atWordBoundary input (index m)).
Qed.

End TailFacts.

(** ** Where standalone numbers stand *)

Module TokenScanFacts.

Import RegExp Loco Spec Shape RegExpFacts LoopFacts ArrayFacts BoundFacts.
Import KeywordFacts AnchorFacts TextFacts ShapeFacts ScanFacts AssetFacts TailFacts.

(** A greedy quantifier over a class takes the whole run of characters of
    the class, when what follows the quantifier accepts that. *)
Lemma repeat_greedy (ic : bool) (input : string) (items : list citem)
      (c : Continuation) (z : MatchState) :
  forall n left min x,
    allAt (class_accepts ic items) input (endIndex x) n = true ->
    n = left \/ allAt (class_accepts ic items) input (endIndex x + n) 1 = false ->
    min <= n -> n <= left ->
    c (mkState (endIndex x + n) (captures x)) = Some z ->
    repeat (matcher ic input (Class items)) left min x c = Some z.
Proof.
  induction n as [|n IH]; intros left min x A E Hmin Hleft Hc.
  - assert (min = 0) by lia. subst min.
    rewrite Nat.add_0_r in *. destruct x as [e caps]. simpl in *.
    destruct left as [|left]; [assumption|].
    destruct E as [E|E]; [discriminate|].
    cbn [repeat Nat.eqb matcher endIndex].
    destruct (String.get e input) as [ch|]; [|assumption].
    rewrite andb_true_r in E. now rewrite E.
  - destruct left as [|left]; [lia|].
    simpl in A. destruct (String.get (endIndex x) input) as [ch|] eqn:G; [|discriminate].
    apply andb_true_iff in A. destruct A as [Ach A].
    assert (R : repeat (matcher ic input (Class items)) left (pred min)
                       (mkState (S (endIndex x)) (captures x)) c = Some z).
    { apply IH; simpl; try lia; try assumption.
      - destruct E as [E|E]; [left; lia | right].
        now replace (S (endIndex x + n)) with (endIndex x + S n) by lia.
      - now replace (S (endIndex x + n)) with (endIndex x + S n) by lia. }
    assert (N : (S (endIndex x) =? endIndex x) = false) by (apply Nat.eqb_neq; lia).
    assert (Step : forall d, matcher ic input (Class items) x d
                             = d (mkState (S (endIndex x)) (captures x))).
    { intros d. cbn [matcher]. now rewrite G, Ach. }
    cbn [repeat]. rewrite !Step. cbn [endIndex]. rewrite N, andb_false_r, R.
    now destruct (min =? 0).
Qed.

Lemma allAt_of_get (p : ascii -> bool) (input : string) :
  forall n i,
    (forall j, i <= j < i + n -> exists ch, String.get j input = Some ch /\ p ch = true) ->
    allAt p input i n = true.
Proof.
  induction n as [|n IH]; intros i H; [reflexivity|]. simpl.
  destruct (H i) as (ch & G & Hp); [lia|]. rewrite G, Hp. simpl.
  apply IH. intros j Hj. apply H. lia.
Qed.

Lemma allAt_word (p : ascii -> bool) (input : string) (i n k : nat) :
  (forall c, p c = true -> Chars.isWordChar c = true) ->
  allAt p input i n = true -> k < n -> isWordCharAt input (i + k) = true.
Proof.
  intros Hp H Hk. destruct (@allAt_get p input n i H k Hk) as (ch & G & Hc).
  unfold isWordCharAt. rewrite G. now apply Hp.
Qed.

Lemma digit_class (ic : bool) (c : ascii) : class_accepts ic [Digit] c = Chars.isDigit c.
Proof. destruct ic; destruct c as [[] [] [] [] [] [] [] []]; reflexivity. Qed.

Lemma digitToken_parts (input : string) (i k : nat) :
  digitTokenAt input i k = true ->
  3 <= k /\ k <= 5 /\ allAt Chars.isDigit input i k = true
  /\ wordCharBefore input i = false /\ isWordCharAt input (i + k) = false.
Proof.
  unfold digitTokenAt. rewrite !andb_true_iff, !negb_true_iff, !Nat.leb_le. tauto.
Qed.

Lemma digitToken_bound (input : string) (i k : nat) :
  digitTokenAt input i k = true -> i + k <= String.length input.
Proof.
  intros H. apply digitToken_parts in H. destruct H as (H3 & _ & A & _).
  destruct (@allAt_get _ input k i A (k - 1)) as (ch & G & _); [lia|].
  apply StrFacts.get_lt in G. lia.
Qed.

(** Where the pattern of Phase 2 matches: at the standalone numbers. *)
Lemma number_matchAt (input : string) (i k : nat) :
  digitTokenAt input i k = true ->
  matchAt false input (source LOCO_NUMBER_GLOBAL) i = Some (mkState (i + k) []).
Proof.
  intros H. apply digitToken_parts in H. destruct H as (H3 & H5 & A & B & F).
  pose proof (@allAt_word _ input i k 0 isDigit_isWordChar A) as W0.
  pose proof (@allAt_word _ input i k (k - 1) isDigit_isWordChar A) as W1.
  rewrite Nat.add_0_r in W0. specialize (W0 ltac:(lia)). specialize (W1 ltac:(lia)).
  unfold matchAt. cbn [source LOCO_NUMBER_GLOBAL Seqs matcher endIndex].
  assert (B0 : atWordBoundary input i = true).
  { unfold atWordBoundary. unfold wordCharBefore in B. rewrite W0.
    destruct i; [reflexivity | now rewrite B]. }
  rewrite B0. unfold digit.
  apply repeat_greedy with (n := k); cbn [endIndex captures]; try lia.
  - now rewrite (allAt_ext _ _ input (digit_class false)).
  - right. cbn [allAt]. unfold isWordCharAt in F.
    destruct (String.get (i + k) input) as [ch|]; [|reflexivity].
    rewrite digit_class, andb_true_r.
    destruct (Chars.isDigit ch) eqn:D; [|reflexivity].
    apply isDigit_isWordChar in D. congruence.
  - unfold atWordBoundary. replace (i + k) with (S (i + (k - 1))) at 1 by lia.
    replace (S (i + (k - 1))) with (i + k) by lia. rewrite W1, F. reflexivity.
Qed.

Lemma number_exec (input : string) (li : nat) (m : ExecArray) :
  exec LOCO_NUMBER_GLOBAL input li = Some m ->
  digitTokenAt input (index m) (lastEnd m - index m) = true
  /\ index m <= lastEnd m
  /\ whole m = Str.slice input (index m) (lastEnd m)
  /\ String.length (whole m) = lastEnd m - index m
  /\ nextLastIndex m = lastEnd m.
Proof.
  intros E. pose proof (exec_valid _ _ _ E) as V. pose proof (exec_text _ _ _ E) as [T _].
  pose proof (whole_length V) as Wl.
  pose proof (@exec_head_boundary LOCO_NUMBER_GLOBAL input li m
                (Seq (Rep 3 (Some 5) digit) WordBoundary) eq_refl E) as B0.
  pose proof (@exec_tail_boundary LOCO_NUMBER_GLOBAL input li m eq_refl E) as B1.
  destruct V as [_ L B W _]. change (minlen (source LOCO_NUMBER_GLOBAL)) with 3 in L.
  destruct T as [T1 T2 T3]. specialize (T2 5 eq_refl).
  assert (A : allAt Chars.isDigit input (index m) (lastEnd m - index m) = true).
  { apply allAt_of_get. intros j Hj. destruct (T3 j) as (ch & G & Hc); [lia|].
    exists ch. split; [assumption|]. cbn in Hc. now rewrite !orb_false_r in Hc. }
  pose proof (@allAt_word _ input (index m) _ 0 isDigit_isWordChar A) as W0.
  pose proof (@allAt_word _ input (index m) _ (lastEnd m - index m - 1)
                          isDigit_isWordChar A) as W1.
  rewrite Nat.add_0_r in W0. specialize (W0 ltac:(lia)). specialize (W1 ltac:(lia)).
  replace (index m + (lastEnd m - index m - 1)) with (lastEnd m - 1) in W1 by lia.
  split; [|split; [lia | split; [assumption | split; [assumption|]]]].
  - unfold digitTokenAt. rewrite A.
    replace (3 <=? lastEnd m - index m) with true by (symmetry; apply Nat.leb_le; lia).
    replace (lastEnd m - index m <=? 5) with true by (symmetry; apply Nat.leb_le; lia).
    replace (index m + (lastEnd m - index m)) with (lastEnd m) by lia.
    unfold atWordBoundary in B0, B1. rewrite W0 in B0.
    destruct (lastEnd m) as [|e] eqn:Ee; [lia|].
    replace (S e - 1) with e in W1 by lia. rewrite W1 in B1.
    unfold wordCharBefore. simpl.
    destruct (index m) as [|p].
    + simpl. now destruct (isWordCharAt input (S e)).
    + destruct (isWordCharAt input p); [discriminate|].
      now destruct (isWordCharAt input (S e)).
  - unfold nextLastIndex. destruct (String.eqb (whole m) "") eqn:Ee; [|reflexivity].
    apply StrFacts.string_eqb_empty in Ee. lia.
Qed.

(** Two standalone numbers of an input do not overlap, and a place holds
    one of one length only. *)
Lemma digit_tokens_apart (input : string) (i k j k' : nat) :
  digitTokenAt input i k = true -> digitTokenAt input j k' = true ->
  i <= j -> j < i + k -> i = j /\ k = k'.
Proof.
  intros Hi Hj H1 H2.
  apply digitToken_parts in Hi, Hj.
  destruct Hi as (_ & _ & Ai & Bi & Fi). destruct Hj as (_ & _ & Aj & Bj & Fj).
  assert (i = j).
  { destruct (Nat.eq_dec i j) as [|N]; [assumption|]. exfalso.
    destruct j as [|j]; [lia|]. simpl in Bj.
    pose proof (@allAt_word _ input i k (j - i) isDigit_isWordChar Ai) as W.
    replace (i + (j - i)) with j in W by lia. rewrite W in Bj by lia. discriminate. }
  subst j. split; [reflexivity|].
  destruct (Nat.lt_trichotomy k k') as [C|[C|C]]; [exfalso | assumption | exfalso].
  - pose proof (@allAt_word _ input i k' k isDigit_isWordChar Aj C). congruence.
  - pose proof (@allAt_word _ input i k k' isDigit_isWordChar Ai C). congruence.
Qed.

(** The matches of the scan of Phase 2 are the standalone numbers. *)
Lemma number_matches (input : string) (ms : list ExecArray) :
  allMatches input LOCO_NUMBER_GLOBAL = Some ms ->
  forall i k,
    digitTokenAt input i k = true
    <-> exists m, In m ms /\ index m = i /\ lastEnd m = i + k.
Proof.
  unfold allMatches, forEachMatch. intros E i k.
  destruct (collect_ordered _ _ _ _ E) as [_ F]. rewrite Forall_forall in F. split.
  - intros T.
    destruct (@collect_complete input LOCO_NUMBER_GLOBAL i) with
      (fuel := String.length input + 2) (li := 0) (ms := ms) as (m & Hin & Hm).
    + apply digitToken_bound in T. lia.
    + cbn [flagI LOCO_NUMBER_GLOBAL]. fold LOCO_NUMBER_GLOBAL.
      rewrite (number_matchAt _ _ _ T). discriminate.
    + lia.
    + exact E.
    + destruct (F m Hin) as (li & _ & Em). apply number_exec in Em.
      destruct Em as (Tm & Hle & _ & _ & Hn). rewrite Hn in Hm.
      destruct (@digit_tokens_apart input _ _ _ _ Tm T) as [H1 H2]; [lia | lia |].
      exists m. repeat split; [assumption | assumption | lia].
  - intros (m & Hin & <- & He). destruct (F m Hin) as (li & _ & Em).
    apply number_exec in Em. destruct Em as (Tm & Hle & _).
    now replace k with (lastEnd m - index m) by lia.
Qed.

End TokenScanFacts.

(** ** The numbers of the two phases *)

Module NumberFacts.

Import RegExp Loco Spec Shape RegExpFacts LoopFacts ArrayFacts BoundFacts ExtractFacts.
Import GenericFacts KeywordFacts ScanFacts TokenScanFacts.

(** What Phase 2 keeps of the matches of its scan. *)
Lemma generic_fold_In (input : string) (hasDomain : bool) (locoNos : list string)
      (c : Candidate) (ms : list ExecArray) :
  forall acc,
    In c (fold_left (generic_cb input hasDomain locoNos) ms acc)
    <-> In c acc
        \/ exists m,
             In m ms
             /\ includes locoNos (whole m) = false
             /\ isFollowedByDayish input (index m + String.length (whole m)) = false
             /\ looksLikeCountNumber input (index m)
                                     (index m + String.length (whole m)) = false
             /\ looksLikeYear (Str.toNumber (whole m)) = false
             /\ c = mkCandidate (whole m) (index m) (index m + String.length (whole m))
                                (candidateScore input hasDomain (index m)
                                                (index m + String.length (whole m))).
Proof.
  induction ms as [|m ms IH]; intros acc; simpl.
  - split; [tauto | intros [H|(m & [] & _)]; assumption].
  - rewrite IH. unfold generic_cb at 1.
    destruct (includes locoNos (whole m)) eqn:E1;
      [|destruct (isFollowedByDayish input _) eqn:E2;
        [|destruct (looksLikeCountNumber input _ _) eqn:E3;
          [|destruct (looksLikeYear _) eqn:E4]]].
    1-4: split;
      [ intros [H|(m' & Hin & H)]; [now left | right; exists m'; tauto]
      | intros [H|(m' & [<-|Hin] & H1 & H2 & H3 & H4 & H5)];
        [now left | congruence | right; exists m'; tauto] ].
    rewrite in_app_iff. simpl. split.
    + intros [[H|[H|[]]]|(m' & Hin & H)].
      * now left.
      * right. exists m. subst c. tauto.
      * right. exists m'. tauto.
    + intros [H|(m' & [<-|Hin] & H1 & H2 & H3 & H4 & H5)].
      * left. now left.
      * left. right. left. now symmetry.
      * right. exists m'. tauto.
Qed.

(** What Phase 1 pushes are the numbers its patterns capture. *)
Lemma keyword_fold_In (input : string) (n : string) (ms : list ExecArray) :
  forall st,
    In n (acc_locoNos (fold_left (keyword_cb input) ms st))
    <-> In n (acc_locoNos st) \/ exists m, In m ms /\ group input m 2 = n.
Proof.
  induction ms as [|m ms IH]; intros st; simpl.
  - split; [tauto | intros [H|(m & [] & _)]; assumption].
  - rewrite IH. unfold keyword_cb at 1.
    destruct (includes (acc_locoNos st) (group input m 2)) eqn:E; simpl.
    + apply includes_In in E. split.
      * intros [H|(m' & Hin & H)]; [now left | right; exists m'; tauto].
      * intros [H|(m' & [<-|Hin] & H)]; [now left | left; now subst | right; exists m'; tauto].
    + rewrite in_app_iff. simpl. split.
      * intros [[H|[H|[]]]|(m' & Hin & H)];
          [now left | right; exists m; tauto | right; exists m'; tauto].
      * intros [H|(m' & [<-|Hin] & H)];
          [left; now left | left; right; now left | right; exists m'; tauto].
Qed.

Lemma number_match (input : string) (ms : list ExecArray) (m : ExecArray) :
  allMatches input LOCO_NUMBER_GLOBAL = Some ms -> In m ms ->
  digitTokenAt input (index m) (lastEnd m - index m) = true
  /\ index m <= lastEnd m
  /\ whole m = Str.slice input (index m) (lastEnd m)
  /\ String.length (whole m) = lastEnd m - index m.
Proof.
  unfold allMatches, forEachMatch. intros E Hin.
  destruct (collect_ordered _ _ _ _ E) as [_ F]. rewrite Forall_forall in F.
  destruct (F m Hin) as (li & _ & Em). apply number_exec in Em. tauto.
Qed.

(** The three scans of [extractLocoNos], as folds over their matches. *)
Lemma extractLocoNos_folds (input : string) :
  exists ms ms' msn st1 cands q,
    allMatches input LOCO_KEYWORD_NUMBER_GLOBAL = Some ms
    /\ allMatches input LOCO_KEYWORD_NUMBER_CONCAT_GLOBAL = Some ms'
    /\ allMatches input LOCO_NUMBER_GLOBAL = Some msn
    /\ st1 = fold_left (keyword_cb input) (ms ++ ms') (mkLocoAcc [] [] [])
    /\ cands = fold_left (generic_cb input (hasDomainContext input) (acc_locoNos st1)) msn []
    /\ extractLocoQuery input = Some q
    /\ locoNos q = uniq (acc_locoNos st1 ++ List.map numText (List.filter scored cands)).
Proof.
  destruct (locoNos_shape input) as (st1 & cands & q & E1 & E2 & Eq & _ & Hl).
  unfold keywordPhases in E1. rewrite forEachMatch_fold in E1.
  destruct (allMatches input LOCO_KEYWORD_NUMBER_GLOBAL) as [ms|]; [|discriminate].
  simpl in E1. rewrite forEachMatch_fold in E1.
  destruct (allMatches input LOCO_KEYWORD_NUMBER_CONCAT_GLOBAL) as [ms'|]; [|discriminate].
  simpl in E1. inversion E1 as [E1']; clear E1.
  unfold genericCandidates in E2. rewrite forEachMatch_fold in E2.
  destruct (allMatches input LOCO_NUMBER_GLOBAL) as [msn|]; [|discriminate].
  simpl in E2. inversion E2 as [E2']; clear E2.
  exists ms, ms', msn, st1, cands, q. rewrite fold_left_app.
  split; [reflexivity|]. split; [reflexivity|]. split; [reflexivity|].
  split; [now symmetry|]. split; [now symmetry|]. split; assumption.
Qed.

(** The numbers returned are those of the two phases. *)
Lemma locoNos_phases (input : string) :
  exists ms ms' q,
    allMatches input LOCO_KEYWORD_NUMBER_GLOBAL = Some ms
    /\ allMatches input LOCO_KEYWORD_NUMBER_CONCAT_GLOBAL = Some ms'
    /\ extractLocoQuery input = Some q
    /\ forall n,
         In n (locoNos q)
         <-> (exists m, In m (ms ++ ms') /\ group input m 2 = n)
             \/ (exists i k,
                    digitTokenAt input i k = true
                    /\ n = Str.slice input i (i + k)
                    /\ isFollowedByDayish input (i + k) = false
                    /\ looksLikeCountNumber input i (i + k) = false
                    /\ looksLikeYear (Str.toNumber n) = false
                    /\ 1 <= candidateScore input (hasDomainContext input) i (i + k)).
Proof.
  destruct (extractLocoNos_folds input)
    as (ms & ms' & msn & st1 & cands & q & E & E' & En & Hst & Hc & Eq & Hl).
  exists ms, ms', q. split; [exact E|]. split; [exact E'|]. split; [exact Eq|].
  intros n. rewrite Hl, uniq_In, in_app_iff.
  assert (A : In n (acc_locoNos st1) <-> exists m, In m (ms ++ ms') /\ group input m 2 = n).
  { rewrite Hst, keyword_fold_In. simpl. tauto. }
  rewrite A. split.
  - intros [H|H]; [now left | right].
    apply in_map_iff in H. destruct H as (c & <- & Hin).
    apply filter_In in Hin. destruct Hin as [Hin Hs].
    rewrite Hc in Hin. apply generic_fold_In in Hin.
    destruct Hin as [[]|(m & Hm & _ & H2 & H3 & H4 & ->)].
    destruct (@number_match input msn m En Hm) as (T & Hle & W & Wl). clear A.
    unfold scored in Hs. cbn [numText score] in *. apply Nat.leb_le in Hs. rewrite Wl in *.
    replace (index m + (lastEnd m - index m)) with (lastEnd m) in * by lia.
    exists (index m), (lastEnd m - index m).
    replace (index m + (lastEnd m - index m)) with (lastEnd m) by lia.
    repeat split; assumption.
  - intros [H|(i & k & T & -> & H2 & H3 & H4 & H5)]; [now left|].
    destruct (proj1 (@number_matches input msn En i k) T) as (m & Hm & Hi & He).
    destruct (@number_match input msn m En Hm) as (_ & Hle & W & Wl).
    rewrite Hi, He in *.
    destruct (includes (acc_locoNos st1) (whole m)) eqn:I.
    + left. apply A. apply includes_In in I. now rewrite W in I.
    + right. apply in_map_iff.
      exists (mkCandidate (whole m) i (i + String.length (whole m))
                          (candidateScore input (hasDomainContext input) i
                                          (i + String.length (whole m)))).
      split; [exact W|]. apply filter_In. split.
      * rewrite Hc. apply generic_fold_In. right. exists m.
        rewrite Hi, Wl, W. replace (i + (i + k - i)) with (i + k) by lia.
        repeat split; try assumption. now rewrite <- W.
      * unfold scored. cbn [score]. apply Nat.leb_le. rewrite Wl.
        now replace (i + (i + k - i)) with (i + k) by lia.
Qed.

(** A standalone number that no filter rejects and that scores is
    returned. *)
Lemma token_accepted (input : string) :
  exists q,
    extractLocoQuery input = Some q
    /\ forall i k,
         digitTokenAt input i k = true ->
         isFollowedByDayish input (i + k) = false ->
         looksLikeCountNumber input i (i + k) = false ->
         looksLikeYear (Str.toNumber (Str.slice input i (i + k))) = false ->
         1 <= candidateScore input (hasDomainContext input) i (i + k) ->
         In (Str.slice input i (i + k)) (locoNos q).
Proof.
  destruct (locoNos_phases input) as (ms & ms' & q & _ & _ & Eq & H).
  exists q. split; [exact Eq|]. intros i k T H1 H2 H3 H4.
  apply H. right. exists i, k. now repeat split.
Qed.

End NumberFacts.

(** ** Numbers are whole words *)

Module WholeFacts.

Import RegExp Loco Spec Shape RegExpFacts LoopFacts ArrayFacts BoundFacts ExtractFacts.
Import GenericFacts KeywordFacts AnchorFacts TextFacts ShapeFacts PartsFacts ScanFacts.
Import AssetFacts TailFacts TokenScanFacts NumberFacts.

(** After a run of digits that ends at a word boundary comes no word
    character. *)
Lemma boundary_after_digits (ic : bool) (input : string) (s e : nat) :
  Span ic input (Rep 3 (Some 5) digit) s e -> s < e ->
  atWordBoundary input e = true -> isWordCharAt input e = false.
Proof.
  intros [_ _ C] H B. destruct (C (e - 1)) as (ch & G & A); [lia|].
  apply digit_char in A. apply isDigit_isWordChar in A.
  destruct e as [|e]; [lia|]. replace (S e - 1) with e in G by lia.
  unfold atWordBoundary in B. unfold isWordCharAt at 1 in B. rewrite G, A in B.
  now destruct (isWordCharAt input (S e)).
Qed.

(** Phase 1 reports the number at the place of its group, which ends the
    match, and no word character follows it. *)
Lemma keyword_cb_whole (re : RegExp) (input : string) (st : LocoAcc)
      (li : nat) (m : ExecArray) :
  sets (source re) 2 = Some 3 ->
  body (source re) 2 = Some (Rep 3 (Some 5) digit) ->
  closes (source re) 2 = true ->
  endsWithBoundary (source re) = true ->
  exec re input li = Some m ->
  Forall (fun r => isWordCharAt input (stop r) = false) (acc_locoMatches st) ->
  Forall (fun r => isWordCharAt input (stop r) = false)
         (acc_locoMatches (keyword_cb input st m)).
Proof.
  intros Hs Hb Hc He E H. unfold keyword_cb.
  destruct (negb (includes (acc_locoNos st) (group input m 2))); [|assumption].
  simpl. apply Forall_snoc; [assumption|]. simpl.
  pose proof (exec_valid _ _ _ E) as V. pose proof (exec_text _ _ _ E) as [_ G].
  destruct (G 2 _ Hb) as (s & e & Hl & Sp).
  destruct (exec_closes _ _ _ _ Hc E) as (s' & Hl'). rewrite Hl in Hl'.
  inversion Hl'; subst s' e; clear Hl'.
  pose proof (@exec_tail_boundary re input li m He E) as B.
  destruct V as [_ _ Bd W [Wi _ S]].
  destruct (S 2 3 Hs) as (s' & e' & Hl' & Hk). rewrite Hl in Hl'.
  inversion Hl'; subst s' e'; clear Hl'.
  apply lookup_in in Hl as Hin. rewrite Forall_forall in Wi. apply Wi in Hin.
  unfold within in Hin. simpl in Hin.
  assert (Hg : group input m 2 = Str.slice input s (lastEnd m))
    by (unfold group; now rewrite Hl).
  rewrite Hg, W.
  assert (No : isLocoNo (Str.slice input s (lastEnd m)) = true)
    by (apply (digits_span Sp); lia).
  destruct (@keyword_offset input (index m) (lastEnd m) s (lastEnd m))
    as (k & Hk1 & _ & Hk3 & Hk4); try lia.
  { now apply isLocoNo_digits. }
  rewrite Hk1. rewrite StrFacts.length_slice by lia.
  replace (index m + k + (lastEnd m - s)) with (lastEnd m) by lia.
  apply (boundary_after_digits Sp); [lia | assumption].
Qed.

Lemma generic_cb_whole (input : string) (hasDomain : bool) (locoNos : list string)
      (cands : list Candidate) (li : nat) (m : ExecArray) :
  exec LOCO_NUMBER_GLOBAL input li = Some m ->
  Forall (fun c => isWordCharAt input (cand_stop c) = false) cands ->
  Forall (fun c => isWordCharAt input (cand_stop c) = false)
         (generic_cb input hasDomain locoNos cands m).
Proof.
  intros E H. unfold generic_cb.
  destruct (includes locoNos (whole m)); [assumption|].
  destruct (isFollowedByDayish input _); [assumption|].
  destruct (looksLikeCountNumber input _ _); [assumption|].
  destruct (looksLikeYear _); [assumption|].
  apply Forall_snoc; [assumption|]. simpl.
  apply number_exec in E. destruct E as (T & Hle & _ & Wl & _).
  apply digitToken_parts in T. rewrite Wl. tauto.
Qed.

Lemma locoMatches_whole (input : string) (st1 : LocoAcc) (cands : list Candidate) :
  keywordPhases input = Some st1 ->
  genericCandidates input (acc_locoNos st1) = Some cands ->
  Forall (fun r => isWordCharAt input (stop r) = false)
         (acc_locoMatches (acceptCandidates st1 cands)).
Proof.
  intros E1 E2. rewrite acceptCandidates_matches. apply Forall_app. split.
  - unfold keywordPhases in E1.
    destruct (forEachMatch input LOCO_KEYWORD_NUMBER_GLOBAL (keyword_cb input)
                           (mkLocoAcc [] [] [])) as [st1a|] eqn:Ea; [|discriminate].
    simpl in E1.
    scan_inv (fun st => Forall (fun r => isWordCharAt input (stop r) = false)
                               (acc_locoMatches st)) E1.
    + now apply keyword_cb_whole with (re := LOCO_KEYWORD_NUMBER_CONCAT_GLOBAL) (li := li).
    + scan_inv (fun st => Forall (fun r => isWordCharAt input (stop r) = false)
                                 (acc_locoMatches st)) Ea.
      * now apply keyword_cb_whole with (re := LOCO_KEYWORD_NUMBER_GLOBAL) (li := li).
      * constructor.
  - unfold genericCandidates in E2.
    assert (F : Forall (fun c => isWordCharAt input (cand_stop c) = false) cands).
    { scan_inv (Forall (fun c => isWordCharAt input (cand_stop c) = false)) E2.
      - now apply generic_cb_whole with (li := li).
      - constructor. }
    rewrite Forall_forall in *. intros r Hr. apply in_map_iff in Hr.
    destruct Hr as (c & <- & Hc). apply filter_In in Hc. exact (F c (proj1 Hc)).
Qed.

End WholeFacts.

(** ** [trim] *)

Module TrimFacts.

Import RegExp Loco Spec Shape StrFacts.

Lemma append_nil_r (s : string) : (s ++ "")%string = s.
Proof. induction s as [|c s IH]; simpl; [reflexivity | now rewrite IH]. Qed.

Lemma append_assoc (a b c : string) : ((a ++ b) ++ c = a ++ (b ++ c))%string.
Proof. induction a as [|x a IH]; simpl; [reflexivity | now rewrite IH]. Qed.

Lemma rev_onto_app (s : string) :
  forall acc, Str.rev_onto s acc = (Str.rev s ++ acc)%string.
Proof.
  unfold Str.rev. induction s as [|c s IH]; intros acc; simpl; [reflexivity|].
  rewrite IH, (IH (String c "")), append_assoc. reflexivity.
Qed.

Lemma rev_cons (c : ascii) (s : string) :
  Str.rev (String c s) = (Str.rev s ++ String c "")%string.
Proof. unfold Str.rev at 1. simpl. apply rev_onto_app. Qed.

Lemma rev_app (a b : string) : Str.rev (a ++ b) = (Str.rev b ++ Str.rev a)%string.
Proof.
  induction a as [|c a IH]; simpl.
  - now rewrite append_nil_r.
  - now rewrite !rev_cons, IH, append_assoc.
Qed.

Lemma rev_involutive (s : string) : Str.rev (Str.rev s) = s.
Proof.
  induction s as [|c s IH]; [reflexivity|].
  now rewrite rev_cons, rev_app, IH.
Qed.

Lemma existsb_app (p : ascii -> bool) (a b : string) :
  Str.existsb p (a ++ b) = Str.existsb p a || Str.existsb p b.
Proof. induction a as [|c a IH]; simpl; [reflexivity | now rewrite IH, orb_assoc]. Qed.

Lemma existsb_rev (p : ascii -> bool) (s : string) :
  Str.existsb p (Str.rev s) = Str.existsb p s.
Proof.
  induction s as [|c s IH]; [reflexivity|].
  rewrite rev_cons, existsb_app, IH. simpl. rewrite orb_false_r. apply orb_comm.
Qed.

(** Dropping from a string that holds a character to keep. *)
Lemma dropWhile_app (p : ascii -> bool) (a b : string) :
  Str.existsb (fun c => negb (p c)) a = true ->
  Str.dropWhile p (a ++ b) = (Str.dropWhile p a ++ b)%string.
Proof.
  induction a as [|c a IH]; simpl; [discriminate|].
  destruct (p c); simpl; [exact IH | reflexivity].
Qed.

(** [trim] cuts nothing from the front of a string that starts with a
    character other than white space, and nothing before the last such
    character. *)
Lemma trim_app (a b : string) (c : ascii) :
  Chars.isSpace c = false ->
  Str.existsb (fun c => negb (Chars.isSpace c)) b = true ->
  exists b', Str.trim (String c a ++ b) = (String c a ++ b')%string
             /\ String.length b' <= String.length b
             /\ (forall d r, b = String d r ->
                             Str.existsb (fun c => negb (Chars.isSpace c)) r = true ->
                             exists r', b' = String d r').
Proof.
  intros Hc Hb. unfold Str.trim. simpl. rewrite Hc.
  change (String c (a ++ b)) with (String c a ++ b)%string.
  rewrite rev_app, dropWhile_app by now rewrite existsb_rev.
  rewrite rev_app, rev_involutive.
  exists (Str.rev (Str.dropWhile Chars.isSpace (Str.rev b))). split; [reflexivity|].
  split.
  - rewrite TokenFacts.length_rev.
    etransitivity; [apply TokenFacts.length_dropWhile|]. now rewrite TokenFacts.length_rev.
  - intros d r -> Hr. rewrite rev_cons, dropWhile_app by now rewrite existsb_rev.
    rewrite rev_app. simpl. now eexists.
Qed.

End TrimFacts.

(** ** The text after a number *)

Module AfterFacts.

Import RegExp Loco Spec Shape StrFacts RegExpFacts TextFacts ScanFacts TrimFacts.

(** [C+] starts with a character of the class. *)
Lemma plus_first (ic : bool) (input : string) (items : list citem)
      (x : MatchState) (c : Continuation) (z : MatchState) :
  matcher ic input (Plus (Class items)) x c = Some z ->
  exists ch y, String.get (endIndex x) input = Some ch
               /\ class_accepts ic items ch = true
               /\ S (endIndex x) <= endIndex y
               /\ c y = Some z.
Proof.
  unfold Plus. cbn [matcher]. 
  set (left := 1 + (String.length input - endIndex x)).
  change left with (S (String.length input - endIndex x)).
  cbn [repeat Nat.eqb].
  change (fun (x0 : MatchState) (c0 : Continuation) =>
            match String.get (endIndex x0) input with
            | Some ch => if class_accepts ic items ch
                         then c0 (mkState (S (endIndex x0)) (captures x0))
                         else None
            | None => None
            end) with (matcher ic input (Class items)).
  destruct (String.get (endIndex x) input) as [ch|]; [|discriminate].
  destruct (class_accepts ic items ch) eqn:A; [|discriminate].
  cbn [endIndex pred andb]. intros H.
  apply (repeat_sound (@matcher_sound ic input (Class items))) in H.
  destruct H as (y & Hy & L & _). simpl in L.
  exists ch, y. repeat split; try assumption. lia.
Qed.

Lemma get_substring (s : string) :
  forall n j, j < n -> String.get j (substring 0 n s) = String.get j s.
Proof.
  induction s as [|c s IH]; intros n j H.
  - destruct n; reflexivity.
  - destruct n as [|n]; [lia|]. simpl. destruct j as [|j]; [reflexivity|].
    apply IH. lia.
Qed.

Lemma existsb_get (p : ascii -> bool) (s : string) :
  forall j ch, String.get j s = Some ch -> p ch = true -> Str.existsb p s = true.
Proof.
  induction s as [|c s IH]; intros j ch G H; [discriminate|]. simpl.
  destruct j as [|j]; simpl in G.
  - inversion G; subst. now rewrite H.
  - rewrite (IH _ _ G H). apply orb_true_r.
Qed.

Lemma letter_not_space (c : ascii) :
  class_accepts false [Range "A" "Z"; Range "a" "z"] c = true -> Chars.isSpace c = false.
Proof. destruct c as [[] [] [] [] [] [] [] []]; vm_compute; congruence. Qed.

Lemma space_class (c : ascii) : class_accepts false [Space] c = Chars.isSpace c.
Proof. destruct c as [[] [] [] [] [] [] [] []]; reflexivity. Qed.

Lemma matcher_seq (ic : bool) (input : string) (r1 r2 : regex)
      (x : MatchState) (c : Continuation) :
  matcher ic input (Seq r1 r2) x c
  = matcher ic input r1 x (fun y => matcher ic input r2 y c).
Proof. reflexivity. Qed.

Lemma matcher_group (ic : bool) (input : string) (n : nat) (r : regex)
      (x : MatchState) (c : Continuation) :
  matcher ic input (Group n r) x c
  = matcher ic input r x
            (fun y => c (mkState (endIndex y) ((n, (endIndex x, endIndex y)) :: captures y))).
Proof. reflexivity. Qed.

Lemma matcher_class (ic : bool) (input : string) (items : list citem)
      (x : MatchState) (c : Continuation) (z : MatchState) :
  matcher ic input (Class items) x c = Some z ->
  exists ch, String.get (endIndex x) input = Some ch
             /\ class_accepts ic items ch = true
             /\ c (mkState (S (endIndex x)) (captures x)) = Some z.
Proof.
  cbn [matcher]. destruct (String.get (endIndex x) input) as [ch|]; [|discriminate].
  destruct (class_accepts ic items ch) eqn:A; [|discriminate].
  intros H. now exists ch.
Qed.

Lemma matcher_lineStart (ic : bool) (input : string)
      (x : MatchState) (c : Continuation) (z : MatchState) :
  matcher ic input LineStart x c = Some z -> endIndex x = 0 /\ c x = Some z.
Proof.
  cbn [matcher]. destruct (endIndex x =? 0) eqn:E; [|discriminate].
  apply Nat.eqb_eq in E. now split.
Qed.

(** What follows the number of a phrase: white space first, and a letter
    further on. *)
Lemma afterText_shape (afterNum : string) (am : ExecArray) :
  exec AFTER_NUMBER_REGEX afterNum 0 = Some am ->
  exists c0 rest,
    group afterNum am 1 = String c0 rest
    /\ Chars.isSpace c0 = true
    /\ Str.existsb (fun c => negb (Chars.isSpace c)) rest = true.
Proof.
  intros E. pose proof (exec_valid _ _ _ E) as V. apply exec_matchAt in E.
  unfold matchAt in E. cbn [flagI source AFTER_NUMBER_REGEX Seqs] in E.
  rewrite matcher_seq in E. apply matcher_lineStart in E. cbn [endIndex] in E.
  destruct E as [I0 E]. rewrite matcher_group, matcher_seq in E.
  unfold sp in E. apply plus_first in E. cbn [endIndex] in E.
  destruct E as (c0 & y1 & G0 & A0 & L1 & E).
  rewrite matcher_seq in E. apply matcher_class in E.
  destruct E as (c1 & G1 & A1 & E).
  apply matcher_sound in E. destruct E as (y3 & E & [L3 _ _]).
  cbn [endIndex captures] in *. inversion E as [[He Hg]]; clear E. rewrite He in Hg.
  pose proof (ve_bound V) as B.
  unfold group. rewrite <- Hg. cbn [lookup Nat.eqb]. rewrite I0 in *.
  unfold Str.slice. rewrite Nat.sub_0_r.
  assert (Hlen : 2 <= lastEnd am) by lia.
  destruct afterNum as [|a0 afterNum]; [discriminate|].
  simpl in G0. inversion G0; subst a0; clear G0.
  destruct (lastEnd am) as [|e] eqn:Ee; [lia|]. simpl.
  exists c0, (substring 0 e afterNum). split; [reflexivity|].
  split; [now rewrite <- space_class|].
  destruct (endIndex y1) as [|j] eqn:Ej; [lia|]. simpl in G1.
  apply existsb_get with (j := j) (ch := c1).
  - rewrite get_substring by lia. exact G1.
  - apply letter_not_space in A1. now rewrite A1.
Qed.

End AfterFacts.

(** ** The first piece of [split] *)

Module SplitFacts.

Import RegExp Loco Spec Shape StrFacts RegExpFacts TextFacts ScanFacts AnchorFacts.
Import TrimFacts AfterFacts.

(** With nothing required and a continuation that accepts, a quantifier
    does not fail. *)
Lemma repeat_total (m : MatchState -> Continuation -> option MatchState) :
  forall left y, exists z, repeat m left 0 y Some = Some z.
Proof.
  intros [|left] y; simpl; [now exists y|].
  destruct (m y _) as [z|]; [now exists z | now exists y].
Qed.

(** [C+] matches wherever a character of the class stands. *)
Lemma plus_matches (ic : bool) (input : string) (items : list citem) (q : nat) (ch : ascii) :
  String.get q input = Some ch -> class_accepts ic items ch = true ->
  exists y, matchAt ic input (Plus (Class items)) q = Some y /\ S q <= endIndex y.
Proof.
  intros G A. unfold matchAt, Plus.
  assert (exists y, matcher ic input (Rep 1 None (Class items)) (mkState q []) Some = Some y)
    as [y Hy].
  { cbn [matcher endIndex].
    change (1 + (String.length input - q)) with (S (String.length input - q)).
    cbn [repeat Nat.eqb].
    change (fun (x0 : MatchState) (c0 : Continuation) =>
              match String.get (endIndex x0) input with
              | Some ch => if class_accepts ic items ch
                           then c0 (mkState (S (endIndex x0)) (captures x0))
                           else None
              | None => None
              end) with (matcher ic input (Class items)).
    cbn [endIndex]. rewrite G, A. cbn [andb pred]. apply repeat_total. }
  exists y. split; [exact Hy|].
  apply matcher_sound in Hy. destruct Hy as (y' & Hy & [L _ _]).
  inversion Hy; subst y'. simpl in L. lia.
Qed.

Lemma plus_fails (ic : bool) (input : string) (items : list citem) (q : nat) (ch : ascii) :
  String.get q input = Some ch -> class_accepts ic items ch = false ->
  matchAt ic input (Plus (Class items)) q = None.
Proof.
  intros G A. unfold matchAt.
  destruct (matcher ic input (Plus (Class items)) (mkState q []) Some) as [z|] eqn:E;
    [|reflexivity].
  apply plus_first in E. destruct E as (ch' & y & G' & A' & _). simpl in G'.
  rewrite G in G'. inversion G'; subst. congruence.
Qed.

(** The pieces already cut stay in front. *)
Lemma split_loop_out (re : RegExp) (s : string) :
  forall fuel p q out,
    split_loop fuel re s p q out = out ++ split_loop fuel re s p q [].
Proof.
  induction fuel as [|fuel IH]; intros p q out; simpl; [reflexivity|].
  destruct (q <? String.length s); [|reflexivity].
  destruct (matchAt (flagI re) s (source re) q) as [y|]; [|apply IH].
  destruct (Nat.min (endIndex y) (String.length s) =? p); [apply IH|].
  rewrite (IH _ _ (out ++ _)), (IH _ _ [_]). now rewrite app_assoc.
Qed.

Lemma forallb_get (p : ascii -> bool) (s : string) :
  Str.forallb p s = true -> forall j ch, String.get j s = Some ch -> p ch = true.
Proof.
  induction s as [|c s IH]; intros H j ch G; [discriminate|]. simpl in H.
  apply andb_true_iff in H. destruct H as [Hc Hs].
  destruct j as [|j]; simpl in G; [now inversion G; subst | eapply IH; eassumption].
Qed.

Lemma get_some (s : string) : forall j, j < String.length s -> exists ch, String.get j s = Some ch.
Proof.
  induction s as [|c s IH]; intros j H; simpl in H; [lia|].
  destruct j as [|j]; simpl; [now exists c | apply IH; lia].
Qed.

Lemma substring_append (a b : string) : substring 0 (String.length a) (a ++ b) = a.
Proof. induction a as [|c a IH]; simpl; [now destruct b | now rewrite IH]. Qed.

(** The first piece of a string cut at white space is what stands before
    the first white space. *)
Lemma split_head (nt rest : string) (c : ascii) :
  nt <> "" ->
  Str.forallb (fun c => negb (Chars.isSpace c)) nt = true ->
  Chars.isSpace c = true ->
  exists ts, split SPACES_REGEX (nt ++ String c rest) = nt :: ts.
Proof.
  intros Hne Hnt Hc. remember (nt ++ String c rest)%string as s eqn:Es.
  assert (Ls : String.length s = String.length nt + S (String.length rest)).
  { rewrite Es. now rewrite length_append. }
  assert (W : forall d q fuel,
             q + d = String.length nt -> d < fuel ->
             exists ts, split_loop fuel SPACES_REGEX s 0 q [] = nt :: ts).
  { induction d as [|d IH]; intros q fuel Hq Hf.
    - destruct fuel as [|fuel]; [lia|]. cbn [split_loop].
      replace (q <? String.length s) with true by (symmetry; apply Nat.ltb_lt; lia).
      assert (G : String.get q s = Some c).
      { rewrite Es. replace q with (String.length nt) by lia.
        now rewrite get_append_length. }
      destruct (@plus_matches false s [Space] q c G) as (y & My & Ly).
      { now rewrite space_class. }
      cbn [flagI source SPACES_REGEX]. unfold sp. rewrite My.
      replace (Nat.min (endIndex y) (String.length s) =? 0) with false
        by (symmetry; apply Nat.eqb_neq; lia).
      rewrite split_loop_out. simpl. eexists. f_equal.
      unfold Str.slice. rewrite Es, Nat.sub_0_r. replace q with (String.length nt) by lia.
      apply substring_append.
    - destruct fuel as [|fuel]; [lia|]. cbn [split_loop].
      replace (q <? String.length s) with true by (symmetry; apply Nat.ltb_lt; lia).
      destruct (@get_some nt q) as [ch G]; [lia|].
      assert (G' : String.get q s = Some ch).
      { rewrite Es, <- append_correct1 by lia. exact G. }
      cbn [flagI source SPACES_REGEX]. unfold sp.
      rewrite (@plus_fails false s [Space] q ch G').
      + apply IH; lia.
      + rewrite space_class. apply (forallb_get _ _ Hnt) in G.
        now apply negb_true_iff in G. }
  clear Es. destruct s as [|c0 s0]; [simpl in Ls; lia|].
  change (split SPACES_REGEX (String c0 s0))
    with (split_loop (2 * String.length (String c0 s0) + 2) SPACES_REGEX
                     (String c0 s0) 0 0 []).
  apply (W (String.length nt) 0); [lia|]. rewrite Ls. lia.
Qed.

End SplitFacts.

(** ** The phrase of Phase 1 *)

Module PhraseFacts.

Import RegExp Loco Spec Shape StrFacts RegExpFacts TextFacts ScanFacts AnchorFacts.
Import ArrayFacts ShapeFacts TailFacts TokenScanFacts TrimFacts AfterFacts SplitFacts.

Lemma findStopword_ge (tokens : list string) :
  forall i0 i, findStopword tokens i0 = Some i -> i0 <= i.
Proof.
  induction tokens as [|t tokens IH]; intros i0 i H; simpl in H; [discriminate|].
  destruct (isStopword _); [inversion H; lia|]. apply IH in H. lia.
Qed.

Lemma popStopwords_rev_last (a : string) (x : list string) :
  exists x', popStopwords_rev (x ++ [a]) = x' ++ [a].
Proof.
  induction x as [|t x IH]; [now exists []|].
  destruct IH as [x' IH].
  change ((t :: x) ++ [a]) with (t :: (x ++ [a])).
  destruct (x ++ [a]) as [|u l] eqn:E; [now destruct x|].
  cbn [popStopwords_rev]. destruct (isStopword _).
  - exists x'. exact IH.
  - exists (t :: x). simpl. now rewrite E.
Qed.

Lemma popStopwords_head (a : string) (l : list string) :
  exists l', popStopwords (a :: l) = a :: l'.
Proof.
  unfold popStopwords. simpl.
  destruct (popStopwords_rev_last a (List.rev l)) as [x' E]. rewrite E.
  rewrite rev_app_distr. simpl. now eexists.
Qed.

Lemma digit_not_space (c : ascii) : Chars.isDigit c = true -> Chars.isSpace c = false.
Proof. destruct c as [[] [] [] [] [] [] [] []]; vm_compute; congruence. Qed.

Lemma isLocoNo_parts (n : string) :
  isLocoNo n = true ->
  3 <= String.length n /\ String.length n <= 5 /\ Str.forallb Chars.isDigit n = true.
Proof. unfold isLocoNo. rewrite !andb_true_iff, !Nat.leb_le. tauto. Qed.

(** A name made of a number, a blank and more begins with a number, in the
    sense of [computeConfidence]. *)
Lemma numbered_of_prefix (nt more : string) :
  isLocoNo nt = true -> test NUMBERED_NAME_REGEX (nt ++ String " " more) = true.
Proof.
  intros H. apply isLocoNo_parts in H. destruct H as (H3 & H5 & D).
  rewrite numbered_name. unfold beginsWithNumber.
  assert (K : digitsThenBoundary (nt ++ String " " more) (String.length nt) = true).
  { unfold digitsThenBoundary. rewrite substring_append, D.
    unfold isWordCharAt. rewrite get_append_length. simpl.
    rewrite length_append. simpl.
    replace (String.length nt <=? String.length nt + S (String.length more)) with true
      by (symmetry; apply Nat.leb_le; lia).
    reflexivity. }
  cbn [List.existsb].
  assert (C : String.length nt = 3 \/ String.length nt = 4 \/ String.length nt = 5) by lia.
  destruct C as [C|[C|C]]; rewrite C in K; rewrite K; now rewrite ?orb_true_r.
Qed.

Lemma join_two (t u : string) (l : list string) :
  join (t :: u :: l) = (t ++ String " " (join (u :: l)))%string.
Proof. reflexivity. Qed.

(** The phrase of Phase 1 begins with its number and a blank. *)
Lemma phrase_numbered (nt afterText : string) (tokens : list string) :
  isLocoNo nt = true ->
  (exists c0 rest, afterText = String c0 rest /\ Chars.isSpace c0 = true
                   /\ Str.existsb (fun c => negb (Chars.isSpace c)) rest = true) ->
  tokens = popStopwords
             (match findStopword (tl (split SPACES_REGEX (Str.trim (nt ++ afterText)))) 1 with
              | Some i => firstn i (split SPACES_REGEX (Str.trim (nt ++ afterText)))
              | None => split SPACES_REGEX (Str.trim (nt ++ afterText))
              end) ->
  (List.length tokens <? 2) = false ->
  test NUMBERED_NAME_REGEX (join tokens) = true.
Proof.
  intros Hn (c0 & rest & -> & Hc & Hr) -> Hlen.
  pose proof (isLocoNo_parts _ Hn) as (H3 & _ & D).
  destruct nt as [|d nt']; [simpl in H3; lia|].
  assert (Hd : Chars.isSpace d = false).
  { simpl in D. apply andb_true_iff in D. now apply digit_not_space. }
  destruct (@trim_app nt' (String c0 rest) d Hd) as (b' & Tr & _ & Hb).
  { simpl. rewrite Hr. apply orb_true_r. }
  destruct (Hb c0 rest eq_refl Hr) as (r' & ->).
  rewrite Tr in *.
  destruct (@split_head (String d nt') r' c0) as (ts & Sp); try assumption.
  { discriminate. }
  { revert D. apply forallb_impl. intros c Hdc. now rewrite (digit_not_space _ Hdc). }
  rewrite Sp in *. cbn [tl] in *.
  set (tokens1 := match findStopword ts 1 with
                  | Some i => firstn i (String d nt' :: ts)
                  | None => String d nt' :: ts
                  end) in *.
  assert (exists l1, tokens1 = String d nt' :: l1) as (l1 & E1).
  { unfold tokens1. destruct (findStopword ts 1) as [i|] eqn:F; [|now eexists].
    apply findStopword_ge in F. destruct i as [|i]; [lia|]. simpl. now eexists. }
  rewrite E1 in *. destruct (popStopwords_head (String d nt') l1) as (l2 & E2).
  rewrite E2 in *. destruct l2 as [|u l2]; [discriminate|].
  rewrite join_two. now apply numbered_of_prefix.
Qed.

End PhraseFacts.

(** ** The shape of names *)

Module NameFacts.

Import RegExp Loco Spec Shape StrFacts RegExpFacts LoopFacts TextFacts ScanFacts.
Import AnchorFacts ArrayFacts BoundFacts ExtractFacts ShapeFacts AssetFacts TailFacts.
Import TokenScanFacts TrimFacts AfterFacts SplitFacts PhraseFacts.

Lemma matcher_boundary (ic : bool) (input : string)
      (x : MatchState) (c : Continuation) (z : MatchState) :
  matcher ic input WordBoundary x c = Some z ->
  atWordBoundary input (endIndex x) = true /\ c x = Some z.
Proof.
  cbn [matcher]. destruct (atWordBoundary input (endIndex x)); [|discriminate]. now split.
Qed.

Lemma substring_get (s : string) :
  forall i n c, String.get i s = Some c ->
                substring i (S n) s = String c (substring (S i) n s).
Proof.
  induction s as [|a s IH]; intros i n c G; [discriminate|].
  destruct i as [|i]; simpl in *.
  - now inversion G; subst.
  - now apply IH.
Qed.

Lemma upper_class (c : ascii) :
  class_accepts false [Range "A" "Z"] c = Chars.isUpperAZ c.
Proof. destruct c as [[] [] [] [] [] [] [] []]; reflexivity. Qed.

Lemma model_class (c : ascii) :
  class_accepts false [Range "A" "Z"; Range "0" "9"; One "-"; One "/"] c = isModelChar c.
Proof. destruct c as [[] [] [] [] [] [] [] []]; reflexivity. Qed.

Lemma mark_class (c : ascii) :
  class_accepts false [Range "0" "9"; One "-"; One "/"] c = isModelMark c.
Proof. destruct c as [[] [] [] [] [] [] [] []]; reflexivity. Qed.

Lemma upper_not_mark (c : ascii) : Chars.isUpperAZ c = true -> isModelMark c = false.
Proof. destruct c as [[] [] [] [] [] [] [] []]; vm_compute; congruence. Qed.

Lemma upper_not_digit (c : ascii) : Chars.isUpperAZ c = true -> Chars.isDigit c = false.
Proof. destruct c as [[] [] [] [] [] [] [] []]; vm_compute; congruence. Qed.

(** What the pattern of model tokens matches. *)
Lemma model_exec (input : string) (li : nat) (m : ExecArray) :
  exec MODEL_TOKEN_GLOBAL input li = Some m ->
  exists c rest,
    whole m = String c rest
    /\ Chars.isUpperAZ c = true
    /\ 2 <= String.length rest /\ String.length rest <= 15
    /\ Str.forallb isModelChar rest = true.
Proof.
  intros E. pose proof (exec_valid _ _ _ E) as V. apply exec_matchAt in E.
  unfold matchAt in E. cbn [flagI source MODEL_TOKEN_GLOBAL Seqs] in E.
  rewrite matcher_seq in E. apply matcher_boundary in E. destruct E as [_ E].
  rewrite matcher_seq in E. apply matcher_class in E. cbn [endIndex captures] in E.
  destruct E as (c & G & A & E).
  pose proof E as E'. apply matcher_sound in E'. destruct E' as (y & Hy & [L _ _]).
  inversion Hy; subst y; clear Hy.
  apply matcher_text in E. destruct E as (y & Hy & [Sp _]).
  inversion Hy; subst y; clear Hy. cbn [endIndex] in *.
  pose proof (span_max Sp (k := 15) eq_refl) as M.
  change (minlen _) with 2 in L.
  destruct V as [_ _ B W _].
  exists c, (Str.slice input (S (index m)) (lastEnd m)).
  apply slice_span in Sp. destruct Sp as [Hl Hf]. rewrite Hl.
  split; [|split; [now rewrite <- upper_class | split; [lia | split; [lia|]]]].
  - rewrite W. unfold Str.slice.
    replace (lastEnd m - index m) with (S (lastEnd m - S (index m))) by lia.
    now apply substring_get.
  - revert Hf. apply forallb_impl. intros ch Hc. cbn [alphabet] in Hc.
    rewrite orb_false_r in Hc. now rewrite <- model_class.
Qed.

Lemma test_modelish (s : string) :
  test MODELISH_REGEX s = true -> Str.existsb isModelMark s = true.
Proof.
  unfold test. destruct (exec MODELISH_REGEX s 0) as [m|] eqn:E; [|discriminate].
  intros _. apply exec_matchAt in E. unfold matchAt in E.
  cbn [flagI source MODELISH_REGEX] in E. apply matcher_class in E.
  destruct E as (ch & G & A & _). cbn [endIndex] in G.
  apply existsb_get with (j := index m) (ch := ch); [assumption|].
  now rewrite <- mark_class.
Qed.

Lemma model_token (input : string) (li : nat) (m : ExecArray) :
  exec MODEL_TOKEN_GLOBAL input li = Some m ->
  test MODELISH_REGEX (whole m) = true ->
  isModelToken (whole m) = true.
Proof.
  intros E T. destruct (model_exec _ _ E) as (c & rest & W & U & L2 & L15 & F).
  apply test_modelish in T. rewrite W in *. simpl in T.
  rewrite (upper_not_mark _ U) in T. simpl in T.
  unfold isModelToken. rewrite U, F, T.
  replace (2 <=? String.length rest) with true by (symmetry; apply Nat.leb_le; lia).
  replace (String.length rest <=? 15) with true by (symmetry; apply Nat.leb_le; lia).
  reflexivity.
Qed.

Lemma model_token_not_numbered (nm : string) :
  isModelToken nm = true -> beginsWithNumber nm = false.
Proof.
  destruct nm as [|c rest]; [discriminate|]. unfold isModelToken.
  rewrite !andb_true_iff. intros ((((U & _) & _) & _) & _).
  apply upper_not_digit in U.
  unfold beginsWithNumber, digitsThenBoundary. simpl. rewrite U. simpl.
  now rewrite !andb_false_r.
Qed.

Lemma pushName_shape (st : NameAcc) (nm : string) (raw : RawMatch) :
  Forall NameShape (acc_names st) -> NameShape nm ->
  Forall NameShape (acc_names (pushName st nm raw)).
Proof. intros H Hn. simpl. now apply Forall_snoc. Qed.

Lemma nospace_cb_shape (input : string) (st : NameAcc) (li : nat) (m : ExecArray) :
  exec LOCO_NAME_NOSPACE_GLOBAL input li = Some m ->
  Forall NameShape (acc_names st) ->
  Forall NameShape (acc_names (nospace_cb input st m)).
Proof.
  intros E H. unfold nospace_cb.
  destruct (isStopword _); [assumption|].
  destruct (negb (modelish _)); [assumption|].
  destruct (includes (acc_names st) _); [assumption|].
  apply pushName_shape; [assumption|]. left.
  pose proof (exec_valid _ _ _ E) as V. pose proof (exec_text _ _ _ E) as [_ G].
  destruct (G 1 (Rep 3 (Some 5) digit) eq_refl) as (s & e & Hl & Sp).
  destruct V as [_ _ B _ [Wi _ S]].
  destruct (S 1 3 eq_refl) as (s' & e' & Hl' & Hk). rewrite Hl in Hl'.
  inversion Hl'; subst s' e'; clear Hl'.
  apply lookup_in in Hl as Hin. rewrite Forall_forall in Wi. apply Wi in Hin.
  unfold within in Hin. simpl in Hin.
  assert (Hg : group input m 1 = Str.slice input s e) by (unfold group; now rewrite Hl).
  rewrite Hg. rewrite <- numbered_name.
  change (" " ++ group input m 2)%string with (String " " (group input m 2)).
  apply numbered_of_prefix. apply (digits_span Sp); lia.
Qed.

Lemma phrase_cb_shape (input : string) (st : NameAcc) (li : nat) (m : ExecArray) :
  exec LOCO_NUMBER_START_GLOBAL input li = Some m ->
  Forall NameShape (acc_names st) ->
  Forall NameShape (acc_names (phrase_cb input st m)).
Proof.
  intros E H. unfold phrase_cb.
  destruct (exec AFTER_NUMBER_REGEX _ 0) as [am|] eqn:Ea; [|assumption].
  destruct (isStopword _); [assumption|].
  destruct (negb (List.existsb modelish _)); [assumption|].
  destruct (List.length _ <? 2) eqn:Hlen; [assumption|].
  destruct (includes (acc_names st) _); [assumption|].
  apply pushName_shape; [assumption|]. left. rewrite <- numbered_name.
  eapply phrase_numbered; [| |reflexivity|exact Hlen].
  - change LOCO_NUMBER_START_GLOBAL with LOCO_NUMBER_GLOBAL in E.
    pose proof (exec_valid _ _ _ E) as V. apply number_exec in E.
    destruct E as (T & Hle & W & Wl & _). apply digitToken_parts in T.
    destruct T as (H3 & H5 & A & _). unfold isLocoNo. rewrite Wl.
    replace (3 <=? lastEnd m - index m) with true by (symmetry; apply Nat.leb_le; lia).
    replace (lastEnd m - index m <=? 5) with true by (symmetry; apply Nat.leb_le; lia).
    simpl. rewrite W.
    assert (Sp : Span false input (Rep 3 (Some 5) digit) (index m) (lastEnd m)).
    { constructor; [assumption | intros k Hk; inversion Hk; lia |].
      intros i Hi. destruct (@allAt_get _ input _ _ A (i - index m)) as (ch & G & D); [lia|].
      replace (index m + (i - index m)) with i in G by lia.
      exists ch. split; [assumption|]. cbn [alphabet digit]. now rewrite digit_class. }
    apply slice_span in Sp. destruct Sp as [_ F]. revert F. apply forallb_impl.
    intros c Hc. cbn [alphabet digit] in Hc. now rewrite digit_class in Hc.
  - now apply afterText_shape.
Qed.

Lemma model_cb_shape (input : string) (st : NameAcc) (li : nat) (m : ExecArray) :
  exec MODEL_TOKEN_GLOBAL input li = Some m ->
  Forall NameShape (acc_names st) ->
  Forall NameShape (acc_names (model_cb input st m)).
Proof.
  intros E H. unfold model_cb.
  destruct (isStopword _); [assumption|].
  destruct (test MODELISH_REGEX (whole m)) eqn:T; [|assumption]. cbn [negb].
  destruct (negb (nearKeywords _ _ _ _)); [assumption|].
  destruct (List.existsb _ (acc_names st)); [assumption|].
  apply pushName_shape; [assumption|]. right. now apply model_token with (li := li) (input := input).
Qed.

Lemma namePhases_shape (input : string) (st : NameAcc) :
  namePhases input = Some st -> Forall NameShape (acc_names st).
Proof.
  unfold namePhases. intros E.
  destruct (forEachMatch input LOCO_NAME_NOSPACE_GLOBAL (nospace_cb input)
                         (mkNameAcc [] [])) as [st0|] eqn:E0; [|discriminate].
  simpl in E.
  destruct (forEachMatch input LOCO_NUMBER_START_GLOBAL (phrase_cb input) st0)
    as [st1|] eqn:E1; [|discriminate].
  simpl in E.
  scan_inv (fun st => Forall NameShape (acc_names st)) E;
    [now apply model_cb_shape with (li := li)|].
  scan_inv (fun st => Forall NameShape (acc_names st)) E1;
    [now apply phrase_cb_shape with (li := li)|].
  scan_inv (fun st => Forall NameShape (acc_names st)) E0;
    [now apply nospace_cb_shape with (li := li)|].
  constructor.
Qed.

End NameFacts.

(** ** Letter case *)

Module CaseFacts.

Import RegExp Loco Spec Shape StrFacts RegExpFacts TextFacts ScanFacts AnchorFacts.
Import ArrayFacts ShapeFacts AssetFacts.

Lemma get_map (f : ascii -> ascii) (s : string) :
  forall i, String.get i (Str.map f s) = option_map f (String.get i s).
Proof.
  induction s as [|c s IH]; intros i; [reflexivity|].
  destruct i as [|i]; simpl; [reflexivity | apply IH].
Qed.

Lemma hex_toLower (c : ascii) : isHex (Chars.toLowerAZ c) = isHex c.
Proof. destruct c as [[] [] [] [] [] [] [] []]; reflexivity. Qed.

Lemma wordChar_toLower (c : ascii) :
  Chars.isWordChar (Chars.toLowerAZ c) = Chars.isWordChar c.
Proof. destruct c as [[] [] [] [] [] [] [] []]; reflexivity. Qed.

Lemma toLower_idem (c : ascii) : Chars.toLower (Chars.toLowerAZ c) = Chars.toLower c.
Proof. destruct c as [[] [] [] [] [] [] [] []]; reflexivity. Qed.

Lemma toLowerCase_idem (s : string) : Str.toLowerCase (lowerAZ s) = Str.toLowerCase s.
Proof.
  unfold Str.toLowerCase, lowerAZ. induction s as [|c s IH]; simpl; [reflexivity|].
  now rewrite toLower_idem, IH.
Qed.

Lemma isWordCharAt_lower (s : string) (i : nat) :
  isWordCharAt (lowerAZ s) i = isWordCharAt s i.
Proof.
  unfold isWordCharAt, lowerAZ. rewrite get_map.
  destruct (String.get i s); simpl; [apply wordChar_toLower | reflexivity].
Qed.

Lemma allAt_lower (s : string) :
  forall n i, allAt isHex (lowerAZ s) i n = allAt isHex s i n.
Proof.
  unfold lowerAZ. induction n as [|n IH]; intros i; simpl; [reflexivity|].
  rewrite get_map. destruct (String.get i s); simpl; [|reflexivity].
  now rewrite hex_toLower, IH.
Qed.

(** Asset ids stand at the same places whatever the case of the letters. *)
Lemma assetTokenAt_lower (s : string) (i : nat) :
  assetTokenAt (lowerAZ s) i = assetTokenAt s i.
Proof.
  unfold assetTokenAt, wordCharBefore.
  rewrite allAt_lower, isWordCharAt_lower.
  destruct i; [reflexivity | now rewrite isWordCharAt_lower].
Qed.

Lemma slice_lower (s : string) (a b : nat) :
  Str.slice (lowerAZ s) a b = lowerAZ (Str.slice s a b).
Proof. unfold Str.slice, lowerAZ. now rewrite map_substring. Qed.

End CaseFacts.

(** ** The compiled module and the source *)

Module LegacyFacts.

Import RegExp Loco Spec Shape RegExpFacts AnchorFacts.

Lemma matcher_alt (ic : bool) (input : string) (r1 r2 : regex)
      (x : MatchState) (c : Continuation) :
  matcher ic input (Alt r1 r2) x c
  = match matcher ic input r1 x c with
    | Some z => Some z
    | None => matcher ic input r2 x c
    end.
Proof. reflexivity. Qed.

(** The two alternatives that the source adds to the pattern: a [d] at the
    end of a word. *)
Lemma d_suffix (tail : string) :
  succeeds (matcher false tail
                    (Group 1 (Alt (Seq (Lit "d") WordBoundary) (Seq (Lit "d") sp)))
                    (mkState 0 []) Some)
  = startsWithWord tail "d".
Proof.
  unfold startsWithWord.
  destruct tail as [|c1 [|c2 rest]].
  - reflexivity.
  - destruct c1 as [[] [] [] [] [] [] [] []]; reflexivity.
  - destruct c1 as [[] [] [] [] [] [] [] []]; try reflexivity.
    destruct c2 as [[] [] [] [] [] [] [] []]; reflexivity.
Qed.

(** The pattern of the source matches where the compiled one does, or
    where the two added alternatives do. *)
Lemma dayish_split (tail : string) :
  test Loco.DAYISH_REGEX tail
  = test Legacy.DAYISH_REGEX tail || startsWithWord tail "d".
Proof.
  rewrite (@test_anchored Loco.DAYISH_REGEX _ tail eq_refl).
  rewrite (@test_anchored Legacy.DAYISH_REGEX _ tail eq_refl).
  rewrite <- d_suffix. unfold matchAt.
  cbn [flagI source Loco.DAYISH_REGEX Legacy.DAYISH_REGEX Alts].
  set (a := Seqs [Star sp; Lit "-"; Star sp; days; WordBoundary]).
  set (b := Seqs [Plus sp; days; WordBoundary]).
  set (c := Seqs [Lit "-"; Star sp; days; WordBoundary]).
  set (d := Seq (Lit "d") WordBoundary).
  set (e := Seq (Lit "d") sp).
  change (matcher false tail (Seq LineStart ?r) (mkState 0 []) Some)
    with (matcher false tail r (mkState 0 []) Some).
  change (matcher false tail (Group 1 ?r) (mkState 0 []) Some)
    with (matcher false tail r (mkState 0 [])
                  (fun y => Some (mkState (endIndex y) ((1, (0, endIndex y)) :: captures y)))).
  set (K := fun y => Some (mkState (endIndex y) ((1, (0, endIndex y)) :: captures y))).
  rewrite !matcher_alt.
  destruct (matcher false tail a (mkState 0 []) K); [reflexivity|].
  destruct (matcher false tail b (mkState 0 []) K); [reflexivity|].
  destruct (matcher false tail c (mkState 0 []) K); [reflexivity|].
  now destruct (matcher false tail d (mkState 0 []) K).
Qed.

End LegacyFacts.

(** ** Years *)

Module YearFacts.

Import RegExp Loco Spec Shape PhraseFacts.

Lemma digitValue_bound (c : ascii) : Chars.isDigit c = true -> digitValue c <= 9.
Proof. destruct c as [[] [] [] [] [] [] [] []]; vm_compute; intros H; (discriminate || lia). Qed.

Lemma number_acc_step (c : ascii) (s : string) (acc : nat) :
  Str.number_acc (String c s) acc = Str.number_acc s (10 * acc + digitValue c).
Proof. reflexivity. Qed.

Lemma looksLikeYear_spec (n : nat) :
  looksLikeYear n = true <-> 1900 <= n <= 2099.
Proof. unfold looksLikeYear. rewrite andb_true_iff, !Nat.leb_le. tauto. Qed.

Lemma bool_iff (a b : bool) : (a = true <-> b = true) -> a = b.
Proof. destruct a, b; intros [H1 H2]; try reflexivity; [symmetry|]; auto. Qed.

Lemma digit_of_value (c : ascii) :
  Chars.isDigit c = true -> c = ascii_of_nat (48 + digitValue c).
Proof.
  destruct c as [[] [] [] [] [] [] [] []]; vm_compute; intros H;
    (discriminate H || reflexivity).
Qed.

(** A comparison with a digit character, as a comparison of values. *)
Lemma dec_value (k c : ascii) (A : Type) (a b : A) :
  Chars.isDigit k = true -> Chars.isDigit c = true ->
  (if ascii_dec k c then a else b) = (if digitValue c =? digitValue k then a else b).
Proof.
  intros Hk Hc. destruct (ascii_dec k c) as [E|E].
  - subst. now rewrite Nat.eqb_refl.
  - destruct (Nat.eqb_spec (digitValue c) (digitValue k)) as [V|V]; [|reflexivity].
    exfalso. apply E. rewrite (digit_of_value k Hk), (digit_of_value c Hc). now rewrite V.
Qed.

(** [looksLikeYear(Number(numText))] on a number of 3 to 5 digits, read off
    its digits. *)
Lemma year_of_text (t : string) :
  isLocoNo t = true -> looksLikeYear (Str.toNumber t) = isYearText t.
Proof.
  intros H. apply isLocoNo_parts in H. destruct H as (H3 & H5 & D).
  apply bool_iff. rewrite looksLikeYear_spec. unfold isYearText, Str.toNumber.
  destruct t as [|c0 [|c1 [|c2 [|c3 [|c4 [|c5 t]]]]]]; simpl in H3, H5; try lia;
    simpl in D; rewrite !andb_true_iff in D.
  - (* three digits *)
    destruct D as (D0 & D1 & D2 & _).
    pose proof (digitValue_bound c0 D0). pose proof (digitValue_bound c1 D1).
    pose proof (digitValue_bound c2 D2).
    rewrite !number_acc_step. cbn [Str.number_acc String.length Nat.eqb andb orb].
    split; [intros ?; exfalso; lia | discriminate].
  - (* four digits *)
    destruct D as (D0 & D1 & D2 & D3 & _).
    pose proof (digitValue_bound c0 D0). pose proof (digitValue_bound c1 D1).
    pose proof (digitValue_bound c2 D2). pose proof (digitValue_bound c3 D3).
    rewrite !number_acc_step.
    cbn [Str.number_acc String.length Nat.eqb andb orb prefix].
    rewrite !dec_value by (assumption || reflexivity).
    change (digitValue "0") with 0. change (digitValue "1") with 1.
    change (digitValue "2") with 2. change (digitValue "9") with 9.
    destruct (Nat.eqb_spec (digitValue c0) 1), (Nat.eqb_spec (digitValue c1) 9),
             (Nat.eqb_spec (digitValue c0) 2), (Nat.eqb_spec (digitValue c1) 0);
      cbn [orb]; (split; [intros ?; try reflexivity; exfalso; lia
                         | intros ?; try discriminate; lia]).
  - (* five digits *)
    destruct D as (D0 & D1 & D2 & D3 & D4 & _).
    pose proof (digitValue_bound c0 D0). pose proof (digitValue_bound c1 D1).
    pose proof (digitValue_bound c2 D2). pose proof (digitValue_bound c3 D3).
    pose proof (digitValue_bound c4 D4).
    rewrite !number_acc_step.
    cbn [Str.number_acc String.length Nat.eqb andb orb prefix].
    rewrite !dec_value by (assumption || reflexivity).
    change (digitValue "0") with 0. change (digitValue "1") with 1.
    change (digitValue "2") with 2. change (digitValue "9") with 9.
    destruct (Nat.eqb_spec (digitValue c0) 0), (Nat.eqb_spec (digitValue c1) 1),
             (Nat.eqb_spec (digitValue c2) 9), (Nat.eqb_spec (digitValue c1) 2),
             (Nat.eqb_spec (digitValue c2) 0);
      cbn [orb]; (split; [intros ?; try reflexivity; exfalso; lia
                         | intros ?; try discriminate; lia]).
Qed.

End YearFacts.

(** * When a pattern succeeds *)

Module SuccessFacts.

Import RegExp Loco Spec Shape StrFacts RegExpFacts TextFacts ScanFacts AssetFacts.
Import AfterFacts.

Lemma lit_class (a c : ascii) : class_accepts false [One a] c = Ascii.eqb a c.
Proof. unfold class_accepts, class_has. simpl. apply orb_false_r. Qed.

(** A run of literal characters matches where the characters stand. *)
Lemma word_matcher (s : string) (c : Continuation) :
  forall w x,
    w <> "" ->
    matcher false s (Word w) x c
    = if occursAt w s (endIndex x)
      then c (mkState (endIndex x + String.length w) (captures x))
      else None.
Proof.
  induction w as [|a w IH]; intros x H; [congruence|].
  destruct w as [|b w].
  - cbn [Word Lit matcher occursAt String.length].
    destruct (String.get (endIndex x) s) as [ch|]; [|reflexivity].
    rewrite lit_class, andb_true_r, Nat.add_1_r. reflexivity.
  - change (Word (String a (String b w))) with (Seq (Lit a) (Word (String b w))).
    rewrite matcher_seq. unfold Lit. cbn [matcher].
    change (occursAt (String a (String b w)) s (endIndex x))
      with (match String.get (endIndex x) s with
            | Some ch => Ascii.eqb a ch && occursAt (String b w) s (S (endIndex x))
            | None => false
            end).
    destruct (String.get (endIndex x) s) as [ch|]; [|reflexivity].
    rewrite lit_class. destruct (Ascii.eqb a ch); [|reflexivity].
    rewrite IH by discriminate. cbn [endIndex captures andb].
    replace (S (endIndex x) + String.length (String b w))
      with (endIndex x + String.length (String a (String b w))) by (simpl; lia).
    reflexivity.
Qed.

(** An alternation succeeds when one of its alternatives does. *)
Lemma alts_succeeds (ic : bool) (s : string) (x : MatchState) (c : Continuation) :
  forall rs,
    rs <> [] ->
    succeeds (matcher ic s (Alts rs) x c)
    = List.existsb (fun r => succeeds (matcher ic s r x c)) rs.
Proof.
  induction rs as [|r rs IH]; intros H; [congruence|].
  destruct rs as [|r' rs].
  - simpl. now rewrite orb_false_r.
  - change (Alts (r :: r' :: rs)) with (Alt r (Alts (r' :: rs))).
    transitivity (succeeds (matcher ic s r x c)
                  || succeeds (matcher ic s (Alts (r' :: rs)) x c)).
    + cbn [matcher]. now destruct (matcher ic s r x c).
    + now rewrite IH by discriminate.
Qed.

(** A pattern matches somewhere exactly when [test] says so. *)
Lemma test_exists (re : RegExp) (s : string) :
  test re s = true
  <-> exists p, p <= String.length s
                /\ succeeds (matchAt (flagI re) s (source re) p) = true.
Proof.
  unfold test. split.
  - destruct (exec re s 0) as [m|] eqn:E; [|discriminate]. intros _.
    exists (index m). pose proof (exec_valid _ _ _ E) as V.
    rewrite (exec_matchAt _ _ _ E). split; [|reflexivity].
    destruct V as [_ L B _ _]. lia.
  - intros (p & Hp & S).
    destruct (@exec_complete re s 0 p) as (m & E & _); [lia | assumption | |].
    + intros N. rewrite N in S. discriminate.
    + now rewrite E.
Qed.

(** Before a word character there is a word boundary exactly when no word
    character stands there; after one, exactly when none follows. *)
Lemma boundary_before (s : string) (p : nat) :
  isWordCharAt s p = true -> atWordBoundary s p = negb (wordCharBefore s p).
Proof.
  intros H. unfold atWordBoundary, wordCharBefore. rewrite H.
  destruct p; [reflexivity | now destruct (isWordCharAt s p)].
Qed.

Lemma boundary_after (s : string) (p : nat) :
  isWordCharAt s p = true -> atWordBoundary s (S p) = negb (isWordCharAt s (S p)).
Proof.
  intros H. unfold atWordBoundary. rewrite H. now destruct (isWordCharAt s (S p)).
Qed.

Lemma occursAt_get (w s : string) :
  forall p k, occursAt w s p = true -> k < String.length w ->
              String.get (p + k) s = String.get k w.
Proof.
  induction w as [|a w IH]; intros p k H Hk; simpl in Hk; [lia|].
  simpl in H. destruct (String.get p s) as [ch|] eqn:G; [|discriminate].
  apply andb_true_iff in H. destruct H as [Ha Hw]. apply Ascii.eqb_eq in Ha. subst ch.
  destruct k as [|k]; simpl.
  - now rewrite Nat.add_0_r.
  - replace (p + S k) with (S p + k) by lia. apply IH; [assumption | lia].
Qed.

(** A word made of word characters, found in [s] between word boundaries,
    is a word of its own there. *)
Lemma wordAt_boundaries (w s : string) (p : nat) :
  w <> "" -> Str.forallb Chars.isWordChar w = true ->
  atWordBoundary s p && occursAt w s p && atWordBoundary s (p + String.length w)
  = wordAt w s p.
Proof.
  intros Hw F. unfold wordAt.
  destruct (occursAt w s p) eqn:O; [|now rewrite !andb_false_r].
  assert (L : 1 <= String.length w) by (destruct w; [congruence | simpl; lia]).
  assert (W : forall k, k < String.length w -> isWordCharAt s (p + k) = true).
  { intros k Hk. unfold isWordCharAt. rewrite (occursAt_get _ _ _ O Hk).
    destruct (SplitFacts.get_some w Hk) as [ch G]. rewrite G.
    eapply SplitFacts.forallb_get; eassumption. }
  pose proof (W 0 ltac:(lia)) as W0. rewrite Nat.add_0_r in W0.
  pose proof (W (String.length w - 1) ltac:(lia)) as W1.
  rewrite (boundary_before _ _ W0).
  replace (p + String.length w) with (S (p + (String.length w - 1))) by lia.
  rewrite (boundary_after _ _ W1). now rewrite andb_true_r.
Qed.

End SuccessFacts.

(** * Alternatives of whole words *)

Module WordFacts.

Import RegExp Loco Spec Shape StrFacts RegExpFacts TextFacts ScanFacts.
Import AssetFacts AfterFacts SuccessFacts.

Lemma existsb_map (A B : Type) (f : A -> B) (g : B -> bool) (l : list A) :
  List.existsb g (List.map f l) = List.existsb (fun a => g (f a)) l.
Proof. induction l as [|a l IH]; simpl; [reflexivity | now rewrite IH]. Qed.

Lemma existsb_ext_in (A : Type) (f g : A -> bool) (l : list A) :
  (forall a, In a l -> f a = g a) -> List.existsb f l = List.existsb g l.
Proof.
  induction l as [|a l IH]; intros H; simpl; [reflexivity|].
  rewrite (H a) by now left. rewrite IH; [reflexivity|]. intros b Hb. apply H. now right.
Qed.

Lemma existsb_andb (A : Type) (b : bool) (f : A -> bool) (l : list A) :
  b && List.existsb f l = List.existsb (fun a => b && f a) l.
Proof.
  induction l as [|a l IH]; simpl; [apply andb_false_r|].
  rewrite <- IH. now destruct b.
Qed.

(** A pattern [\b(w1|w2|...)\b] of words matches at [p] exactly when one of
    the words is a word of its own there. *)
Lemma words_matchAt (s : string) (n : nat) (ws : list string) (p : nat) :
  ws <> [] ->
  Forall (fun w => w <> "" /\ Str.forallb Chars.isWordChar w = true) ws ->
  succeeds (matchAt false s (Seqs [WordBoundary; Group n (Alts (List.map Word ws));
                                   WordBoundary]) p)
  = List.existsb (fun w => wordAt w s p) ws.
Proof.
  intros Hne F. unfold matchAt. cbn [Seqs]. rewrite matcher_seq.
  cbn [matcher endIndex].
  change (fun y : MatchState =>
            matcher false s (Group n (Alts (List.map Word ws))) y
                    (fun y0 : MatchState =>
                       if atWordBoundary s (endIndex y0) then Some y0 else None))
    with (fun y : MatchState =>
            matcher false s (Seq (Group n (Alts (List.map Word ws))) WordBoundary) y Some).
  transitivity (atWordBoundary s p
                && succeeds (matcher false s (Seq (Group n (Alts (List.map Word ws)))
                                                  WordBoundary) (mkState p []) Some)).
  { now destruct (atWordBoundary s p). }
  rewrite matcher_seq, matcher_group, alts_succeeds
    by (destruct ws; [congruence | discriminate]).
  rewrite existsb_map, existsb_andb. apply existsb_ext_in. intros w Hin.
  rewrite Forall_forall in F. destruct (F w Hin) as [Hw Fw].
  rewrite word_matcher by assumption. cbn [endIndex captures matcher].
  rewrite <- (wordAt_boundaries s p Hw Fw).
  now destruct (atWordBoundary s p), (occursAt w s p),
    (atWordBoundary s (p + String.length w)).
Qed.

Lemma existsb_true (A : Type) (f : A -> bool) (l : list A) :
  List.existsb f l = true <-> exists a, In a l /\ f a = true.
Proof. apply existsb_exists. Qed.

Lemma wordAt_bound (w s : string) (p : nat) :
  w <> "" -> wordAt w s p = true -> p < String.length s.
Proof.
  intros Hw H. unfold wordAt in H. rewrite !andb_true_iff in H. destruct H as [[O _] _].
  destruct w as [|a w]; [congruence|]. simpl in O.
  destruct (String.get p s) as [ch|] eqn:G; [|discriminate]. now apply get_lt in G.
Qed.

(** [nearKeywords] on its window. *)
Lemma keyword_test (ctx : string) :
  test KEYWORD_REGEX ctx = true
  <-> exists w p, In w KEYWORDS /\ wordAt w ctx p = true.
Proof.
  rewrite test_exists. cbn [flagI source KEYWORD_REGEX].
  change (Alts [Word "loco"; Word "locomotive"; Word "unit"; Word "engine"])
    with (Alts (List.map Word KEYWORDS)).
  assert (F : Forall (fun w => w <> "" /\ Str.forallb Chars.isWordChar w = true) KEYWORDS).
  { repeat constructor; discriminate. }
  split.
  - intros (p & Hp & S). rewrite words_matchAt in S; [|discriminate|exact F].
    apply existsb_exists in S. destruct S as (w & Hin & Hw). now exists w, p.
  - intros (w & p & Hin & Hw). exists p. split.
    + pose proof F as F'. rewrite Forall_forall in F'. destruct (F' w Hin) as [Hne _].
      pose proof (@wordAt_bound w ctx p Hne Hw). lia.
    + rewrite words_matchAt; [|discriminate|exact F].
      apply existsb_exists. now exists w.
Qed.

End WordFacts.

(** * Runs of one character class *)

Module RunFacts.

Import RegExp Loco Spec Shape StrFacts RegExpFacts TextFacts ScanFacts.
Import AssetFacts AfterFacts CaseFacts SuccessFacts WordFacts.

(** The matcher of a class, as one step. *)
Lemma class_step (ic : bool) (s : string) (items : list citem)
      (x : MatchState) (c : Continuation) :
  matcher ic s (Class items) x c
  = if allAt (class_accepts ic items) s (endIndex x) 1
    then c (mkState (S (endIndex x)) (captures x))
    else None.
Proof.
  cbn [matcher allAt]. destruct (String.get (endIndex x) s) as [ch|]; [|reflexivity].
  now rewrite andb_true_r.
Qed.

Lemma allAt_S (p : ascii -> bool) (s : string) (i n : nat) :
  allAt p s i (S n) = allAt p s i 1 && allAt p s (S i) n.
Proof.
  cbn [allAt]. destruct (String.get i s) as [ch|]; [|reflexivity].
  now rewrite andb_true_r.
Qed.

(** A quantifier over a class with nothing required succeeds exactly when
    what follows it succeeds after some number of characters of the class,
    no more than it may take. *)
Lemma repeat_succeeds (ic : bool) (s : string) (items : list citem) (c : Continuation) :
  forall left x,
    succeeds (repeat (matcher ic s (Class items)) left 0 x c) = true
    <-> exists n, n <= left
                  /\ allAt (class_accepts ic items) s (endIndex x) n = true
                  /\ succeeds (c (mkState (endIndex x + n) (captures x))) = true.
Proof.
  induction left as [|left IH]; intros x.
  - cbn [repeat]. split.
    + intros H. exists 0. rewrite Nat.add_0_r. destruct x.
           split; [lia|]. split; [reflexivity | exact H].
    + intros (n & Hn & _ & H). assert (n = 0) by lia. subst.
      rewrite Nat.add_0_r in H. now destruct x.
  - cbn [repeat Nat.eqb pred andb]. rewrite class_step. cbn [endIndex captures].
    replace (S (endIndex x) =? endIndex x) with false
      by (symmetry; apply Nat.eqb_neq; lia).
    destruct (allAt (class_accepts ic items) s (endIndex x) 1) eqn:A.
    + specialize (IH (mkState (S (endIndex x)) (captures x))). cbn [endIndex captures] in IH.
      destruct (repeat (matcher ic s (Class items)) left 0
                       (mkState (S (endIndex x)) (captures x)) c) as [z|] eqn:R.
      * split; [intros _ | reflexivity].
        destruct (proj1 IH eq_refl) as (n & Hn & An & Hc).
        exists (S n). split; [lia|]. split; [now rewrite allAt_S, A, An|].
        rewrite Nat.add_succ_r. exact Hc.
      * split.
        -- intros H. exists 0. rewrite Nat.add_0_r. destruct x.
           split; [lia|]. split; [reflexivity | exact H].
        -- intros (n & Hn & An & Hc). destruct n as [|n].
           ++ rewrite Nat.add_0_r in Hc. now destruct x.
           ++ rewrite allAt_S in An. apply andb_true_iff in An.
              assert (X : succeeds (@None MatchState) = true).
              { apply IH. exists n. split; [lia|]. split; [tauto|].
                rewrite Nat.add_succ_r in Hc. exact Hc. }
              discriminate X.
    + split.
      * intros H. exists 0. rewrite Nat.add_0_r. destruct x.
           split; [lia|]. split; [reflexivity | exact H].
      * intros (n & Hn & An & Hc). destruct n as [|n].
        -- rewrite Nat.add_0_r in Hc. now destruct x.
        -- rewrite allAt_S, A in An. discriminate.
Qed.

Lemma allAt_length (p : ascii -> bool) (s : string) :
  forall n i, allAt p s i n = true -> n = 0 \/ i + n <= String.length s.
Proof.
  induction n as [|n IH]; intros i H; [now left|]. right.
  simpl in H. destruct (String.get i s) as [ch|] eqn:G; [|discriminate].
  apply andb_true_iff in H. destruct H as [_ H]. apply get_lt in G.
  destruct (IH _ H) as [->|L]; lia.
Qed.

(** [C*]: what follows succeeds after some characters of the class. *)
Lemma star_succeeds (ic : bool) (s : string) (items : list citem)
      (x : MatchState) (c : Continuation) :
  succeeds (matcher ic s (Star (Class items)) x c) = true
  <-> exists n, allAt (class_accepts ic items) s (endIndex x) n = true
                /\ succeeds (c (mkState (endIndex x + n) (captures x))) = true.
Proof.
  change (matcher ic s (Star (Class items)) x c)
    with (repeat (matcher ic s (Class items)) (0 + (String.length s - endIndex x)) 0 x c).
  rewrite repeat_succeeds. split.
  - intros (n & _ & H). now exists n.
  - intros (n & A & H). exists n. split; [|now split].
    destruct (allAt_length _ _ _ _ A) as [->|L]; lia.
Qed.

(** [C+]: the same, after at least one character. *)
Lemma plus_succeeds (ic : bool) (s : string) (items : list citem)
      (x : MatchState) (c : Continuation) :
  succeeds (matcher ic s (Plus (Class items)) x c) = true
  <-> exists n, allAt (class_accepts ic items) s (endIndex x) (S n) = true
                /\ succeeds (c (mkState (endIndex x + S n) (captures x))) = true.
Proof.
  change (matcher ic s (Plus (Class items)) x c)
    with (repeat (matcher ic s (Class items)) (S (String.length s - endIndex x)) 1 x c).
  cbn [repeat Nat.eqb pred andb]. rewrite class_step. cbn [endIndex captures].
  destruct (allAt (class_accepts ic items) s (endIndex x) 1) eqn:A.
  - rewrite repeat_succeeds. cbn [endIndex captures]. split.
    + intros (n & _ & An & H). exists n. split; [now rewrite allAt_S, A, An|].
      rewrite Nat.add_succ_r. exact H.
    + intros (n & An & H). rewrite allAt_S, A in An. exists n.
      split; [|split; [exact An|]].
      * destruct (allAt_length _ _ _ _ An) as [->|L]; lia.
      * rewrite Nat.add_succ_r in H. exact H.
  - split; [discriminate|]. intros (n & An & _). rewrite allAt_S, A in An. discriminate.
Qed.

(** [r?] for a class: what follows succeeds after one character of the
    class, or at once. *)
Lemma opt_succeeds (ic : bool) (s : string) (items : list citem)
      (x : MatchState) (c : Continuation) :
  succeeds (matcher ic s (Opt (Class items)) x c)
  = (allAt (class_accepts ic items) s (endIndex x) 1
     && succeeds (c (mkState (S (endIndex x)) (captures x))))
    || succeeds (c x).
Proof.
  change (matcher ic s (Opt (Class items)) x c)
    with (repeat (matcher ic s (Class items)) 1 0 x c).
  cbn [repeat Nat.eqb pred andb]. rewrite class_step.
  cbn [endIndex captures].
  replace (S (endIndex x) =? endIndex x) with false by (symmetry; apply Nat.eqb_neq; lia).
  destruct (allAt (class_accepts ic items) s (endIndex x) 1); [|reflexivity].
  now destruct (c (mkState (S (endIndex x)) (captures x))).
Qed.

End RunFacts.

(** * The domain words *)

Module DomainFacts.

Import RegExp Loco Spec Shape StrFacts RegExpFacts TextFacts ScanFacts.
Import AssetFacts AfterFacts CaseFacts SuccessFacts WordFacts RunFacts.

Lemma lit_class_ci (a c : ascii) :
  Chars.isLowerAZ a = true -> class_accepts true [One a] c = Ascii.eqb a (Chars.toLowerAZ c).
Proof.
  intros H. destruct a as [[] [] [] [] [] [] [] []]; try discriminate H; clear H;
    destruct c as [[] [] [] [] [] [] [] []]; reflexivity.
Qed.

Lemma space_class_ci (c : ascii) : class_accepts true [Space] c = Chars.isSpace c.
Proof. destruct c as [[] [] [] [] [] [] [] []]; reflexivity. Qed.

Lemma space_toLower (c : ascii) : Chars.isSpace (Chars.toLowerAZ c) = Chars.isSpace c.
Proof. destruct c as [[] [] [] [] [] [] [] []]; reflexivity. Qed.


Lemma allAt_space_lower (s : string) :
  forall n i, allAt Chars.isSpace (lowerAZ s) i n = allAt Chars.isSpace s i n.
Proof.
  unfold lowerAZ. induction n as [|n IH]; intros i; simpl; [reflexivity|].
  rewrite get_map. destruct (String.get i s); simpl; [|reflexivity].
  now rewrite space_toLower, IH.
Qed.

Lemma atWordBoundary_lower (s : string) (p : nat) :
  atWordBoundary (lowerAZ s) p = atWordBoundary s p.
Proof.
  unfold atWordBoundary. rewrite isWordCharAt_lower.
  destruct p; [reflexivity | now rewrite isWordCharAt_lower].
Qed.

(** With the [i] flag, a run of small letters matches where the letters
    stand in the lower case of the input. *)
Lemma word_matcher_ci (s : string) (c : Continuation) :
  forall w x,
    w <> "" -> Str.forallb Chars.isLowerAZ w = true ->
    matcher true s (Word w) x c
    = if occursAt w (lowerAZ s) (endIndex x)
      then c (mkState (endIndex x + String.length w) (captures x))
      else None.
Proof.
  induction w as [|a w IH]; intros x H F; [congruence|].
  simpl in F. apply andb_true_iff in F. destruct F as [Fa Fw].
  destruct w as [|b w].
  - cbn [Word Lit matcher occursAt String.length]. unfold lowerAZ.
    rewrite get_map.
    destruct (String.get (endIndex x) s) as [ch|]; [|reflexivity]. simpl option_map.
    cbv iota. rewrite (@lit_class_ci a ch Fa), andb_true_r, Nat.add_1_r. reflexivity.
  - change (Word (String a (String b w))) with (Seq (Lit a) (Word (String b w))).
    rewrite matcher_seq. unfold Lit. cbn [matcher].
    change (occursAt (String a (String b w)) (lowerAZ s) (endIndex x))
      with (match String.get (endIndex x) (lowerAZ s) with
            | Some ch => Ascii.eqb a ch
                         && occursAt (String b w) (lowerAZ s) (S (endIndex x))
            | None => false
            end).
    unfold lowerAZ at 1. rewrite get_map.
    destruct (String.get (endIndex x) s) as [ch|]; [|reflexivity]. simpl option_map.
    cbv iota. rewrite (@lit_class_ci a ch Fa). destruct (Ascii.eqb a (Chars.toLowerAZ ch)); [|reflexivity].
    rewrite IH by (assumption || discriminate). cbn [endIndex captures andb].
    replace (S (endIndex x) + String.length (String b w))
      with (endIndex x + String.length (String a (String b w))) by (simpl; lia).
    reflexivity.
Qed.

Lemma lowerAZ_wordChar (w : string) :
  Str.forallb Chars.isLowerAZ w = true -> Str.forallb Chars.isWordChar w = true.
Proof.
  apply forallb_impl. intros c H. unfold Chars.isWordChar. now rewrite H.
Qed.


(** The alternative [out\s*of\s*use]. *)
Lemma outOfUse_succeeds (input : string) (x : MatchState) (K : Continuation) :
  succeeds (matcher true input
                    (Seqs [Word "out"; Star sp; Word "of"; Star sp; Word "use"]) x K) = true
  <-> exists a b,
        occursAt "out" (lowerAZ input) (endIndex x) = true
        /\ allAt Chars.isSpace (lowerAZ input) (endIndex x + 3) a = true
        /\ occursAt "of" (lowerAZ input) (endIndex x + 3 + a) = true
        /\ allAt Chars.isSpace (lowerAZ input) (endIndex x + 3 + a + 2) b = true
        /\ occursAt "use" (lowerAZ input) (endIndex x + 3 + a + 2 + b) = true
        /\ succeeds (K (mkState (endIndex x + 3 + a + 2 + b + 3) (captures x))) = true.
Proof.
  cbn [Seqs]. rewrite matcher_seq, word_matcher_ci by (reflexivity || discriminate).
  change (String.length "out") with 3.
  destruct (occursAt "out" (lowerAZ input) (endIndex x)) eqn:O1;
    [|split; [discriminate | intros (a & b & H & _); discriminate]].
  rewrite matcher_seq. unfold sp. rewrite star_succeeds. cbn [endIndex captures].
  split.
  - intros (a & A & H). rewrite matcher_seq, word_matcher_ci in H
      by (reflexivity || discriminate).
    cbn [endIndex captures] in H. change (String.length "of") with 2 in H.
    destruct (occursAt "of" (lowerAZ input) (endIndex x + 3 + a)) eqn:O2;
      [|discriminate].
    rewrite matcher_seq, star_succeeds in H. cbn [endIndex captures] in H.
    destruct H as (b & B & H). rewrite word_matcher_ci in H by (reflexivity || discriminate).
    cbn [endIndex captures] in H. change (String.length "use") with 3 in H.
    destruct (occursAt "use" (lowerAZ input) (endIndex x + 3 + a + 2 + b)) eqn:O3;
      [|discriminate].
    exists a, b. rewrite !allAt_space_lower.
    rewrite (allAt_ext _ _ input space_class_ci) in A, B. now repeat split.
  - intros (a & b & _ & A & O2 & B & O3 & H). rewrite !allAt_space_lower in *.
    exists a. split; [now rewrite (allAt_ext _ _ input space_class_ci)|].
    rewrite matcher_seq, word_matcher_ci by (reflexivity || discriminate).
    cbn [endIndex captures]. change (String.length "of") with 2. rewrite O2.
    rewrite matcher_seq, star_succeeds. cbn [endIndex captures].
    exists b. split; [now rewrite (allAt_ext _ _ input space_class_ci)|].
    rewrite word_matcher_ci by (reflexivity || discriminate).
    cbn [endIndex captures]. change (String.length "use") with 3. now rewrite O3.
Qed.

Lemma occursAt_wordChar (w s : string) (p k : nat) :
  Str.forallb Chars.isWordChar w = true -> occursAt w s p = true ->
  k < String.length w -> isWordCharAt s (p + k) = true.
Proof.
  intros F O Hk. unfold isWordCharAt. rewrite (occursAt_get _ _ _ O Hk).
  destruct (SplitFacts.get_some w Hk) as [ch G]. rewrite G.
  eapply SplitFacts.forallb_get; eassumption.
Qed.

(** Where the pattern of [hasDomainContext] matches. *)
Lemma domain_matchAt (input : string) (p : nat) :
  succeeds (matchAt true input (source DOMAIN_REGEX) p) = true
  <-> (exists w, In w DOMAIN_WORDS /\ wordAt w (lowerAZ input) p = true)
      \/ (exists a b, outOfUseAt (lowerAZ input) p a b = true).
Proof.
  set (L := lowerAZ input).
  set (ws1 := ["due"; "overdue"; "inspection"; "inspections"; "expiry"; "expires";
               "expiring"; "next"; "credit"]).
  set (ws2 := ["status"; "upcoming"; "schedule"; "scheduled"; "pending"; "completed";
               "history"]).
  set (phrase := Seqs [Word "out"; Star sp; Word "of"; Star sp; Word "use"]).
  change (source DOMAIN_REGEX)
    with (Seqs [WordBoundary;
                Group 1 (Alts (List.map Word ws1 ++ phrase :: List.map Word ws2));
                WordBoundary]).
  assert (F : Forall (fun w => w <> "" /\ Str.forallb Chars.isLowerAZ w = true)
                     DOMAIN_WORDS).
  { repeat constructor; discriminate. }
  rewrite Forall_forall in F.
  unfold matchAt. cbn [Seqs]. rewrite matcher_seq. cbn [matcher endIndex captures].
  set (K := fun y : MatchState =>
              matcher true input WordBoundary
                      (mkState (endIndex y) ((1, (p, endIndex y)) :: captures y)) Some).
  assert (HK : forall e caps, succeeds (K (mkState e caps)) = atWordBoundary L e).
  { intros e caps. unfold K, L. cbn [matcher endIndex]. rewrite atWordBoundary_lower.
    now destruct (atWordBoundary input e). }
  assert (W : forall w, In w DOMAIN_WORDS ->
                atWordBoundary L p
                && succeeds (matcher true input (Word w) (mkState p []) K)
                = wordAt w L p).
  { intros w Hin. destruct (F w Hin) as [Hne Fw].
    rewrite word_matcher_ci by assumption. cbn [endIndex captures].
    rewrite <- (wordAt_boundaries L p Hne (lowerAZ_wordChar _ Fw)). fold L.
    destruct (occursAt w L p); [|now rewrite !andb_false_r].
    now rewrite HK, andb_true_r. }
  assert (P : atWordBoundary L p = true
              /\ succeeds (matcher true input phrase (mkState p []) K) = true
              <-> exists a b, outOfUseAt L p a b = true).
  { unfold phrase. rewrite outOfUse_succeeds. cbn [endIndex captures]. fold L.
    unfold outOfUseAt. split.
    - intros (B & a & b & O1 & A1 & O2 & A2 & O3 & H). exists a, b.
      rewrite HK in H. rewrite O1, A1, O2, A2, O3. cbn [andb].
      pose proof (@occursAt_wordChar "out" L p 0 eq_refl O1 ltac:(simpl; lia)) as W0.
      pose proof (@occursAt_wordChar "use" L _ 2 eq_refl O3 ltac:(simpl; lia)) as W1.
      rewrite Nat.add_0_r in W0. rewrite (boundary_before _ _ W0) in B.
      replace (p + 3 + a + 2 + b + 3) with (S (p + 3 + a + 2 + b + 2)) in * by lia.
      rewrite (boundary_after _ _ W1) in H. now rewrite B, H.
    - intros (a & b & H). rewrite !andb_true_iff in H.
      destruct H as ((((((O1 & A1) & O2) & A2) & O3) & B) & E).
      pose proof (@occursAt_wordChar "out" L p 0 eq_refl O1 ltac:(simpl; lia)) as W0.
      pose proof (@occursAt_wordChar "use" L _ 2 eq_refl O3 ltac:(simpl; lia)) as W1.
      rewrite Nat.add_0_r in W0. rewrite (boundary_before _ _ W0).
      split; [exact B|]. exists a, b. rewrite HK.
      replace (p + 3 + a + 2 + b + 3) with (S (p + 3 + a + 2 + b + 2)) in * by lia.
      rewrite (boundary_after _ _ W1). now repeat split. }
  transitivity (atWordBoundary L p = true
                /\ succeeds (matcher true input
                                     (Alts (List.map Word ws1 ++ phrase :: List.map Word ws2))
                                     (mkState p []) K) = true).
  { unfold L. rewrite atWordBoundary_lower.
    change (fun y : MatchState =>
              if atWordBoundary input (endIndex y)
              then Some (mkState (endIndex y) ((1, (p, endIndex y)) :: captures y))
              else None) with K.
    destruct (atWordBoundary input p);
      [|split; [discriminate | intros [H _]; discriminate]].
    split; [now split | now intros [_ H]]. }
  rewrite alts_succeeds by discriminate.
  rewrite existsb_app. cbn [List.existsb]. rewrite !existsb_map.
  rewrite !orb_true_iff, !existsb_exists. split.
  - intros (B & [(w & Hin & H) | [H | (w & Hin & H)]]).
    + left. exists w. assert (Hin' : In w DOMAIN_WORDS).
      { unfold DOMAIN_WORDS. change (In w (ws1 ++ ws2)). apply in_or_app. now left. }
      split; [exact Hin'|]. rewrite <- (W w Hin'), B, H. reflexivity.
    + right. apply P. now split.
    + left. exists w. assert (Hin' : In w DOMAIN_WORDS).
      { unfold DOMAIN_WORDS. change (In w (ws1 ++ ws2)). apply in_or_app. now right. }
      split; [exact Hin'|]. rewrite <- (W w Hin'), B, H. reflexivity.
  - intros [(w & Hin & H) | H].
    + rewrite <- (W w Hin) in H. apply andb_true_iff in H. destruct H as [B H].
      split; [exact B|]. change (In w (ws1 ++ ws2)) in Hin. apply in_app_or in Hin.
      destruct Hin as [Hin|Hin]; [left | right; right]; now exists w.
    + apply P in H. destruct H as [B H]. split; [exact B|]. right. now left.
Qed.

End DomainFacts.

(** * The words around a count *)

Module CountFacts.

Import RegExp Loco Spec Shape StrFacts RegExpFacts TextFacts ScanFacts.
Import AssetFacts AfterFacts CaseFacts SuccessFacts WordFacts RunFacts DomainFacts.

Lemma occursAt_bound (w s : string) (p : nat) :
  w <> "" -> occursAt w s p = true -> p < String.length s.
Proof.
  intros Hw O. destruct w as [|a w]; [congruence|]. simpl in O.
  destruct (String.get p s) as [ch|] eqn:G; [|discriminate]. now apply get_lt in G.
Qed.

(** [\s*$]: white space up to the end. *)
Lemma toEnd_succeeds (s : string) (x : MatchState) :
  succeeds (matcher false s (Seq (Star sp) LineEnd) x Some) = true
  <-> spacesToEnd s (endIndex x) = true.
Proof.
  rewrite matcher_seq. unfold sp. rewrite star_succeeds. unfold spacesToEnd.
  rewrite andb_true_iff, Nat.leb_le. split.
  - intros (n & A & H). cbn [matcher endIndex] in H.
    destruct (endIndex x + n =? String.length s) eqn:E; [|discriminate].
    apply Nat.eqb_eq in E. split; [lia|].
    replace (String.length s - endIndex x) with n by lia.
    now rewrite <- (allAt_ext _ _ s space_class).
  - intros [L A]. exists (String.length s - endIndex x). split.
    + now rewrite (allAt_ext _ _ s space_class).
    + cbn [matcher endIndex].
      replace (endIndex x + (String.length s - endIndex x)) with (String.length s) by lia.
      now rewrite Nat.eqb_refl.
Qed.

Lemma boundary_succeeds (ic : bool) (s : string) (x : MatchState) (c : Continuation) :
  succeeds (matcher ic s WordBoundary x c)
  = atWordBoundary s (endIndex x) && succeeds (c x).
Proof. cbn [matcher]. now destruct (atWordBoundary s (endIndex x)). Qed.

Lemma lineStart_succeeds (ic : bool) (s : string) (x : MatchState) (c : Continuation) :
  succeeds (matcher ic s LineStart x c) = (endIndex x =? 0) && succeeds (c x).
Proof. cbn [matcher]. now destruct (endIndex x =? 0). Qed.

Lemma word_succeeds (s : string) (w : string) (x : MatchState) (c : Continuation) :
  w <> "" ->
  succeeds (matcher false s (Word w) x c)
  = occursAt w s (endIndex x)
    && succeeds (c (mkState (endIndex x + String.length w) (captures x))).
Proof.
  intros H. rewrite word_matcher by assumption. now destruct (occursAt w s (endIndex x)).
Qed.

Lemma starts_boundary (w s : string) (p : nat) :
  w <> "" -> Str.forallb Chars.isWordChar w = true -> occursAt w s p = true ->
  atWordBoundary s p = negb (wordCharBefore s p).
Proof.
  intros Hw F O. apply boundary_before.
  assert (L : 0 < String.length w) by (destruct w; [congruence | simpl; lia]).
  pose proof (@occursAt_wordChar w s p 0 F O L) as W. now rewrite Nat.add_0_r in W.
Qed.

Lemma ends_boundary (w s : string) (p : nat) :
  w <> "" -> Str.forallb Chars.isWordChar w = true -> occursAt w s p = true ->
  atWordBoundary s (p + String.length w) = negb (isWordCharAt s (p + String.length w)).
Proof.
  intros Hw F O.
  assert (L : 0 < String.length w) by (destruct w; [congruence | simpl; lia]).
  pose proof (@occursAt_wordChar w s p (String.length w - 1) F O ltac:(lia)) as W.
  replace (p + String.length w) with (S (p + (String.length w - 1))) by lia.
  now apply boundary_after.
Qed.

(** A pattern [\b(w1|w2|...)\s*$] matches at [p] exactly when one of the
    words starts there and closes the text. *)
Lemma endWords_matchAt (s : string) (n : nat) (ws : list string) (p : nat) :
  ws <> [] ->
  Forall (fun w => w <> "" /\ Str.forallb Chars.isWordChar w = true) ws ->
  succeeds (matchAt false s (Seqs [WordBoundary; Group n (Alts (List.map Word ws));
                                   Star sp; LineEnd]) p) = true
  <-> exists w, In w ws /\ endsWithWordAt w s p = true.
Proof.
  intros Hne F. rewrite Forall_forall in F. unfold matchAt. cbn [Seqs].
  rewrite matcher_seq, boundary_succeeds, matcher_seq, matcher_group.
  rewrite alts_succeeds by (destruct ws; [congruence | discriminate]).
  rewrite existsb_map, andb_true_iff, existsb_exists. cbn [endIndex captures].
  unfold endsWithWordAt. split.
  - intros (B & w & Hin & H). destruct (F w Hin) as [Hw Fw].
    rewrite word_succeeds in H by assumption. cbn [endIndex captures] in H.
    apply andb_true_iff in H. destruct H as [O H]. apply toEnd_succeeds in H.
    cbn [endIndex] in H. exists w. split; [exact Hin|].
    rewrite <- (starts_boundary s p Hw Fw O), O, B, H. reflexivity.
  - intros (w & Hin & H). destruct (F w Hin) as [Hw Fw].
    rewrite !andb_true_iff in H. destruct H as [[O B] H].
    rewrite (starts_boundary s p Hw Fw O). split; [exact B|].
    exists w. split; [exact Hin|]. rewrite word_succeeds by assumption.
    cbn [endIndex captures]. rewrite O. cbn [andb]. apply toEnd_succeeds. exact H.
Qed.

(** [test] on such a pattern. *)
Lemma endWords_test (re : RegExp) (n : nat) (ws : list string) (s : string) :
  flagI re = false ->
  source re = Seqs [WordBoundary; Group n (Alts (List.map Word ws)); Star sp; LineEnd] ->
  ws <> [] ->
  Forall (fun w => w <> "" /\ Str.forallb Chars.isWordChar w = true) ws ->
  test re s = true <-> exists w p, In w ws /\ endsWithWordAt w s p = true.
Proof.
  intros Hi Hs Hne F. rewrite test_exists, Hi, Hs. split.
  - intros (p & _ & H). apply endWords_matchAt in H; [|assumption|assumption].
    destruct H as (w & Hin & H). now exists w, p.
  - intros (w & p & Hin & H). exists p. split.
    + rewrite Forall_forall in F. destruct (F w Hin) as [Hw _].
      unfold endsWithWordAt in H. rewrite !andb_true_iff in H. destruct H as [[O _] _].
      pose proof (occursAt_bound _ _ Hw O). lia.
    + apply endWords_matchAt; [assumption|assumption|]. now exists w.
Qed.

Lemma alt_succeeds (ic : bool) (s : string) (r1 r2 : regex)
      (x : MatchState) (c : Continuation) :
  succeeds (matcher ic s (Alt r1 r2) x c)
  = succeeds (matcher ic s r1 x c) || succeeds (matcher ic s r2 x c).
Proof. cbn [matcher]. now destruct (matcher ic s r1 x c). Qed.

(** The phrases [number\s+of] and [count\s+of]. *)
Lemma ofPhrase_succeeds (s w : string) (x : MatchState) (K : Continuation) :
  w <> "" ->
  succeeds (matcher false s (Seqs [Word w; Plus sp; Word "of"]) x K) = true
  <-> exists a,
        occursAt w s (endIndex x) = true
        /\ allAt Chars.isSpace s (endIndex x + String.length w) (S a) = true
        /\ occursAt "of" s (endIndex x + String.length w + S a) = true
        /\ succeeds (K (mkState (endIndex x + String.length w + S a + 2) (captures x)))
           = true.
Proof.
  intros Hw. cbn [Seqs]. rewrite matcher_seq, word_succeeds, andb_true_iff by assumption.
  rewrite matcher_seq. unfold sp. rewrite plus_succeeds. cbn [endIndex captures]. split.
  - intros (O & a & A & H). rewrite word_succeeds in H by discriminate.
    cbn [endIndex captures] in H. apply andb_true_iff in H. destruct H as [O2 H].
    exists a. rewrite (allAt_ext _ _ s space_class) in A. now repeat split.
  - intros (a & O & A & O2 & H). split; [exact O|]. exists a.
    rewrite (allAt_ext _ _ s space_class). split; [exact A|].
    rewrite word_succeeds by discriminate. cbn [endIndex captures].
    now rewrite O2.
Qed.

Lemma numberOf_matchAt (s : string) (p : nat) :
  succeeds (matchAt false s (source COUNT_LEFT_NUMBER_OF) p) = true
  <-> exists w a, In w OF_WORDS /\ endsWithOfAt w s p a = true.
Proof.
  unfold matchAt. cbn [source COUNT_LEFT_NUMBER_OF Seqs].
  rewrite matcher_seq, boundary_succeeds, matcher_seq, matcher_group, alt_succeeds.
  rewrite andb_true_iff, orb_true_iff.
  change (Seq (Word "number") (Seq (Plus sp) (Word "of")))
    with (Seqs [Word "number"; Plus sp; Word "of"]).
  change (Seq (Word "count") (Seq (Plus sp) (Word "of")))
    with (Seqs [Word "count"; Plus sp; Word "of"]).
  rewrite !ofPhrase_succeeds by discriminate. cbn [endIndex captures].
  assert (R : forall w, In w OF_WORDS ->
                atWordBoundary s p = true
                /\ (exists a,
                      occursAt w s p = true
                      /\ allAt Chars.isSpace s (p + String.length w) (S a) = true
                      /\ occursAt "of" s (p + String.length w + S a) = true
                      /\ succeeds
                           (matcher false s (Seq (Star sp) LineEnd)
                                    (mkState (p + String.length w + S a + 2)
                                             [(1, (p, p + String.length w + S a + 2))])
                                    Some) = true)
                <-> exists a, endsWithOfAt w s p a = true).
  { intros w Hin.
    assert (Hw : w <> "" /\ Str.forallb Chars.isWordChar w = true).
    { destruct Hin as [<-|[<-|[]]]; split; (discriminate || reflexivity). }
    destruct Hw as [Hw Fw]. unfold endsWithOfAt. split.
    - intros (B & a & O & A & O2 & H). exists a. apply toEnd_succeeds in H.
      cbn [endIndex] in H.
      rewrite <- (starts_boundary s p Hw Fw O), O, B, A, O2, H. reflexivity.
    - intros (a & H). rewrite !andb_true_iff in H.
      destruct H as [[[[O B] A] O2] H].
      rewrite (starts_boundary s p Hw Fw O). split; [exact B|]. exists a.
      repeat split; try assumption. apply toEnd_succeeds. exact H. }
  split.
  - intros [B [H|H]].
    + destruct (proj1 (R "number" ltac:(now left)) (conj B H)) as [a Ha].
      exists "number", a. split; [now left | exact Ha].
    + destruct (proj1 (R "count" ltac:(right; now left)) (conj B H)) as [a Ha].
      exists "count", a. split; [right; now left | exact Ha].
  - intros (w & a & Hin & H).
    destruct (proj2 (R w Hin) (ex_intro _ a H)) as [B H'].
    split; [exact B|]. destruct Hin as [<-|[<-|[]]]; [left | right]; exact H'.
Qed.

Lemma occursAt_app (w v s : string) :
  forall p, occursAt (w ++ v) s p = occursAt w s p && occursAt v s (p + String.length w).
Proof.
  induction w as [|a w IH]; intros p; simpl.
  - now rewrite Nat.add_0_r.
  - destruct (String.get p s) as [ch|]; [|reflexivity].
    rewrite IH, andb_assoc. now rewrite Nat.add_succ_r.
Qed.

(** A word with an optional [s], closed by a word boundary. *)
Lemma plural_succeeds (s w : string) (x : MatchState) (K : Continuation) :
  w <> "" -> Str.forallb Chars.isWordChar w = true ->
  (forall e caps, succeeds (K (mkState e caps)) = atWordBoundary s e) ->
  succeeds (matcher false s (plural w) x K)
  = occursAt w s (endIndex x)
    && negb (isWordCharAt s (endIndex x + String.length w))
    || occursAt (w ++ "s") s (endIndex x)
       && negb (isWordCharAt s (endIndex x + String.length (w ++ "s"))).
Proof.
  intros Hw Fw HK. unfold plural. rewrite matcher_seq, word_succeeds by assumption.
  unfold Lit. rewrite opt_succeeds. cbn [endIndex captures].
  rewrite !HK, occursAt_app, length_append. change (String.length "s") with 1.
  destruct (occursAt w s (endIndex x)) eqn:O; [|reflexivity]. cbn [andb].
  rewrite (ends_boundary s (endIndex x) Hw Fw O).
  rewrite (allAt_ext _ _ s (lit_class "s")).
  set (e := endIndex x + String.length w).
  replace (endIndex x + (String.length w + 1)) with (S e) by (unfold e; lia).
  cbn [allAt occursAt].
  destruct (String.get e s) as [ch|] eqn:G.
  - rewrite !andb_true_r. destruct (Ascii.eqb "s" ch) eqn:Es.
    + apply Ascii.eqb_eq in Es. subst ch.
      assert (W : isWordCharAt s e = true) by (unfold isWordCharAt; now rewrite G).
      rewrite (boundary_after _ _ W). cbn [andb]. apply orb_comm.
    + cbn [andb orb]. symmetry. apply orb_false_r.
  - cbn [andb orb]. symmetry. apply orb_false_r.
Qed.

(** Where the pattern of the counted things matches. *)
Lemma items_after (s : string) (a : nat) :
  succeeds (matcher false s
                    (Seq (Group 1 (Alts (List.map plural ITEM_WORDS))) WordBoundary)
                    (mkState a []) Some) = true
  <-> exists w, In w ITEM_WORDS
                /\ (occursAt w s a && negb (isWordCharAt s (a + String.length w))
                    || occursAt (w ++ "s") s a
                       && negb (isWordCharAt s (a + String.length (w ++ "s")))) = true.
Proof.
  rewrite matcher_seq, matcher_group, alts_succeeds by discriminate.
  rewrite existsb_map, existsb_exists. cbn [endIndex captures].
  assert (F : Forall (fun w => w <> "" /\ Str.forallb Chars.isWordChar w = true)
                     ITEM_WORDS).
  { repeat constructor; discriminate. }
  rewrite Forall_forall in F.
  split; intros (w & Hin & H); exists w; (split; [exact Hin|]);
    destruct (F w Hin) as [Hw Fw].
  - rewrite plural_succeeds in H; [exact H | assumption | assumption |].
    intros e caps. rewrite boundary_succeeds. cbn [endIndex succeeds]. apply andb_true_r.
  - rewrite plural_succeeds; [exact H | assumption | assumption |].
    intros e caps. rewrite boundary_succeeds. cbn [endIndex succeeds]. apply andb_true_r.
Qed.

Lemma items_test (s : string) :
  test COUNT_RIGHT_ITEMS s = true
  <-> exists w a,
        In w ITEM_WORDS
        /\ (startsWithWordAt w s a = true \/ startsWithWordAt (w ++ "s") s a = true).
Proof.
  rewrite test_exists. cbn [flagI source COUNT_RIGHT_ITEMS].
  change (Alts [plural "inspection"; plural "loco"; plural "locomotive"; plural "unit";
                plural "engine"; plural "record"; plural "item"; plural "result"])
    with (Alts (List.map plural ITEM_WORDS)).
  unfold matchAt, startsWithWordAt. cbn [Seqs]. split.
  - intros (p & _ & H). rewrite matcher_seq, lineStart_succeeds in H.
    apply andb_true_iff in H. destruct H as [P H]. cbn [endIndex] in P.
    apply Nat.eqb_eq in P. subst p. rewrite matcher_seq in H. unfold sp in H.
    apply star_succeeds in H. cbn [endIndex captures] in H.
    destruct H as (a & A & H). rewrite (allAt_ext _ _ s space_class) in A.
    change (0 + a) with a in H. apply items_after in H. destruct H as (w & Hin & H).
    exists w, a. split; [exact Hin|]. rewrite A. cbn [andb].
    apply orb_true_iff in H. exact H.
  - intros (w & a & Hin & H). exists 0. split; [lia|].
    rewrite matcher_seq, lineStart_succeeds. cbn [endIndex Nat.eqb andb].
    rewrite matcher_seq. unfold sp. apply star_succeeds. cbn [endIndex captures].
    exists a. rewrite (allAt_ext _ _ s space_class). change (0 + a) with a.
    assert (A : allAt Chars.isSpace s 0 a = true).
    { destruct H as [H|H]; rewrite !andb_true_iff in H; tauto. }
    split; [exact A|]. apply items_after. exists w. split; [exact Hin|].
    rewrite A in H. cbn [andb] in H. apply orb_true_iff. exact H.
Qed.

Lemma countWords_test (s : string) :
  test COUNT_LEFT_TOP s = true
  <-> exists w p, In w COUNT_WORDS /\ endsWithWordAt w s p = true.
Proof.
  apply (@endWords_test COUNT_LEFT_TOP 1 COUNT_WORDS s);
    [reflexivity | reflexivity | discriminate | repeat constructor; discriminate].
Qed.

Lemma showWords_test (s : string) :
  test COUNT_LEFT_SHOW s = true
  <-> exists w p, In w SHOW_WORDS /\ endsWithWordAt w s p = true.
Proof.
  apply (@endWords_test COUNT_LEFT_SHOW 1 SHOW_WORDS s);
    [reflexivity | reflexivity | discriminate | repeat constructor; discriminate].
Qed.

Lemma numberOf_test (s : string) :
  test COUNT_LEFT_NUMBER_OF s = true
  <-> exists w p a, In w OF_WORDS /\ endsWithOfAt w s p a = true.
Proof.
  rewrite test_exists. cbn [flagI]. split.
  - intros (p & _ & H). apply numberOf_matchAt in H. destruct H as (w & a & Hin & H).
    now exists w, p, a.
  - intros (w & p & a & Hin & H). exists p. split.
    + unfold endsWithOfAt in H. rewrite !andb_true_iff in H.
      destruct H as [[[[O _] _] _] _].
      assert (Hw : w <> "") by (destruct Hin as [<-|[<-|[]]]; discriminate).
      pose proof (occursAt_bound _ _ Hw O). lia.
    + apply numberOf_matchAt. now exists w, a.
Qed.

End CountFacts.

(** * The day suffix *)

Module DayFacts.

Import RegExp Loco Spec Shape StrFacts RegExpFacts TextFacts ScanFacts.
Import AssetFacts AfterFacts CaseFacts SuccessFacts WordFacts RunFacts DomainFacts CountFacts.

Lemma space_not_word (c : ascii) : Chars.isSpace c = true -> Chars.isWordChar c = false.
Proof. destruct c as [[] [] [] [] [] [] [] []]; intros H; try discriminate H; reflexivity. Qed.

Section Always.

Variable s : string.
Variable K : Continuation.
Hypothesis HK : forall y, succeeds (K y) = true.

(** [days?\b] *)
Lemma days_succeeds (x : MatchState) :
  succeeds (matcher false s (Seq days WordBoundary) x K) = true
  <-> exists w, In w DAY_WORDS
                /\ occursAt w s (endIndex x) = true
                /\ isWordCharAt s (endIndex x + String.length w) = false.
Proof.
  rewrite matcher_seq. change days with (plural "day").
  rewrite plural_succeeds; [|discriminate|reflexivity|].
  2:{ intros e caps. rewrite boundary_succeeds, HK. apply andb_true_r. }
  rewrite orb_true_iff, !andb_true_iff, !negb_true_iff. unfold DAY_WORDS. split.
  - intros [[O W]|[O W]]; [exists "day" | exists "days"]; simpl; tauto.
  - intros (w & [<-|[<-|[]]] & O & W); [left | right]; now split.
Qed.

(** [\s*-\s*days?\b] *)
Lemma dashDays_succeeds (e : nat) :
  succeeds (matcher false s (Seqs [Star sp; Lit "-"; Star sp; days; WordBoundary])
                    (mkState e []) K) = true
  <-> exists w a b,
        In w DAY_WORDS
        /\ allAt Chars.isSpace s e a = true
        /\ occursAt "-" s (e + a) = true
        /\ allAt Chars.isSpace s (e + a + 1) b = true
        /\ occursAt w s (e + a + 1 + b) = true
        /\ isWordCharAt s (e + a + 1 + b + String.length w) = false.
Proof.
  cbn [Seqs]. rewrite matcher_seq. unfold sp. rewrite star_succeeds.
  cbn [endIndex captures]. change (Lit "-") with (Word "-"). split.
  - intros (a & A & H). rewrite matcher_seq, word_succeeds in H by discriminate.
    cbn [endIndex captures] in H. apply andb_true_iff in H. destruct H as [O H].
    rewrite matcher_seq in H. apply star_succeeds in H. cbn [endIndex captures] in H.
    destruct H as (b & B & H). apply days_succeeds in H. cbn [endIndex] in H.
    destruct H as (w & Hin & Ow & W). change (String.length "-") with 1 in *.
    rewrite (allAt_ext _ _ s space_class) in A, B. exists w, a, b. now repeat split.
  - intros (w & a & b & Hin & A & O & B & Ow & W). exists a.
    rewrite (allAt_ext _ _ s space_class). split; [exact A|].
    rewrite matcher_seq, word_succeeds by discriminate. cbn [endIndex captures].
    rewrite O. cbn [andb]. rewrite matcher_seq. apply star_succeeds.
    cbn [endIndex captures]. change (String.length "-") with 1. exists b.
    rewrite (allAt_ext _ _ s space_class). split; [exact B|].
    apply days_succeeds. cbn [endIndex]. now exists w.
Qed.

(** [\s+days?\b] *)
Lemma spaceDays_succeeds (e : nat) :
  succeeds (matcher false s (Seqs [Plus sp; days; WordBoundary]) (mkState e []) K) = true
  <-> exists w a,
        In w DAY_WORDS
        /\ allAt Chars.isSpace s e (S a) = true
        /\ occursAt w s (e + S a) = true
        /\ isWordCharAt s (e + S a + String.length w) = false.
Proof.
  cbn [Seqs]. rewrite matcher_seq. unfold sp. rewrite plus_succeeds.
  cbn [endIndex captures]. split.
  - intros (a & A & H). apply days_succeeds in H. cbn [endIndex] in H.
    destruct H as (w & Hin & Ow & W). rewrite (allAt_ext _ _ s space_class) in A.
    exists w, a. now repeat split.
  - intros (w & a & Hin & A & Ow & W). exists a.
    rewrite (allAt_ext _ _ s space_class). split; [exact A|].
    apply days_succeeds. cbn [endIndex]. now exists w.
Qed.

(** [-\s*days?\b]: the first alternative with no white space in front. *)
Lemma dashOnly_succeeds (e : nat) :
  succeeds (matcher false s (Seqs [Lit "-"; Star sp; days; WordBoundary])
                    (mkState e []) K) = true
  -> succeeds (matcher false s (Seqs [Star sp; Lit "-"; Star sp; days; WordBoundary])
                       (mkState e []) K) = true.
Proof.
  intros H. change (Seqs [Star sp; Lit "-"; Star sp; days; WordBoundary])
    with (Seq (Star sp) (Seqs [Lit "-"; Star sp; days; WordBoundary])).
  rewrite matcher_seq. unfold sp. apply star_succeeds. exists 0.
  split; [reflexivity|]. cbn [endIndex captures]. now rewrite Nat.add_0_r.
Qed.

(** [d\b] and [d\s] *)
Lemma dBoundary_succeeds (e : nat) :
  succeeds (matcher false s (Seq (Lit "d") WordBoundary) (mkState e []) K)
  = occursAt "d" s e && negb (isWordCharAt s (e + 1)).
Proof.
  change (Lit "d") with (Word "d"). rewrite matcher_seq, word_succeeds by discriminate.
  cbn [endIndex captures]. rewrite boundary_succeeds, HK, andb_true_r. cbn [endIndex].
  change (String.length "d") with 1.
  destruct (occursAt "d" s e) eqn:O; [|reflexivity]. cbn [andb].
  apply (@ends_boundary "d" s e); [discriminate | reflexivity | exact O].
Qed.

Lemma dSpace_succeeds (e : nat) :
  succeeds (matcher false s (Seq (Lit "d") sp) (mkState e []) K) = true ->
  occursAt "d" s e && negb (isWordCharAt s (e + 1)) = true.
Proof.
  change (Lit "d") with (Word "d"). rewrite matcher_seq, word_succeeds by discriminate.
  cbn [endIndex captures]. change (String.length "d") with 1. unfold sp.
  rewrite class_step. cbn [endIndex]. intros H. apply andb_true_iff in H.
  destruct H as [O H]. rewrite O. cbn [andb].
  destruct (allAt (class_accepts false [Space]) s (e + 1) 1) eqn:A; [|discriminate].
  rewrite (allAt_ext _ _ s space_class) in A. cbn [allAt] in A. unfold isWordCharAt.
  destruct (String.get (e + 1) s) as [ch|]; [|discriminate].
  rewrite andb_true_r in A. now rewrite (space_not_word _ A).
Qed.

End Always.

(** The pattern of [isFollowedByDayish] on the text after the number. *)
Lemma dayish_test (s : string) :
  test DAYISH_REGEX s = true
  <-> (exists w a b, In w DAY_WORDS /\ dashWordAt w s a b = true)
      \/ (exists w a, In w DAY_WORDS /\ startsWithWordAt w s (S a) = true)
      \/ startsWithWordAt "d" s 0 = true.
Proof.
  rewrite test_exists. cbn [flagI source DAYISH_REGEX].
  set (K := fun y : MatchState =>
              Some (mkState (endIndex y) ((1, (0, endIndex y)) :: captures y))).
  assert (HK : forall y, succeeds (K y) = true) by reflexivity.
  assert (E : forall p,
            succeeds (matchAt false s
                        (Seq LineStart
                             (Group 1 (Alts [Seqs [Star sp; Lit "-"; Star sp; days;
                                                   WordBoundary];
                                             Seqs [Plus sp; days; WordBoundary];
                                             Seqs [Lit "-"; Star sp; days; WordBoundary];
                                             Seq (Lit "d") WordBoundary;
                                             Seq (Lit "d") sp]))) p) = true
            <-> p = 0
                /\ (succeeds (matcher false s
                                (Seqs [Star sp; Lit "-"; Star sp; days; WordBoundary])
                                (mkState 0 []) K) = true
                    \/ succeeds (matcher false s (Seqs [Plus sp; days; WordBoundary])
                                         (mkState 0 []) K) = true
                    \/ succeeds (matcher false s
                                   (Seqs [Lit "-"; Star sp; days; WordBoundary])
                                   (mkState 0 []) K) = true
                    \/ succeeds (matcher false s (Seq (Lit "d") WordBoundary)
                                         (mkState 0 []) K) = true
                    \/ succeeds (matcher false s (Seq (Lit "d") sp)
                                         (mkState 0 []) K) = true)).
  { intros p. unfold matchAt. rewrite matcher_seq, lineStart_succeeds.
    rewrite andb_true_iff, Nat.eqb_eq. cbn [endIndex]. split.
    - intros [-> H]. split; [reflexivity|].
      rewrite matcher_group, alts_succeeds in H by discriminate.
      cbn [List.existsb endIndex captures] in H. fold K in H.
      rewrite orb_false_r, !orb_true_iff in H. tauto.
    - intros [-> H]. split; [reflexivity|].
      rewrite matcher_group, alts_succeeds by discriminate.
      cbn [List.existsb endIndex captures]. fold K.
      rewrite orb_false_r, !orb_true_iff. tauto. }
  unfold dashWordAt, startsWithWordAt. split.
  - intros (p & _ & H). apply E in H. destruct H as [_ H].
    assert (H' : succeeds (matcher false s
                             (Seqs [Star sp; Lit "-"; Star sp; days; WordBoundary])
                             (mkState 0 []) K) = true
                 \/ succeeds (matcher false s (Seqs [Plus sp; days; WordBoundary])
                                      (mkState 0 []) K) = true
                 \/ occursAt "d" s 0 && negb (isWordCharAt s (0 + 1)) = true).
    { destruct H as [H|[H|[H|[H|H]]]].
      - now left.
      - right. now left.
      - left. now apply (@dashOnly_succeeds s K 0).
      - right. right. now rewrite <- (@dBoundary_succeeds s K HK 0).
      - right. right. now apply (@dSpace_succeeds s K 0). }
    clear H. destruct H' as [H|[H|H]].
    + left. apply (@dashDays_succeeds s K HK 0) in H.
      destruct H as (w & a & b & Hin & A & O & B & Ow & W). exists w, a, b.
      split; [exact Hin|]. cbn [Nat.add] in *. now rewrite A, O, B, Ow, W.
    + right. left. apply (@spaceDays_succeeds s K HK 0) in H.
      destruct H as (w & a & Hin & A & Ow & W). exists w, a.
      split; [exact Hin|]. cbn [Nat.add] in *. now rewrite A, Ow, W.
    + right. right. exact H.
  - intros H. exists 0. split; [lia|]. apply E. split; [reflexivity|].
    destruct H as [(w & a & b & Hin & H)|[(w & a & Hin & H)|H]].
    + left. apply (@dashDays_succeeds s K HK 0). rewrite !andb_true_iff, negb_true_iff in H.
      destruct H as [[[[A O] B] Ow] W]. exists w, a, b. now repeat split.
    + right. left. apply (@spaceDays_succeeds s K HK 0).
      rewrite !andb_true_iff, negb_true_iff in H.
      destruct H as [[A Ow] W]. exists w, a. now repeat split.
    + right. right. right. left. rewrite (@dBoundary_succeeds s K HK 0). exact H.
Qed.

End DayFacts.

(** * The words of a name *)

Module CutFacts.

Import RegExp Loco Spec Shape StrFacts RegExpFacts TextFacts ScanFacts.
Import AssetFacts TokenScanFacts TrimFacts AfterFacts SplitFacts PhraseFacts NameFacts.
Import AnchorFacts ShapeFacts CountFacts.

Lemma substring_none (s : string) : forall p, substring p 0 s = "".
Proof. induction s as [|c s IH]; intros [|p]; simpl; auto. Qed.

Lemma allAt_substring (P : ascii -> bool) (s : string) :
  forall n p, allAt P s p n = true ->
              Str.forallb P (substring p n s) = true
              /\ String.length (substring p n s) = n.
Proof.
  induction n as [|n IH]; intros p H.
  - now rewrite substring_none.
  - simpl in H. destruct (String.get p s) as [ch|] eqn:G; [|discriminate].
    apply andb_true_iff in H. destruct H as [Hc H].
    rewrite (NameFacts.substring_get _ _ n G). simpl. rewrite Hc.
    destruct (IH _ H) as [F L]. now rewrite F, L.
Qed.

Lemma slice_plain (s : string) (p q : nat) :
  p < q -> allAt notSpace s p (q - p) = true -> isPlainWord (Str.slice s p q) = true.
Proof.
  intros L A. unfold isPlainWord, Str.slice.
  destruct (allAt_substring _ _ _ _ A) as [F Len]. rewrite F, andb_true_r.
  destruct (substring p (q - p) s); [simpl in Len; lia | reflexivity].
Qed.

Lemma get_none (s : string) (q : nat) : String.length s <= q -> String.get q s = None.
Proof.
  intros H. destruct (String.get q s) as [ch|] eqn:G; [|reflexivity].
  apply get_lt in G. lia.
Qed.

(** From any index on, the white space runs up to a character that is none,
    or up to the end. *)
Lemma spaces_run (s : string) :
  forall d q, q + d = String.length s ->
    exists n, q + n <= String.length s
              /\ allAt Chars.isSpace s q n = true
              /\ allAt Chars.isSpace s (q + n) 1 = false.
Proof.
  induction d as [|d IH]; intros q H.
  - exists 0. rewrite Nat.add_0_r. split; [lia|]. split; [reflexivity|].
    simpl. now rewrite get_none by lia.
  - destruct (@get_some s q) as [ch G]; [lia|].
    destruct (Chars.isSpace ch) eqn:Sp.
    + destruct (IH (S q)) as (n & L & A & E); [lia|]. exists (S n).
      split; [lia|]. split.
      * simpl. now rewrite G, Sp.
      * now replace (q + S n) with (S q + n) by lia.
    + exists 0. rewrite Nat.add_0_r. split; [lia|]. split; [reflexivity|].
      simpl. now rewrite G, Sp.
Qed.

(** [\s+] takes the whole run. *)
Lemma spaces_matchAt (s : string) (q n : nat) :
  1 <= n -> q + n <= String.length s ->
  allAt Chars.isSpace s q n = true ->
  allAt Chars.isSpace s (q + n) 1 = false ->
  matchAt false s (Plus sp) q = Some (mkState (q + n) []).
Proof.
  intros H1 L A E. unfold matchAt, Plus, sp. cbn [matcher endIndex].
  apply repeat_greedy with (n := n); cbn [endIndex captures].
  - now rewrite (allAt_ext _ _ s space_class).
  - right. now rewrite (allAt_ext _ _ s space_class).
  - exact H1.
  - lia.
  - reflexivity.
Qed.

Lemma allAt_snoc (P : ascii -> bool) (s : string) :
  forall n p, allAt P s p n = true -> allAt P s (p + n) 1 = true ->
              allAt P s p (S n) = true.
Proof.
  induction n as [|n IH]; intros p A E.
  - now rewrite Nat.add_0_r in E.
  - simpl in A. destruct (String.get p s) as [ch|] eqn:G; [|discriminate].
    apply andb_true_iff in A. destruct A as [Hc A].
    change (allAt P s p (S (S n)))
      with (match String.get p s with
            | Some ch => P ch && allAt P s (S p) (S n)
            | None => false
            end).
    rewrite G, Hc. cbn [andb]. apply IH; [exact A|].
    now replace (S p + n) with (p + S n) by lia.
Qed.

(** Cutting at white space a text that neither starts nor ends with white
    space gives plain words only. *)
Lemma split_loop_plain (s : string) :
  (forall c, String.get (String.length s - 1) s = Some c -> Chars.isSpace c = false) ->
  forall fuel p q out,
    p <= q -> q <= String.length s -> String.length s - q < fuel ->
    p < String.length s ->
    allAt notSpace s p 1 = true ->
    allAt notSpace s p (q - p) = true ->
    Forall (fun t => isPlainWord t = true) out ->
    Forall (fun t => isPlainWord t = true) (split_loop fuel SPACES_REGEX s p q out).
Proof.
  intros Hlast. induction fuel as [|fuel IH]; intros p q out Hpq Hq Hf Hp A1 A Hout; [lia|].
  cbn [split_loop].
  destruct (q <? String.length s) eqn:Eq.
  - apply Nat.ltb_lt in Eq. destruct (@get_some s q Eq) as [ch G].
    cbn [flagI source SPACES_REGEX]. destruct (Chars.isSpace ch) eqn:Sp.
    + destruct (spaces_run s (String.length s - q) q) as (n & L & R & E); [lia|].
      destruct n as [|n]; [rewrite Nat.add_0_r in E; simpl in E; rewrite G, Sp in E;
                           discriminate|].
      rewrite (@spaces_matchAt s q (S n)) by (assumption || lia).
      cbn [endIndex]. rewrite Nat.min_l by lia.
      assert (Hlt : p < q).
      { destruct (Nat.eq_dec p q) as [->|]; [|lia]. simpl in A1.
        rewrite G in A1. unfold notSpace in A1. rewrite Sp in A1. discriminate. }
      replace (q + S n =? p) with false by (symmetry; apply Nat.eqb_neq; lia).
      assert (Hend : q + S n < String.length s).
      { destruct (Nat.eq_dec (q + S n) (String.length s)) as [Ee|]; [|lia]. exfalso.
        destruct (@allAt_get _ s _ _ R n) as (c & Gc & Sc); [lia|].
        replace (q + n) with (String.length s - 1) in Gc by lia.
        rewrite (Hlast c Gc) in Sc. discriminate. }
      apply IH; try lia.
      * simpl in E. simpl. destruct (@get_some s (q + S n) Hend) as [c Gc].
        rewrite Gc in *. unfold notSpace. rewrite andb_true_r in E. now rewrite E.
      * now rewrite Nat.sub_diag.
      * apply Forall_app. split; [exact Hout|]. constructor; [|constructor].
        now apply slice_plain.
    + unfold sp. rewrite (@plus_fails false s [Space] q ch G) by now rewrite space_class.
      apply IH; try lia; try assumption.
      replace (S q - p) with (S (q - p)) by lia. apply allAt_snoc; [exact A|].
      replace (p + (q - p)) with q by lia. simpl. rewrite G. unfold notSpace.
      now rewrite Sp.
  - apply Nat.ltb_ge in Eq. assert (q = String.length s) by lia. subst q.
    apply Forall_app. split; [exact Hout|]. constructor; [|constructor].
    now apply slice_plain.
Qed.

Lemma split_plain (s : string) :
  allAt notSpace s 0 1 = true ->
  (forall c, String.get (String.length s - 1) s = Some c -> Chars.isSpace c = false) ->
  Forall (fun t => isPlainWord t = true) (split SPACES_REGEX s).
Proof.
  intros A1 Hlast. destruct s as [|c s]; [discriminate|]. unfold split.
  apply split_loop_plain; try assumption; try (simpl; lia); constructor.
Qed.

(** [trim] leaves no white space at the end. *)
Lemma dropWhile_head (p : ascii -> bool) (s : string) (c : ascii) (t : string) :
  Str.dropWhile p s = String c t -> p c = false.
Proof.
  induction s as [|a s IH]; simpl; [discriminate|].
  destruct (p a) eqn:E; [exact IH|]. intros H. inversion H; subst. exact E.
Qed.

Lemma trim_last (s : string) (c : ascii) :
  String.get (String.length (Str.trim s) - 1) (Str.trim s) = Some c ->
  Chars.isSpace c = false.
Proof.
  unfold Str.trim.
  destruct (Str.dropWhile Chars.isSpace (Str.rev (Str.dropWhile Chars.isSpace s)))
    as [|a t] eqn:E; [discriminate|].
  apply dropWhile_head in E. rewrite rev_cons, length_append. simpl.
  replace (String.length (Str.rev t) + 1 - 1) with (String.length (Str.rev t)) by lia.
  rewrite get_append_length. simpl. intros H. inversion H; subst. exact E.
Qed.

(** The array up to the first stop word holds none. *)
Lemma findStopword_cut (ts : list string) :
  forall i0,
    match findStopword ts i0 with
    | Some i => exists k, i = i0 + k
                          /\ Forall (fun t => isStopword (Str.toUpperCase t) = false)
                                    (firstn k ts)
    | None => Forall (fun t => isStopword (Str.toUpperCase t) = false) ts
    end.
Proof.
  induction ts as [|t ts IH]; intros i0; simpl; [constructor|].
  destruct (isStopword (Str.toUpperCase t)) eqn:E.
  - exists 0. split; [lia | constructor].
  - specialize (IH (S i0)). destruct (findStopword ts (S i0)) as [i|].
    + destruct IH as (k & -> & F). exists (S k). split; [lia|]. simpl. now constructor.
    + now constructor.
Qed.

(** The loop that pops stop words leaves a front part of the array. *)
Lemma popStopwords_rev_suffix (r : list string) :
  exists l, r = l ++ popStopwords_rev r.
Proof.
  induction r as [|t r IH]; [now exists []|].
  destruct r as [|u r]; [now exists []|].
  cbn [popStopwords_rev]. destruct (isStopword (Str.toUpperCase t)).
  - destruct IH as [l IH]. exists (t :: l). cbn [app]. f_equal. exact IH.
  - now exists [].
Qed.

Lemma popStopwords_front (tokens : list string) :
  exists l, tokens = popStopwords tokens ++ l.
Proof.
  unfold popStopwords. destruct (popStopwords_rev_suffix (List.rev tokens)) as [l E].
  exists (List.rev l). rewrite <- rev_app_distr, <- E. now rewrite List.rev_involutive.
Qed.

(** Stop words are made of capital letters. *)
Lemma stopword_capitals (w : string) :
  isStopword w = true -> Str.forallb Chars.isUpperAZ w = true.
Proof.
  unfold isStopword, includes. intros H. apply existsb_exists in H.
  destruct H as (x & Hin & E). apply String.eqb_eq in E. subst x.
  assert (F : List.forallb (Str.forallb Chars.isUpperAZ) NAME_STOPWORDS = true)
    by reflexivity.
  rewrite forallb_forall in F. now apply F.
Qed.

Lemma digit_upper (c : ascii) :
  Chars.isDigit c = true -> Chars.isUpperAZ (Chars.toUpper c) = false.
Proof. destruct c as [[] [] [] [] [] [] [] []]; vm_compute; congruence. Qed.

Lemma digit_notSpace (c : ascii) : Chars.isDigit c = true -> notSpace c = true.
Proof. destruct c as [[] [] [] [] [] [] [] []]; vm_compute; congruence. Qed.

(** A loco number is a word of a name. *)
Lemma number_nameWord (nt : string) : isLocoNo nt = true -> isNameWord nt = true.
Proof.
  intros H. apply isLocoNo_parts in H. destruct H as (H3 & _ & D).
  destruct nt as [|d nt]; [simpl in H3; lia|].
  unfold isNameWord, isPlainWord. cbn [String.eqb negb andb].
  rewrite (forallb_impl _ _ _ digit_notSpace D). cbn [andb].
  destruct (isStopword (Str.toUpperCase (String d nt))) eqn:E; [|reflexivity].
  apply stopword_capitals in E. simpl in E, D.
  apply andb_true_iff in D. destruct D as [Dd _].
  now rewrite (digit_upper _ Dd) in E.
Qed.

Lemma nameWord_parts (t : string) :
  isPlainWord t = true -> isStopword (Str.toUpperCase t) = false -> isNameWord t = true.
Proof. intros P S. unfold isNameWord. now rewrite P, S. Qed.

(** The phrase of Phase 1 is made of words of a name. *)
Lemma phrase_words (nt afterText : string) (tokens : list string) :
  isLocoNo nt = true ->
  (exists c0 rest, afterText = String c0 rest /\ Chars.isSpace c0 = true
                   /\ Str.existsb (fun c => negb (Chars.isSpace c)) rest = true) ->
  tokens = popStopwords
             (match findStopword (tl (split SPACES_REGEX (Str.trim (nt ++ afterText)))) 1 with
              | Some i => firstn i (split SPACES_REGEX (Str.trim (nt ++ afterText)))
              | None => split SPACES_REGEX (Str.trim (nt ++ afterText))
              end) ->
  NameWords (join tokens).
Proof.
  intros Hn (c0 & rest & -> & Hc & Hr) ->.
  pose proof (number_nameWord _ Hn) as Wn.
  pose proof (isLocoNo_parts _ Hn) as (H3 & _ & D).
  destruct nt as [|d nt']; [simpl in H3; lia|].
  assert (Hd : Chars.isSpace d = false).
  { simpl in D. apply andb_true_iff in D. now apply digit_not_space. }
  pose proof (@trim_last (String d nt' ++ String c0 rest)) as Last.
  destruct (@trim_app nt' (String c0 rest) d Hd) as (b' & Tr & _ & Hb).
  { simpl. rewrite Hr. apply orb_true_r. }
  destruct (Hb c0 rest eq_refl Hr) as (r' & ->).
  rewrite Tr in *.
  assert (Plain : Forall (fun t => isPlainWord t = true)
                         (split SPACES_REGEX (String d nt' ++ String c0 r'))).
  { apply split_plain; [|exact Last]. simpl. unfold notSpace. now rewrite Hd. }
  destruct (@split_head (String d nt') r' c0) as (ts & Sp); try assumption.
  { discriminate. }
  { revert D. apply forallb_impl. intros c Hdc. now rewrite (digit_not_space _ Hdc). }
  rewrite Sp in *. cbn [tl] in *. inversion Plain as [|? ? _ Pts]; subst.
  set (tokens1 := match findStopword ts 1 with
                  | Some i => firstn i (String d nt' :: ts)
                  | None => String d nt' :: ts
                  end).
  assert (F1 : exists l1, tokens1 = String d nt' :: l1
                          /\ Forall (fun t => isNameWord t = true) l1).
  { unfold tokens1. pose proof (findStopword_cut ts 1) as C.
    destruct (findStopword ts 1) as [i|].
    - destruct C as (k & -> & F). exists (firstn k ts). split; [reflexivity|].
      rewrite <- (firstn_skipn k ts) in Pts. apply Forall_app in Pts.
      destruct Pts as [Pk _]. rewrite Forall_forall in *. intros t Hin.
      apply nameWord_parts; [now apply Pk | now apply F].
    - exists ts. split; [reflexivity|]. rewrite Forall_forall in *. intros t Hin.
      apply nameWord_parts; [now apply Pts | now apply C]. }
  destruct F1 as (l1 & E1 & W1). rewrite E1.
  destruct (popStopwords_head (String d nt') l1) as (l2 & E2).
  destruct (popStopwords_front (String d nt' :: l1)) as (l3 & E3).
  exists (popStopwords (String d nt' :: l1)). split; [rewrite E2; discriminate|].
  split; [reflexivity|].
  assert (All : Forall (fun t => isNameWord t = true) (String d nt' :: l1))
    by now constructor.
  rewrite E3 in All. apply Forall_app in All. tauto.
Qed.

Lemma model_alphabet_notSpace (c : ascii) :
  alphabet false (Seq (Class [Range "A" "Z"; Range "a" "z"])
                      (Rep 2 (Some 15) (Class modelTail))) c = true ->
  notSpace c = true.
Proof. destruct c as [[] [] [] [] [] [] [] []]; vm_compute; congruence. Qed.

Lemma upper_notSpace (c : ascii) : Chars.isUpperAZ c = true -> notSpace c = true.
Proof. destruct c as [[] [] [] [] [] [] [] []]; vm_compute; congruence. Qed.

Lemma modelChar_notSpace (c : ascii) : isModelChar c = true -> notSpace c = true.
Proof. destruct c as [[] [] [] [] [] [] [] []]; vm_compute; congruence. Qed.

Lemma nospace_cb_words (input : string) (st : NameAcc) (li : nat) (m : ExecArray) :
  exec LOCO_NAME_NOSPACE_GLOBAL input li = Some m ->
  Forall NameWords (acc_names st) ->
  Forall NameWords (acc_names (nospace_cb input st m)).
Proof.
  intros E H. unfold nospace_cb.
  destruct (isStopword _) eqn:Stop; [assumption|].
  destruct (negb (modelish _)); [assumption|].
  destruct (includes (acc_names st) _); [assumption|].
  simpl. apply BoundFacts.Forall_snoc; [assumption|].
  exists [group input m 1; group input m 2].
  split; [discriminate|]. split; [reflexivity|].
  pose proof (exec_valid _ _ _ E) as V. pose proof (exec_text _ _ _ E) as [_ G].
  destruct V as [_ _ B _ [Wi _ S]]. rewrite Forall_forall in Wi.
  constructor; [|constructor; [|constructor]].
  - destruct (G 1 (Rep 3 (Some 5) digit) eq_refl) as (s & e & Hl & Sp).
    destruct (S 1 3 eq_refl) as (s' & e' & Hl' & Hk). rewrite Hl in Hl'.
    inversion Hl'; subst s' e'; clear Hl'.
    apply lookup_in in Hl as Hin. apply Wi in Hin. unfold within in Hin. simpl in Hin.
    assert (Hg : group input m 1 = Str.slice input s e) by (unfold group; now rewrite Hl).
    rewrite Hg. apply number_nameWord. apply (digits_span Sp); lia.
  - destruct (G 2 (Seq (Class [Range "A" "Z"; Range "a" "z"])
                       (Rep 2 (Some 15) (Class modelTail))) eq_refl)
      as (s & e & Hl & Sp).
    destruct (S 2 3 eq_refl) as (s' & e' & Hl' & Hk). rewrite Hl in Hl'.
    inversion Hl'; subst s' e'; clear Hl'.
    assert (Hg : group input m 2 = Str.slice input s e) by (unfold group; now rewrite Hl).
    apply nameWord_parts; [|exact Stop]. rewrite Hg.
    apply slice_span in Sp. destruct Sp as [Len F]. unfold isPlainWord.
    rewrite (forallb_impl _ _ _ model_alphabet_notSpace F), andb_true_r.
    destruct (Str.slice input s e); [simpl in Len; lia | reflexivity].
Qed.

Lemma phrase_cb_words (input : string) (st : NameAcc) (li : nat) (m : ExecArray) :
  exec LOCO_NUMBER_START_GLOBAL input li = Some m ->
  Forall NameWords (acc_names st) ->
  Forall NameWords (acc_names (phrase_cb input st m)).
Proof.
  intros E H. unfold phrase_cb.
  destruct (exec AFTER_NUMBER_REGEX _ 0) as [am|] eqn:Ea; [|assumption].
  destruct (isStopword _); [assumption|].
  destruct (negb (List.existsb modelish _)); [assumption|].
  destruct (List.length _ <? 2) eqn:Hlen; [assumption|].
  destruct (includes (acc_names st) _); [assumption|].
  simpl. apply BoundFacts.Forall_snoc; [assumption|].
  eapply phrase_words; [| |reflexivity].
  - change LOCO_NUMBER_START_GLOBAL with LOCO_NUMBER_GLOBAL in E.
    pose proof (exec_valid _ _ _ E) as V. apply number_exec in E.
    destruct E as (T & Hle & W & Wl & _). apply digitToken_parts in T.
    destruct T as (H3 & H5 & A & _). unfold isLocoNo. rewrite Wl.
    replace (3 <=? lastEnd m - index m) with true by (symmetry; apply Nat.leb_le; lia).
    replace (lastEnd m - index m <=? 5) with true by (symmetry; apply Nat.leb_le; lia).
    simpl. rewrite W. unfold Str.slice.
    now destruct (allAt_substring _ _ _ _ A).
  - now apply afterText_shape.
Qed.

Lemma model_cb_words (input : string) (st : NameAcc) (li : nat) (m : ExecArray) :
  exec MODEL_TOKEN_GLOBAL input li = Some m ->
  Forall NameWords (acc_names st) ->
  Forall NameWords (acc_names (model_cb input st m)).
Proof.
  intros E H. unfold model_cb.
  destruct (isStopword _) eqn:Stop; [assumption|].
  destruct (negb (test MODELISH_REGEX (whole m))); [assumption|].
  destruct (negb (nearKeywords _ _ _ _)); [assumption|].
  destruct (List.existsb _ (acc_names st)); [assumption|].
  simpl. apply BoundFacts.Forall_snoc; [assumption|].
  exists [whole m]. split; [discriminate|]. split; [reflexivity|].
  constructor; [|constructor]. apply nameWord_parts; [|exact Stop].
  destruct (model_exec _ _ E) as (c & rest & W & U & _ & _ & F). rewrite W.
  unfold isPlainWord. simpl. rewrite (upper_notSpace _ U).
  now rewrite (forallb_impl _ _ _ modelChar_notSpace F).
Qed.

Lemma namePhases_words (input : string) (st : NameAcc) :
  namePhases input = Some st -> Forall NameWords (acc_names st).
Proof.
  unfold namePhases. intros E.
  destruct (forEachMatch input LOCO_NAME_NOSPACE_GLOBAL (nospace_cb input)
                         (mkNameAcc [] [])) as [st0|] eqn:E0; [|discriminate].
  simpl in E.
  destruct (forEachMatch input LOCO_NUMBER_START_GLOBAL (phrase_cb input) st0)
    as [st1|] eqn:E1; [|discriminate].
  simpl in E.
  scan_inv (fun st => Forall NameWords (acc_names st)) E;
    [now apply model_cb_words with (li := li)|].
  scan_inv (fun st => Forall NameWords (acc_names st)) E1;
    [now apply phrase_cb_words with (li := li)|].
  scan_inv (fun st => Forall NameWords (acc_names st)) E0;
    [now apply nospace_cb_words with (li := li)|].
  constructor.
Qed.

End CutFacts.

(** * The claims of the specification *)

Module Claims.

Import RegExp Loco Spec RegExpFacts LoopFacts ArrayFacts BoundFacts ExtractFacts GenericFacts.
Import KeywordFacts AnchorFacts Resolver ResolverFacts.

(** C1.  For every input the confidence of the result is the function of
    the three lists that the specification gives: high when [assetIds] is
    not empty; otherwise medium when [locoNos] is not empty; otherwise medium
    when some name begins with 3 to 5 digits followed by a word boundary;
    low in every other case, the empty input among them. *)
Theorem C1_confidence_of_lists :
  (forall input : string,
      exists q,
        extractLocoQuery input = Some q
        /\ confidence q = confidenceOf (assetIds q) (locoNos q) (names q))
  /\ (forall a l n, computeConfidence a l n = confidenceOf a l n)
  /\ (forall nm, test NUMBERED_NAME_REGEX nm = beginsWithNumber nm)
  /\ extractLocoQuery "" = Some (mkQuery "" [] [] [] None None None [] low).
Proof.
  split; [|split; [|split]].
  - intros input.
    destruct (extractLocoQuery_run input) as (a & am & l & lm & n & nm & _ & _ & _ & H).
    eexists. split; [exact H|]. simpl. apply computeConfidence_confidenceOf.
  - apply computeConfidence_confidenceOf.
  - apply numbered_name.
  - vm_compute. reflexivity.
Qed.

(** C2, as the specification states it, fails.  In ["#(4430)"] the number has
    no keyword near, the input has no domain context and the character just
    before the number is ["("], not ["#"]: the claimed score is 0, and yet
    the generic pass adds ["4430"] to [locoNos]. *)
Lemma C2_counterexample :
  claimedScore "#(4430)" 2 6 = 0
  /\ option_map locoNos (extractLocoQuery "#(4430)") = Some ["4430"]
  /\ ~ genericPassAsStated "#(4430)".
Proof.
  split; [vm_compute; reflexivity|]. split; [vm_compute; reflexivity|].
  intros H.
  specialize (H (mkLocoAcc [] [] []) [mkCandidate "4430" 2 6 1]).
  assert (E1 : keywordPhases "#(4430)" = Some (mkLocoAcc [] [] []))
    by (vm_compute; reflexivity).
  assert (E2 : genericCandidates "#(4430)" [] = Some [mkCandidate "4430" 2 6 1])
    by (vm_compute; reflexivity).
  specialize (H E1 E2). vm_compute in H. discriminate H.
Qed.

(** C2, amended.  In the generic pass of [extractLocoQuery] the candidates
    that survive the rejections are added to [locoNos] (and to the raw
    matches) exactly when their score is at least 1, whether one candidate
    remains or several; the score is +2 for a loco keyword within 20
    characters, +1 for a ["#"] among the two characters before the number,
    +1 for domain context in the whole input.  On ["When is 4430 due next?"]
    the result has [locoNos = ["4430"]], no names and confidence medium, the
    +1 coming from the domain context. *)
Theorem C2_generic_pass_scored :
  (forall input : string,
      exists st1 cands q,
        keywordPhases input = Some st1
        /\ genericCandidates input (acc_locoNos st1) = Some cands
        /\ extractLocoQuery input = Some q
        /\ Forall (fun c => score c = amendedScore input (cand_start c) (cand_stop c)) cands
        /\ acc_locoNos (acceptCandidates st1 cands)
           = acc_locoNos st1
             ++ List.map numText
                  (List.filter
                     (fun c => 1 <=? amendedScore input (cand_start c) (cand_stop c)) cands)
        /\ acc_locoMatches (acceptCandidates st1 cands)
           = acc_locoMatches st1
             ++ List.map candidateMatch
                  (List.filter
                     (fun c => 1 <=? amendedScore input (cand_start c) (cand_stop c)) cands)
        /\ locoNos q = uniq (acc_locoNos (acceptCandidates st1 cands)))
  /\ extractLocoQuery "When is 4430 due next?"
     = Some (mkQuery "When is 4430 due next?" [] ["4430"] [] None (Some "4430") None
                     [mkRaw locoNoKind "4430" 8 12] medium)
  /\ nearKeywords "When is 4430 due next?" 8 12 20 = false
  /\ hashWithinTwoBefore "When is 4430 due next?" 8 = false
  /\ hasDomainContext "When is 4430 due next?" = true
  /\ amendedScore "When is 4430 due next?" 8 12 = 1.
Proof.
  split; [|repeat split; vm_compute; reflexivity].
  intros input.
  destruct (locoNos_shape input) as (st1 & cands & q & E1 & E2 & Eq & Sv & Hl).
  exists st1, cands, q. repeat (split; [assumption|]).
  split; [|split; [|split]].
  - eapply Forall_impl; [|exact Sv]. intros c [_ _ _ _ Hs].
    now rewrite Hs, candidateScore_amended.
  - rewrite acceptCandidates_locoNos. now rewrite (filter_scored Sv).
  - rewrite acceptCandidates_matches. now rewrite (filter_scored Sv).
  - now rewrite acceptCandidates_locoNos.
Qed.

(** C3.  In the generic pass every 3-to-5-digit token whose value lies in
    1900..2099 is rejected, whatever the domain context.  [looksLikeYear] is
    true of a number exactly when it lies in 1900..2099, both ends included;
    on a token with such a value the callback leaves [candidates] as it is,
    so no candidate of any input has a value in 1900..2099 and such a number
    in [locoNos] can only come from the keyword phases.  For
    ["Show inspections in 2024"], an input with domain context, [locoNos] is
    empty. *)
Theorem C3_years_rejected :
  (forall n, looksLikeYear n = true <-> 1900 <= n /\ n <= 2099)
  /\ (forall input hasDomain locoNos cands m,
        1900 <= Str.toNumber (whole m) /\ Str.toNumber (whole m) <= 2099 ->
        generic_cb input hasDomain locoNos cands m = cands)
  /\ (forall input hasDomain locoNos cands m,
        if looksLikeYear (Str.toNumber (whole m))
        then generic_cb input hasDomain locoNos cands m = cands
        else True)
  /\ (forall input : string,
        exists st1 cands q,
          keywordPhases input = Some st1
          /\ genericCandidates input (acc_locoNos st1) = Some cands
          /\ extractLocoQuery input = Some q
          /\ Forall (fun c => looksLikeYear (Str.toNumber (numText c)) = false) cands
          /\ Forall (fun c => Str.toNumber (numText c) < 1900
                              \/ 2099 < Str.toNumber (numText c)) cands
          /\ locoNos q
             = uniq (acc_locoNos st1 ++ List.map numText (List.filter scored cands)))
  /\ hasDomainContext "Show inspections in 2024" = true
  /\ extractLocoQuery "Show inspections in 2024"
     = Some (mkQuery "Show inspections in 2024" [] [] [] None None None [] low).
Proof.
  assert (Band : forall n, looksLikeYear n = true <-> 1900 <= n /\ n <= 2099).
  { intros n. unfold looksLikeYear. now rewrite andb_true_iff, !Nat.leb_le. }
  assert (Step : forall input hasDomain locoNos cands m,
             looksLikeYear (Str.toNumber (whole m)) = true ->
             generic_cb input hasDomain locoNos cands m = cands).
  { intros input hasDomain locoNos cands m E. unfold generic_cb. rewrite E.
    destruct (includes locoNos (whole m)); [reflexivity|].
    destruct (isFollowedByDayish input _); [reflexivity|].
    now destruct (looksLikeCountNumber input _ _). }
  split; [exact Band|].
  split; [|split; [|split; [|split; vm_compute; reflexivity]]].
  - intros input hasDomain locoNos cands m H. apply Step. now apply Band.
  - intros input hasDomain locoNos cands m.
    destruct (looksLikeYear (Str.toNumber (whole m))) eqn:E; [|trivial].
    now apply Step.
  - intros input.
    destruct (locoNos_shape input) as (st1 & cands & q & E1 & E2 & Eq & Sv & Hl).
    assert (Hy : Forall (fun c => looksLikeYear (Str.toNumber (numText c)) = false) cands).
    { eapply Forall_impl; [|exact Sv]. now intros c [_ _ _ Hy _]. }
    exists st1, cands, q. repeat (split; [assumption|]).
    split; [|assumption].
    eapply Forall_impl; [|exact Hy]. intros c Hc. cbv beta in Hc.
    destruct (Nat.lt_ge_cases (Str.toNumber (numText c)) 1900) as [L|L]; [now left|].
    destruct (Nat.lt_ge_cases 2099 (Str.toNumber (numText c))) as [G|G]; [now right|].
    exfalso. assert (T : looksLikeYear (Str.toNumber (numText c)) = true)
      by (apply Band; lia).
    congruence.
Qed.

(** C4, at the input on which the code departs from it.  The plural
    ["locomotives"] is not among the keywords of the Phase 1a pattern, so in
    ["locomotives 4430"] the number is not taken by the keyword phases, and
    the generic pass, finding no support for it, drops it: [locoNos] is
    empty.  What the code does guarantee, for every input, is that each
    number captured by a keyword pattern is in [locoNos]; with ["locos"],
    ["units"], ["engines"] and the singular forms a number is so accepted
    even when it reads as a year. *)
Theorem C4_plural_locomotives_missed :
  extractLocoQuery "locomotives 4430"
  = Some (mkQuery "locomotives 4430" [] [] [] None None None [] low)
  /\ allMatches "locomotives 4430" LOCO_KEYWORD_NUMBER_GLOBAL = Some []
  /\ (forall input : string,
        exists ms ms' q,
          allMatches input LOCO_KEYWORD_NUMBER_GLOBAL = Some ms
          /\ allMatches input LOCO_KEYWORD_NUMBER_CONCAT_GLOBAL = Some ms'
          /\ extractLocoQuery input = Some q
          /\ Forall (fun m => In (group input m 2) (locoNos q)) (ms ++ ms'))
  /\ List.map (fun kw => option_map locoNos (extractLocoQuery (kw ++ " 2024")%string))
              ["loco"; "locomotive"; "unit"; "engine"; "locos"; "units"; "engines"]
     = List.repeat (Some ["2024"]) 7
  /\ option_map locoNos (extractLocoQuery "locomotives 2024") = Some []
  /\ extractLocoQuery "loco 4430 SD70M"
     = Some (mkQuery "loco 4430 SD70M" [] ["4430"] ["4430 SD70M"]
                     None (Some "4430") (Some "4430 SD70M")
                     [mkRaw locoNoKind "4430" 5 9; mkRaw nameKind "4430 SD70M" 5 15]
                     medium).
Proof.
  split; [vm_compute; reflexivity|].
  split; [vm_compute; reflexivity|].
  split; [apply keyword_numbers_accepted|].
  repeat split; vm_compute; reflexivity.
Qed.

(** C5.  The resolver tries the assetId rule first.  In a snapshot with a
    record under ["A"] (locoNo ["4430"], name ["4430 SD70M"]) and a second
    record under another assetId with locoNo ["4430 "], in either order, an
    extraction with [assetIds = ["A"]] and [locoNos = ["4430"]] resolves to
    ["A"], although the locoNo rule matches both records. *)
Theorem C5_assetId_rule_first :
  forall (q : LocoQuery) (otherId otherName : string) (context : ResolverContext)
         (snapshot : Snapshot),
    assetIds q = ["A"] ->
    locoNos q = ["4430"] ->
    otherId <> "A" ->
    snapshot = [("A", mkRecord "4430 SD70M" "4430"); (otherId, mkRecord otherName "4430 ")]
    \/ snapshot = [(otherId, mkRecord otherName "4430 "); ("A", mkRecord "4430 SD70M" "4430")] ->
    resolve q snapshot context = Resolved "A" (mkRecord "4430 SD70M" "4430")
    /\ List.length (hitsByField normalizeLocoNo rec_locoNo snapshot (locoNos q)) = 2.
Proof.
  intros q otherId otherName context snapshot Ha Hl Hne Hs.
  assert (E : String.eqb otherId "A" = false) by now apply String.eqb_neq.
  split.
  - apply assetId_hit_resolves; [assumption|].
    destruct Hs as [-> | ->]; simpl; [reflexivity | now rewrite E].
  - rewrite Hl. destruct Hs as [-> | ->]; reflexivity.
Qed.

(** C5 at an instance: the second record is ["4430 GP38-2"] under ["B"] and
    the snapshot is stale. *)
Lemma C5_assetId_rule_first_witness :
  let q := mkQuery "A 4430" ["A"] ["4430"] [] (Some "A") (Some "4430") None [] high in
  let snapshot := [("A", mkRecord "4430 SD70M" "4430"); ("B", mkRecord "4430 GP38-2" "4430 ")] in
  resolve q snapshot (mkContext false) = Resolved "A" (mkRecord "4430 SD70M" "4430")
  /\ List.length (hitsByField normalizeLocoNo rec_locoNo snapshot (locoNos q)) = 2.
Proof.
  intros q snapshot.
  apply (@C5_assetId_rule_first q "B" "4430 GP38-2" (mkContext false) snapshot).
  - reflexivity.
  - reflexivity.
  - discriminate.
  - left. reflexivity.
Defined.

(** C6.  For ["Status for 4430SD70M"] the names are ["4430 SD70M"], with the
    blank put back, the raw match keeps the text ["4430SD70M"] and its span
    11..20, and [locoNos] is empty: the pattern of a standalone 3-to-5-digit
    token matches nowhere in this input. *)
Theorem C6_nospace_name :
  extractLocoQuery "Status for 4430SD70M"
  = Some (mkQuery "Status for 4430SD70M" [] [] ["4430 SD70M"]
                  None None (Some "4430 SD70M")
                  [mkRaw nameKind "4430SD70M" 11 20] medium)
  /\ Str.slice "Status for 4430SD70M" 11 20 = "4430SD70M"
  /\ exec LOCO_NUMBER_GLOBAL "Status for 4430SD70M" 0 = None.
Proof. repeat split; vm_compute; reflexivity. Qed.

(** C7.  A 3-to-5-digit token that is followed at once by a day suffix
    (["-day"], ["-days"], [" day"], [" days"] or the shorthand ["d"], in
    letters of either case, the word ending there) makes
    [isFollowedByDayish] true, and on such a token
    the callback of the generic pass leaves [candidates] as it is; so no
    candidate of any input is followed by a day suffix.  For
    ["locomotive had 368 days out of service"] the result has no ["368"]
    in [locoNos]. *)
Theorem C7_day_suffix_rejected :
  (forall input stop,
      if followedByDaySuffix input stop
      then isFollowedByDayish input stop = true
      else True)
  /\ (forall input hasDomain locoNos cands m,
        if isFollowedByDayish input (index m + String.length (whole m))
        then generic_cb input hasDomain locoNos cands m = cands
        else True)
  /\ (forall input : string,
        exists st1 cands q,
          keywordPhases input = Some st1
          /\ genericCandidates input (acc_locoNos st1) = Some cands
          /\ extractLocoQuery input = Some q
          /\ Forall (fun c => followedByDaySuffix input (cand_stop c) = false) cands
          /\ locoNos q
             = uniq (acc_locoNos st1 ++ List.map numText (List.filter scored cands)))
  /\ followedByDaySuffix "locomotive had 368 days out of service" 18 = true
  /\ extractLocoQuery "locomotive had 368 days out of service"
     = Some (mkQuery "locomotive had 368 days out of service"
                     [] [] [] None None None [] low).
Proof.
  split; [|split; [|split; [|split]]].
  - intros input stop. destruct (followedByDaySuffix input stop) eqn:E; [|trivial].
    now apply dayish_of_suffix.
  - intros input hasDomain locoNos cands m.
    destruct (isFollowedByDayish input _) eqn:E; [|trivial].
    unfold generic_cb. rewrite E. now destruct (includes locoNos (whole m)).
  - intros input.
    destruct (locoNos_shape input) as (st1 & cands & q & E1 & E2 & Eq & Sv & Hl).
    exists st1, cands, q. repeat (split; [assumption|]).
    split; [|assumption].
    eapply Forall_impl; [|exact Sv]. intros c [_ Hd _ _ _].
    destruct (followedByDaySuffix input (cand_stop c)) eqn:E; [|reflexivity].
    apply dayish_of_suffix in E. congruence.
  - vm_compute. reflexivity.
  - vm_compute. reflexivity.
Qed.

(** C8.  For every input string the record returned by [extractLocoQuery]
    is well formed: [assetIds], [locoNos] and [names] have no duplicates, and
    each is its array of pushed values with the first occurrence of every
    value kept, in order; every raw match has [start < end <= length input]
    (and [0 <= start], a natural number); and [rawMatches] is sorted by
    ascending [start]. *)
Theorem C8_result_well_formed :
  forall input : string,
    exists sa st1 cands sn q,
      assetScan input = Some sa
      /\ keywordPhases input = Some st1
      /\ genericCandidates input (acc_locoNos st1) = Some cands
      /\ namePhases input = Some sn
      /\ extractLocoQuery input = Some q
      /\ NoDup (assetIds q) /\ NoDup (locoNos q) /\ NoDup (names q)
      /\ assetIds q = firstOccurrences (acc_assetIds sa)
      /\ locoNos q = firstOccurrences (acc_locoNos (acceptCandidates st1 cands))
      /\ names q = firstOccurrences (acc_names sn)
      /\ Forall (inBounds input) (rawMatches q)
      /\ Sorted startsAscend (rawMatches q).
Proof.
  intros input.
  destruct (extractAssetIds_run input) as (sa & Sa & Ea & Ba).
  destruct (extractLocoNos_run input) as (st1 & cands & S1 & S2 & El & Bl).
  destruct (extractNames_run input) as (sn & Sn & En & Bn).
  exists sa, st1, cands, sn. eexists.
  repeat (split; [eassumption|]). split.
  - unfold extractLocoQuery. rewrite Ea. simpl. rewrite El. simpl. rewrite En. reflexivity.
  - simpl. repeat split;
      try apply uniq_NoDup; try apply uniq_firstOccurrences.
    + apply sortByStart_Forall. repeat (apply Forall_app; split); assumption.
    + apply sortByStart_sorted.
Qed.

(** C9.  [extractLocoQuery] terminates on every input: the scanning loop,
    run with fuel for [length input + 2] calls of [exec], returns for every
    pattern (also one that matches the empty string), every callback and
    every input, and returns the same with any fuel beyond that, because
    each match moves [lastIndex] strictly forward (by
    the end of a non-empty match, by the explicit increment after an empty
    one); hence all the passes of [extractLocoQuery] return.  On ["ab"] the
    pattern [\d*] matches the empty string at 0, 1 and 2, and the scan ends
    after these three matches. *)
Theorem C9_terminates :
  (forall (A : Type) (input : string) (re : RegExp) (cb : A -> ExecArray -> A) (acc : A),
      exists r,
        forEachMatch input re cb acc = Some r
        /\ forall extra,
            forEachMatch_loop (String.length input + 2 + extra) input re cb 0 acc = Some r)
  /\ (forall (re : RegExp) (input : string) (lastIndex : nat),
        match exec re input lastIndex with
        | Some m => lastIndex < nextLastIndex m
        | None => True
        end)
  /\ (forall input : string, exists q, extractLocoQuery input = Some q)
  /\ option_map (List.map (fun m => (index m, whole m)))
                (allMatches "ab" (mkRegExp (Star digit) false))
     = Some [(0, ""); (1, ""); (2, "")].
Proof.
  split; [|split; [|split]]; [| | |vm_compute; reflexivity].
  - intros A input re cb acc.
    destruct (forEachMatch_total input re cb acc) as [r E].
    exists r. split; [assumption|]. intros extra.
    apply forEachMatch_loop_more with (fuel := String.length input + 2); [lia | exact E].
  - intros re input li. destruct (exec re input li) as [m|] eqn:E; [|trivial].
    apply exec_valid in E. now apply nextLastIndex_progress in E.
  - intros input. destruct (extractLocoQuery_run input) as (a & am & l & lm & n & nm & H).
    eexists. apply H.
Qed.

(** C10.  For every input the record also carries the singular fields
    [assetId], [locoNo] and [name]: each is the first element of its list,
    and is undefined ([None]) exactly when the list is empty. *)
Theorem C10_singular_fields :
  forall input : string,
    exists q,
      extractLocoQuery input = Some q
      /\ assetId q = hd_error (assetIds q)
      /\ locoNo q = hd_error (locoNos q)
      /\ name q = hd_error (names q)
      /\ (assetId q = None <-> assetIds q = [])
      /\ (locoNo q = None <-> locoNos q = [])
      /\ (name q = None <-> names q = []).
Proof.
  intros input.
  destruct (extractLocoQuery_run input) as (a & am & l & lm & n & nm & _ & _ & _ & H).
  eexists. split; [exact H|]. simpl.
  assert (Hhd : forall xs : list string, hd_error xs = None <-> xs = []).
  { intros [|x xs]; simpl; split; intros E; (reflexivity || discriminate). }
  repeat split; try reflexivity; apply Hhd.
Qed.

End Claims.

(** * Further properties of the code *)

Module Extras.

Import RegExp Loco Spec Shape RegExpFacts LoopFacts ArrayFacts BoundFacts ExtractFacts.
Import GenericFacts KeywordFacts AnchorFacts TextFacts ShapeFacts PartsFacts SortFacts.
Import ScanFacts AssetFacts.
Import TailFacts TokenScanFacts NumberFacts WholeFacts.
Import TrimFacts AfterFacts SplitFacts PhraseFacts NameFacts.
Import CaseFacts LegacyFacts.
Import YearFacts.
Import SuccessFacts WordFacts RunFacts DomainFacts.
Import CountFacts.
Import DayFacts.
Import CutFacts.

(** X1.  What [extractAssetIds] returns is well formed.  For every input,
    each entry of [assetIds] is a string of exactly 24 lower-case hexadecimal
    digits; the entries are exactly the lower-cased texts of the raw matches
    of kind [assetId]; and each of these raw matches spans 24 characters and
    has as text [input.slice(start, end)]. *)
Theorem assetIds_are_lowercase_hex24 (input : string) :
  exists q,
    extractLocoQuery input = Some q
    /\ Forall (fun a => isAssetId a = true) (assetIds q)
    /\ (forall a, In a (assetIds q)
                  <-> exists r, In r (rawMatches q) /\ kind r = assetIdKind
                                /\ Str.toLowerCase (text r) = a)
    /\ (forall r, In r (rawMatches q) -> kind r = assetIdKind ->
                  stop r = start r + 24 /\ text r = Str.slice input (start r) (stop r)).
Proof.
  destruct (query_parts input)
    as (sa & st1 & cands & sn & q & Es & E1 & E2 & En & Eq & Ha & _ & _ & Hr & _).
  destruct (kinds_of_parts _ Es E1 E2 En) as (Ka & Kl & Kn).
  destruct (assetScan_shape _ Es) as [Hm Hs].
  exists q. split; [exact Eq|]. rewrite Ha, Hr.
  assert (P : forall r, In r (sortByStart (acc_assetMatches sa
                 ++ acc_locoMatches (acceptCandidates st1 cands) ++ acc_nameMatches sn))
                 /\ kind r = assetIdKind <-> In r (acc_assetMatches sa)).
  { intros r. now apply raw_by_kind. }
  rewrite Forall_forall in Hs. split; [|split].
  - apply Forall_forall. intros a Hin. rewrite uniq_In, Hm in Hin.
    apply in_map_iff in Hin. destruct Hin as (r & <- & Hin). now apply Hs.
  - intros a. rewrite uniq_In, Hm, in_map_iff. split.
    + intros (r & <- & Hin). exists r. apply P in Hin. tauto.
    + intros (r & Hin & K & <-). exists r. split; [reflexivity|]. apply P. tauto.
  - intros r Hin K. destruct (Hs r) as [_ S T _]; [apply P; tauto|]. now split.
Qed.

(** X2.  [extractLocoNos] never returns a number that is not in the input.
    For every input, each entry of [locoNos] is a string of 3 to 5 decimal
    digits; the entries are exactly the texts of the raw matches of kind
    [locoNo]; and the text of each of these raw matches is
    [input.slice(start, end)], also in Phase 1, where [start] is computed
    with [lastIndexOf] on the lower-cased match. *)
Theorem locoNos_are_digit_runs_of_input (input : string) :
  exists q,
    extractLocoQuery input = Some q
    /\ Forall (fun n => isLocoNo n = true) (locoNos q)
    /\ (forall n, In n (locoNos q)
                  <-> exists r, In r (rawMatches q) /\ kind r = locoNoKind /\ text r = n)
    /\ (forall r, In r (rawMatches q) -> kind r = locoNoKind ->
                  text r = Str.slice input (start r) (stop r)).
Proof.
  destruct (query_parts input)
    as (sa & st1 & cands & sn & q & Es & E1 & E2 & En & Eq & _ & Hl & _ & Hr & _).
  destruct (kinds_of_parts _ Es E1 E2 En) as (Ka & Kl & Kn).
  destruct (extractLocoNos_shape _ E1 E2) as [Hm Hs].
  exists q. split; [exact Eq|]. rewrite Hl, Hr.
  assert (P : forall r, In r (sortByStart (acc_assetMatches sa
                 ++ acc_locoMatches (acceptCandidates st1 cands) ++ acc_nameMatches sn))
                 /\ kind r = locoNoKind
                 <-> In r (acc_locoMatches (acceptCandidates st1 cands))).
  { intros r. now apply raw_by_kind. }
  rewrite Forall_forall in Hs. split; [|split].
  - apply Forall_forall. intros a Hin. rewrite uniq_In, Hm in Hin.
    apply in_map_iff in Hin. destruct Hin as (r & <- & Hin). now apply Hs.
  - intros a. rewrite uniq_In, Hm, in_map_iff. split.
    + intros (r & <- & Hin). exists r. apply P in Hin. tauto.
    + intros (r & Hin & K & <-). exists r. split; [reflexivity|]. apply P. tauto.
  - intros r Hin K. destruct (Hs r) as [_ T _]; [apply P; tauto|]. exact T.
Qed.

(** X3.  [extractNames] pushes no name twice (each of its three phases
    looks the name up before it pushes), so [names] has exactly one raw match
    of kind [name] per entry; [assetIds] and [locoNos], which [uniq] may
    shorten, have at least one raw match of their kind per entry. *)
Theorem raw_matches_per_value (input : string) :
  exists q,
    extractLocoQuery input = Some q
    /\ List.length (names q) = countKind nameKind (rawMatches q)
    /\ List.length (assetIds q) <= countKind assetIdKind (rawMatches q)
    /\ List.length (locoNos q) <= countKind locoNoKind (rawMatches q).
Proof.
  destruct (query_parts input)
    as (sa & st1 & cands & sn & q & Es & E1 & E2 & En & Eq & Ha & Hl & Hn & Hr & _).
  destruct (kinds_of_parts _ Es E1 E2 En) as (Ka & Kl & Kn).
  destruct (assetScan_shape _ Es) as [Ma _].
  destruct (extractLocoNos_shape _ E1 E2) as [Ml _].
  destruct (namePhases_inv _ En) as [_ Ln Dn].
  exists q. split; [exact Eq|]. rewrite Ha, Hl, Hn, Hr.
  rewrite !countKind_sort, !countKind_app.
  rewrite !(countKind_all _ Ka), !(countKind_all _ Kl), !(countKind_all _ Kn). simpl.
  rewrite (uniq_NoDup_id Dn), Ln.
  split; [lia|]. split.
  - pose proof (uniq_length (acc_assetIds sa)) as U. rewrite Ma in U at 2.
    rewrite length_map in U. lia.
  - pose proof (uniq_length (acc_locoNos (acceptCandidates st1 cands))) as U.
    rewrite Ml in U at 2. rewrite length_map in U. lia.
Qed.

(** X4.  Nothing found.  [rawMatches] is empty exactly when [assetIds],
    [locoNos] and [names] are all empty; the confidence is then low and the
    three singular fields are undefined. *)
Theorem nothing_found (input : string) :
  exists q,
    extractLocoQuery input = Some q
    /\ (rawMatches q = [] <-> assetIds q = [] /\ locoNos q = [] /\ names q = [])
    /\ (rawMatches q = [] ->
        confidence q = low /\ assetId q = None /\ locoNo q = None /\ name q = None).
Proof.
  destruct (query_parts input)
    as (sa & st1 & cands & sn & q & Es & E1 & E2 & En & Eq & Ha & Hl & Hn & Hr
        & Hc & H1 & H2 & H3).
  destruct (assetScan_shape _ Es) as [Ma _].
  destruct (extractLocoNos_shape _ E1 E2) as [Ml _].
  destruct (namePhases_inv _ En) as [_ Ln _].
  exists q. split; [exact Eq|].
  assert (I : rawMatches q = [] <-> assetIds q = [] /\ locoNos q = [] /\ names q = []).
  { rewrite Ha, Hl, Hn, Hr, !uniq_nil_iff, Ma, Ml.
    rewrite <- !length_zero_iff_nil, sortByStart_length, !length_app, !length_map, Ln.
    lia. }
  split; [exact I|]. intros H. apply I in H. destruct H as (Ea & El & En').
  rewrite Hc, H1, H2, H3, Ea, El, En'. repeat split.
Qed.

(** X5.  The sort of [extractLocoQuery] loses and adds nothing and is
    stable: [rawMatches] is a permutation of the raw matches of the three
    extractors, and the raw matches that start at one offset stand in it in
    the order asset ids, loco numbers, names, each group in the order of
    extraction. *)
Theorem raw_matches_stably_sorted (input : string) :
  exists a am l lm n nm q,
    extractAssetIds input = Some (a, am)
    /\ extractLocoNos input = Some (l, lm)
    /\ extractNames input = Some (n, nm)
    /\ extractLocoQuery input = Some q
    /\ Permutation (am ++ lm ++ nm) (rawMatches q)
    /\ (forall s, List.filter (startsAt s) (rawMatches q)
                  = List.filter (startsAt s) am
                    ++ List.filter (startsAt s) lm
                    ++ List.filter (startsAt s) nm).
Proof.
  destruct (extractLocoQuery_run input) as (a & am & l & lm & n & nm & Ea & El & En & Eq).
  exists a, am, l, lm, n, nm. eexists.
  split; [exact Ea|]. split; [exact El|]. split; [exact En|]. split; [exact Eq|].
  simpl. split; [apply sortByStart_perm|].
  intros s. now rewrite sortByStart_stable, !filter_app.
Qed.

(** X6.  [forEachMatch] hands its callback the matches from left to right
    and leaves none out.  For every pattern and every input the loop ends;
    each match handed over is a match of the pattern at its index, lies in the
    input and has the text between its offsets; each one starts at or after
    the end of the one before it, and further right; and every index at which
    the pattern matches is the index of a match handed over or lies inside
    one (between its index and the index at which the scan resumed). *)
Theorem scan_left_to_right (re : RegExp) (input : string) :
  exists ms,
    allMatches input re = Some ms
    /\ StronglySorted follows ms
    /\ Forall (fun m => matchAt (flagI re) input (source re) (index m) <> None
                        /\ lastEnd m <= String.length input
                        /\ whole m = Str.slice input (index m) (lastEnd m)) ms
    /\ (forall p, p <= String.length input ->
                  matchAt (flagI re) input (source re) p <> None ->
                  exists m, In m ms /\ index m <= p < nextLastIndex m).
Proof.
  destruct (allMatches_total input re) as [ms E]. exists ms. split; [exact E|].
  unfold allMatches, forEachMatch in E.
  destruct (collect_ordered _ _ _ _ E) as [S F].
  split; [exact S|]. split.
  - eapply Forall_impl; [|exact F]. intros m (li & _ & Em).
    rewrite (exec_matchAt _ _ _ Em). apply exec_valid in Em. destruct Em as [_ _ B W _].
    repeat split; (assumption || discriminate).
  - intros p Hp M. eapply collect_complete; try eassumption. lia.
Qed.

(** X7.  A number after a loco keyword is trusted.  When one of the two
    keyword patterns of Phase 1 matches somewhere in the input, [locoNo] is
    defined and the confidence is medium or high, whatever the filters of the
    generic pass would say of the number (a year, a count, a day suffix). *)
Theorem keyword_number_is_trusted (input : string) :
  test LOCO_KEYWORD_NUMBER_GLOBAL input = true
  \/ test LOCO_KEYWORD_NUMBER_CONCAT_GLOBAL input = true ->
  exists q n,
    extractLocoQuery input = Some q
    /\ locoNo q = Some n
    /\ (confidence q = medium \/ confidence q = high).
Proof.
  intros T.
  destruct (keyword_numbers_accepted input) as (ms & ms' & q & E & E' & Eq & F).
  assert (N : ms ++ ms' <> []).
  { destruct T as [T|T].
    - pose proof (allMatches_test _ _ E T). now destruct ms.
    - pose proof (allMatches_test _ _ E' T). destruct ms'; [congruence|]. now destruct ms. }
  destruct (ms ++ ms') as [|m l]; [congruence|]. inversion F as [|? ? Hin _]; subst.
  destruct (query_parts input)
    as (sa & st1 & cands & sn & q' & _ & _ & _ & _ & Eq' & _ & _ & _ & _ & Hc & _ & H2 & _).
  rewrite Eq in Eq'. inversion Eq'; subst q'; clear Eq'.
  destruct (locoNos q) as [|n ns] eqn:El; [contradiction|].
  exists q, n. split; [exact Eq|]. split; [now rewrite H2|].
  rewrite Hc. unfold computeConfidence. destruct (0 <? List.length (assetIds q)); [now right|].
  left. reflexivity.
Qed.

(** The theorem at ["loco 1999"], a year that Phase 2 would reject. *)
Lemma keyword_number_is_trusted_witness :
  exists q n,
    extractLocoQuery "loco 1999" = Some q
    /\ locoNo q = Some n
    /\ (confidence q = medium \/ confidence q = high).
Proof. apply keyword_number_is_trusted. left. vm_compute. reflexivity. Defined.

(** X8.  [extractAssetIds] finds exactly the asset ids of the input.  A
    string is in [assetIds] if and only if it is the lower case of 24
    hexadecimal digits (of either case) that stand in the input with no word
    character just before them and none just after; and the confidence is
    high if and only if the input holds such a token. *)
Theorem assetIds_exactly_the_tokens (input : string) :
  exists q,
    extractLocoQuery input = Some q
    /\ (forall a, In a (assetIds q)
                  <-> exists i, assetTokenAt input i = true
                                /\ a = Str.toLowerCase (Str.slice input i (i + 24)))
    /\ (confidence q = high <-> exists i, assetTokenAt input i = true).
Proof.
  destruct (query_parts input)
    as (sa & st1 & cands & sn & q & Es & _ & _ & _ & Eq & Ha & _ & _ & _ & Hc & _).
  exists q. split; [exact Eq|].
  assert (I : forall a, In a (assetIds q)
                <-> exists i, assetTokenAt input i = true
                              /\ a = Str.toLowerCase (Str.slice input i (i + 24))).
  { intros a. rewrite Ha, uniq_In. now apply assetScan_tokens. }
  split; [exact I|].
  rewrite Hc. unfold computeConfidence. split.
  - destruct (assetIds q) as [|a l] eqn:Ea.
    + simpl. destruct (0 <? List.length (locoNos q)); [discriminate|].
      destruct (0 <? List.length (names q)); [|discriminate].
      destruct (List.existsb _ _); discriminate.
    + intros _. destruct (proj1 (I a)) as (i & Hi & _); [now left|]. now exists i.
  - intros (i & Hi).
    assert (Hin : In (Str.toLowerCase (Str.slice input i (i + 24))) (assetIds q)).
    { apply I. now exists i. }
    destruct (assetIds q); [contradiction | reflexivity].
Qed.

(** X9.  [extractLocoNos] returns exactly the numbers of its two phases.
    For every input, a string is in [locoNos] if and only if it is the number
    captured by a match of one of the two keyword patterns of Phase 1, or it
    is a standalone number of the input (3 to 5 digits, with no word
    character just before them and none just after) that is not followed by
    a day suffix, does not look like a count, is not a year and scores at
    least 1. *)
Theorem locoNos_exactly_keyword_or_scored_token (input : string) :
  exists ms ms' q,
    allMatches input LOCO_KEYWORD_NUMBER_GLOBAL = Some ms
    /\ allMatches input LOCO_KEYWORD_NUMBER_CONCAT_GLOBAL = Some ms'
    /\ extractLocoQuery input = Some q
    /\ forall n,
         In n (locoNos q)
         <-> (exists m, In m (ms ++ ms') /\ group input m 2 = n)
             \/ (exists i k,
                    digitTokenAt input i k = true
                    /\ n = Str.slice input i (i + k)
                    /\ isFollowedByDayish input (i + k) = false
                    /\ looksLikeCountNumber input i (i + k) = false
                    /\ looksLikeYear (Str.toNumber n) = false
                    /\ 1 <= candidateScore input (hasDomainContext input) i (i + k)).
Proof.
  destruct (locoNos_phases input) as (ms & ms' & q & E & E' & Eq & H).
  exists ms, ms', q. split; [exact E|]. split; [exact E'|]. split; [exact Eq|].
  exact H.
Qed.

(** X10.  A loco number is never cut from the front of a longer word.
    Every raw match of kind [locoNo], of Phase 1 as of Phase 2, ends where
    its digits end ([end = start + text.length], within the input), and the
    character at [end], if there is one, is not a word character: the 4430
    of 4430SD70M or of 443012 is not reported. *)
Theorem locoNo_is_never_the_front_of_a_longer_word (input : string) :
  exists q,
    extractLocoQuery input = Some q
    /\ forall r, In r (rawMatches q) -> kind r = locoNoKind ->
                 stop r = start r + String.length (text r)
                 /\ stop r <= String.length input
                 /\ isWordCharAt input (stop r) = false.
Proof.
  destruct (query_parts input)
    as (sa & st1 & cands & sn & q & Es & E1 & E2 & En & Eq & _ & _ & _ & Hr & _).
  destruct (kinds_of_parts _ Es E1 E2 En) as (Ka & Kl & Kn).
  destruct (extractLocoNos_shape _ E1 E2) as [_ Hs].
  pose proof (locoMatches_whole _ E1 E2) as Hw.
  destruct (extractLocoNos_run input) as (st1' & cands' & E1' & E2' & _ & Hb).
  rewrite E1 in E1'. inversion E1'; subst st1'. rewrite E2 in E2'. inversion E2'; subst cands'.
  exists q. split; [exact Eq|]. intros r Hin K. rewrite Hr in Hin.
  assert (Hin' : In r (acc_locoMatches (acceptCandidates st1 cands))).
  { destruct (@raw_by_kind _ _ _ r Ka Kl Kn) as (_ & P & _). apply P. now split. }
  rewrite Forall_forall in Hs, Hw, Hb.
  destruct (Hs r Hin') as [_ T _]. destruct (Hb r Hin') as [B1 B2].
  split; [|split; [assumption | now apply Hw]].
  unfold sliceOfInput in T. rewrite T, StrFacts.length_slice by assumption. lia.
Qed.

(** X11.  The shape of [names].  Every entry begins with a number of 3 to 5
    digits that ends at a word boundary (the names of Phases 0 and 1: the
    number, a blank, the model words), or is a bare model token (Phase 2: a
    capital letter followed by 2 to 15 capitals, digits, hyphens or slashes,
    with a digit, a hyphen or a slash among them).  When there is no asset
    id and no loco number, the confidence is low exactly when every name is a
    bare model token. *)
Theorem names_are_numbered_or_model_tokens (input : string) :
  exists q,
    extractLocoQuery input = Some q
    /\ Forall (fun nm => beginsWithNumber nm = true \/ isModelToken nm = true) (names q)
    /\ (assetIds q = [] -> locoNos q = [] ->
        (confidence q = low <-> Forall (fun nm => isModelToken nm = true) (names q))).
Proof.
  destruct (query_parts input)
    as (sa & st1 & cands & sn & q & _ & _ & _ & En & Eq & _ & _ & Hn & _ & Hc & _).
  pose proof (namePhases_shape _ En) as S.
  exists q. split; [exact Eq|].
  assert (F : Forall NameShape (names q)).
  { rewrite Hn. rewrite Forall_forall in *. intros nm Hin. apply S. now apply uniq_In. }
  split; [exact F|]. intros Ha Hl. rewrite Hc, Ha, Hl.
  unfold computeConfidence. cbn [List.length Nat.ltb Nat.leb].
  rewrite (existsb_pointwise _ _ (names q) numbered_name).
  rewrite Forall_forall in F. split.
  - intros H. apply Forall_forall. intros nm Hin.
    destruct (F nm Hin) as [N|M]; [|exact M]. exfalso.
    assert (X : List.existsb beginsWithNumber (names q) = true).
    { apply existsb_exists. now exists nm. }
    rewrite X in H. destruct (names q); [contradiction | discriminate].
  - intros M. rewrite Forall_forall in M.
    assert (X : List.existsb beginsWithNumber (names q) = false).
    { destruct (List.existsb beginsWithNumber (names q)) eqn:X; [|reflexivity].
      apply existsb_exists in X. destruct X as (nm & Hin & N).
      rewrite (model_token_not_numbered _ (M nm Hin)) in N. discriminate. }
    rewrite X. now destruct (names q).
Qed.

(** X12.  Asset ids do not depend on the case of the letters A to Z.  The
    input and the input with its capital letters A to Z made small (nothing
    else changed) give the same asset ids: the pattern has the [i] flag,
    which sets a letter of A-Z equal to its small partner and to nothing
    else, and the text is lower-cased before it is pushed.  So the
    confidence is high for the one exactly when it is for the other. *)
Theorem assetIds_ignore_case_of_A_to_Z (input : string) :
  exists q q',
    extractLocoQuery input = Some q
    /\ extractLocoQuery (lowerAZ input) = Some q'
    /\ (forall a, In a (assetIds q') <-> In a (assetIds q))
    /\ (confidence q' = high <-> confidence q = high).
Proof.
  destruct (query_parts input)
    as (sa & st1 & cands & sn & q & Es & _ & _ & _ & Eq & Ha & _ & _ & _ & Hc & _).
  destruct (query_parts (lowerAZ input))
    as (sa' & st1' & cands' & sn' & q' & Es' & _ & _ & _ & Eq' & Ha' & _ & _ & _ & Hc' & _).
  exists q, q'. split; [exact Eq|]. split; [exact Eq'|].
  assert (I : forall a, In a (assetIds q') <-> In a (assetIds q)).
  { intros a. rewrite Ha, Ha', !uniq_In.
    rewrite (@assetScan_tokens _ _ a Es), (@assetScan_tokens _ _ a Es').
    split; intros (i & T & ->); exists i.
    - rewrite assetTokenAt_lower in T. split; [exact T|].
      now rewrite slice_lower, toLowerCase_idem.
    - rewrite assetTokenAt_lower. split; [exact T|].
      now rewrite slice_lower, toLowerCase_idem. }
  split; [exact I|].
  assert (H : forall a l n, computeConfidence a l n = high <-> a <> []).
  { intros a l n. unfold computeConfidence. destruct a as [|x a]; simpl.
    - split; [|congruence]. destruct (0 <? List.length l); [discriminate|].
      destruct (0 <? List.length n); [|discriminate].
      destruct (List.existsb _ _); discriminate.
    - split; [discriminate | reflexivity]. }
  rewrite Hc, Hc', !H.
  split; intros N E.
  - destruct (assetIds q') as [|x l]; [congruence|].
    assert (X : In x (assetIds q)) by (apply I; now left). rewrite E in X. contradiction.
  - destruct (assetIds q) as [|x l]; [congruence|].
    assert (X : In x (assetIds q')) by (apply I; now left). rewrite E in X. contradiction.
Qed.

(** X13.  [isFollowedByDayish], the source against the compiled module.
    The two alternatives that the source adds to the pattern make one
    difference: the source also answers true when what follows the number,
    in lower case, is a [d] that ends a word (368d).  Everything the compiled
    module rejects as a day count, the source rejects. *)
Theorem dayish_since_the_compiled_version (input : string) (stop : nat) :
  Loco.isFollowedByDayish input stop
  = Legacy.isFollowedByDayish input stop
    || startsWithWord
         (Str.toLowerCase
            (Str.slice input stop (Nat.min (String.length input) (stop + 10)))) "d".
Proof. unfold Loco.isFollowedByDayish, Legacy.isFollowedByDayish. apply dayish_split. Qed.

(** X14.  [computeConfidence], the source against the compiled module.
    The source never gives a higher confidence than the compiled module, and
    the two differ in one case only: no asset id, no loco number, and names
    none of which begins with a number (medium in the compiled module, low in
    the source). *)
Theorem confidence_since_the_compiled_version (a l n : list string) :
  rank (Loco.computeConfidence a l n) <= rank (Legacy.computeConfidence a l n)
  /\ (Loco.computeConfidence a l n <> Legacy.computeConfidence a l n
      <-> a = [] /\ l = [] /\ n <> [] /\ List.existsb beginsWithNumber n = false).
Proof.
  unfold Loco.computeConfidence, Legacy.computeConfidence.
  rewrite (existsb_pointwise _ _ n numbered_name).
  destruct a as [|x a]; simpl.
  - destruct l as [|y l]; simpl.
    + destruct n as [|z n]; [simpl|cbn [List.length Nat.ltb Nat.leb]].
      * split; [lia|]. split; [congruence | intros (_ & _ & H & _); congruence].
      * destruct (List.existsb beginsWithNumber (z :: n)); simpl.
        -- split; [lia|]. split; [congruence | intros (_ & _ & _ & H); discriminate].
        -- split; [lia|]. split; [intros _; repeat split; discriminate | discriminate].
    + split; [lia|]. split; [congruence | intros (_ & H & _); discriminate].
  - split; [lia|]. split; [congruence | intros (H & _); discriminate].
Qed.

(** X15.  What counts as a year is read off the digits.  On a number of 3 to
    5 digits, [looksLikeYear(Number(numText))] holds exactly of 19xx and
    20xx, and of 019xx and 020xx ([Number] drops the zero); a number of 3
    digits is never a year.  So a number written in one of these ways is in
    [locoNos] only as the number captured by a keyword pattern of Phase 1. *)
Theorem year_is_read_off_the_digits :
  (forall t, isLocoNo t = true -> looksLikeYear (Str.toNumber t) = isYearText t)
  /\ (forall input,
        exists ms ms' q,
          allMatches input LOCO_KEYWORD_NUMBER_GLOBAL = Some ms
          /\ allMatches input LOCO_KEYWORD_NUMBER_CONCAT_GLOBAL = Some ms'
          /\ extractLocoQuery input = Some q
          /\ forall n, In n (locoNos q) -> isYearText n = true ->
                       exists m, In m (ms ++ ms') /\ group input m 2 = n).
Proof.
  split; [exact year_of_text|]. intros input.
  destruct (extractLocoNos_folds input)
    as (ms & ms' & msn & st1 & cands & q & E & E' & En & Hst & Hc & Eq & Hl).
  exists ms, ms', q. split; [exact E|]. split; [exact E'|]. split; [exact Eq|].
  intros n Hin Y. rewrite Hl, uniq_In, in_app_iff in Hin. destruct Hin as [Hin|Hin].
  - rewrite Hst in Hin. apply keyword_fold_In in Hin. simpl in Hin.
    destruct Hin as [[]|Hin]. exact Hin.
  - exfalso. apply in_map_iff in Hin. destruct Hin as (c & <- & Hc').
    apply filter_In in Hc'. destruct Hc' as [Hc' _].
    assert (S : Forall (Surviving input (acc_locoNos st1)) cands).
    { rewrite Hc. apply genericCandidates_surviving.
      unfold genericCandidates. now rewrite forEachMatch_fold, En. }
    assert (L : Forall (fun c => LocoMatch input (candidateMatch c)) cands).
    { rewrite Hc. apply genericCandidates_shape with (locoNos := acc_locoNos st1).
      unfold genericCandidates. now rewrite forEachMatch_fold, En. }
    rewrite Forall_forall in S, L.
    destruct (S c Hc') as [_ _ _ Sy _]. destruct (L c Hc') as [_ _ Ln]. simpl in Ln.
    rewrite (year_of_text _ Ln) in Sy. congruence.
Qed.

(** X16. [nearKeywords] is true exactly when one of the words loco,
    locomotive, unit, engine stands as a word of its own (no word character
    before it, none after it) somewhere in the lower-cased window, the input
    cut from [start - window] (not below 0) to [stop + window] (not beyond
    the end).  And a standalone number with such a keyword within 20
    characters needs no other support: once it passes the three filters
    (day suffix, count, year) it is in [locoNos]. *)
Theorem nearKeywords_finds_a_keyword_in_the_window :
  (forall input start stop window,
      nearKeywords input start stop window = true
      <-> exists w p,
            In w KEYWORDS
            /\ wordAt w (Str.toLowerCase
                           (Str.slice input (start - window)
                                      (Nat.min (String.length input) (stop + window)))) p
               = true)
  /\ (forall input,
        exists q,
          extractLocoQuery input = Some q
          /\ forall i k,
               digitTokenAt input i k = true ->
               nearKeywords input i (i + k) 20 = true ->
               isFollowedByDayish input (i + k) = false ->
               looksLikeCountNumber input i (i + k) = false ->
               looksLikeYear (Str.toNumber (Str.slice input i (i + k))) = false ->
               In (Str.slice input i (i + k)) (locoNos q)).
Proof.
  split.
  - intros input start stop window. unfold nearKeywords. apply keyword_test.
  - intros input. destruct (token_accepted input) as (q & Eq & H).
    exists q. split; [exact Eq|]. intros i k T N H1 H2 H3.
    apply H; try assumption. unfold candidateScore. rewrite N. lia.
Qed.

(** X17. [hasDomainContext] is true exactly when the input, with its
    capital letters A to Z made small and nothing else changed, holds as a
    word of its own one of the sixteen domain words or the phrase out of use
    with any white space, or none, between its three words.  (The [i] flag
    sets a letter of A-Z equal to its small partner and to nothing else; the
    word characters of the input and the places of its word boundaries are
    those of the input as it stands.)  And in an input with domain context every standalone number
    that passes the three filters (day suffix, count, year) is in
    [locoNos], wherever it stands. *)
Theorem hasDomainContext_finds_a_domain_word :
  (forall input,
      hasDomainContext input = true
      <-> exists p,
            (exists w, In w DOMAIN_WORDS /\ wordAt w (lowerAZ input) p = true)
            \/ (exists a b, outOfUseAt (lowerAZ input) p a b = true))
  /\ (forall input,
        exists q,
          extractLocoQuery input = Some q
          /\ (hasDomainContext input = true ->
              forall i k,
                digitTokenAt input i k = true ->
                isFollowedByDayish input (i + k) = false ->
                looksLikeCountNumber input i (i + k) = false ->
                looksLikeYear (Str.toNumber (Str.slice input i (i + k))) = false ->
                In (Str.slice input i (i + k)) (locoNos q))).
Proof.
  split.
  - intros input. unfold hasDomainContext. rewrite test_exists.
    cbn [flagI DOMAIN_REGEX]. split.
    + intros (p & _ & H). exists p. now apply domain_matchAt.
    + intros (p & H). exists p. split; [|now apply domain_matchAt].
      destruct H as [(w & Hin & H) | (a & b & H)].
      * assert (Hne : w <> "").
        { intros ->. simpl in Hin. intuition discriminate. }
        pose proof (@wordAt_bound w _ p Hne H) as B.
        unfold lowerAZ in B. rewrite StrFacts.length_map in B. lia.
      * unfold outOfUseAt in H. rewrite !andb_true_iff in H.
        destruct H as ((((((O & _) & _) & _) & _) & _) & _).
        simpl in O. destruct (String.get p (lowerAZ input)) as [ch|] eqn:G;
          [|discriminate].
        apply StrFacts.get_lt in G. unfold lowerAZ in G.
        rewrite StrFacts.length_map in G. lia.
  - intros input. destruct (token_accepted input) as (q & Eq & H).
    exists q. split; [exact Eq|]. intros D i k T H1 H2 H3.
    apply H; try assumption. unfold candidateScore. rewrite D. lia.
Qed.

(** X18. [looksLikeCountNumber] in plain terms.  With [left] the 20
    characters before the number and [right] the 25 after it, both in
    lower case, the number looks like a count exactly when [left] ends
    with top, first, last or limit; or [left] ends with show, list,
    display, get, give or find and [right] starts with one of the eight
    counted things, in the singular or with an s; or [left] ends with
    number of or count of.  An end word starts where no word character
    stands before it and only white space may follow it; a counted thing
    may have white space before it and no word character after it. *)
Theorem looksLikeCountNumber_reads_the_words_around (input : string) (start stop : nat) :
  let left := Str.toLowerCase (Str.slice input (start - 20) start) in
  let right :=
    Str.toLowerCase (Str.slice input stop (Nat.min (String.length input) (stop + 25))) in
  looksLikeCountNumber input start stop = true
  <-> (exists w p, In w COUNT_WORDS /\ endsWithWordAt w left p = true)
      \/ ((exists w p, In w SHOW_WORDS /\ endsWithWordAt w left p = true)
          /\ (exists w a,
                In w ITEM_WORDS
                /\ (startsWithWordAt w right a = true
                    \/ startsWithWordAt (w ++ "s") right a = true)))
      \/ (exists w p a, In w OF_WORDS /\ endsWithOfAt w left p a = true).
Proof.
  intros left right. unfold looksLikeCountNumber. fold left. fold right.
  rewrite <- countWords_test, <- showWords_test, <- items_test, <- numberOf_test.
  destruct (test COUNT_LEFT_TOP left); [now split; [left|] |].
  destruct (test COUNT_LEFT_SHOW left), (test COUNT_RIGHT_ITEMS right);
    cbn [andb]; try (split; [right; left; now split | reflexivity]);
    (destruct (test COUNT_LEFT_NUMBER_OF left);
     [split; [now right; right | reflexivity]
     | split; [discriminate | intros [H|[[H1 H2]|H]]; discriminate]]).
Qed.

(** X19. [isFollowedByDayish] in plain terms.  With [tail] the 10
    characters after the number, in lower case, a day suffix follows
    exactly when [tail] starts with a hyphen, white space allowed on both
    of its sides, and then day or days; or with white space and then day
    or days; or with a d; each time with no word character after the word.
    (The alternatives [-\s*days?\b] and [d\s] of the pattern add nothing
    to the other three.) *)
Theorem isFollowedByDayish_reads_the_suffix (input : string) (stop : nat) :
  let tail :=
    Str.toLowerCase (Str.slice input stop (Nat.min (String.length input) (stop + 10))) in
  isFollowedByDayish input stop = true
  <-> (exists w a b, In w DAY_WORDS /\ dashWordAt w tail a b = true)
      \/ (exists w a, In w DAY_WORDS /\ startsWithWordAt w tail (S a) = true)
      \/ startsWithWordAt "d" tail 0 = true.
Proof. intros tail. unfold isFollowedByDayish. apply dayish_test. Qed.

(** X20. No name holds a stop word.  Every entry of [names] is made of
    words joined by single blanks; each word is non-empty, has no white
    space in it and, put in upper case, is not in [NAME_STOPWORDS]: the
    number and the model of Phase 0, the number and the words kept by Phase 1
    (cut before the first stop word), the token of Phase 2. *)
Theorem names_hold_no_stop_word (input : string) :
  exists q,
    extractLocoQuery input = Some q
    /\ Forall (fun nm =>
                exists tokens,
                  tokens <> []
                  /\ nm = join tokens
                  /\ Forall (fun t => t <> ""
                                      /\ Str.forallb notSpace t = true
                                      /\ isStopword (Str.toUpperCase t) = false) tokens)
              (names q).
Proof.
  destruct (query_parts input)
    as (sa & st1 & cands & sn & q & _ & _ & _ & En & Eq & _ & _ & Hn & _).
  pose proof (namePhases_words _ En) as S.
  exists q. split; [exact Eq|]. rewrite Hn. rewrite Forall_forall in *.
  intros nm Hin. rewrite uniq_In in Hin. destruct (S nm Hin) as (tokens & Hne & Ej & F).
  exists tokens. split; [exact Hne|]. split; [exact Ej|].
  rewrite Forall_forall in *. intros t Ht. specialize (F t Ht).
  unfold isNameWord, isPlainWord in F.
  rewrite !andb_true_iff, !negb_true_iff in F. destruct F as [[N P] St].
  split; [|now split]. intros ->. discriminate.
Qed.

End Extras.
